(** * WebRTC multi-object detection: signaling broker, frame pipeline, metrics

    A shallow embedding of the JavaScript classes that make up the signaling
    and frame-pipeline core of the repository:

    - [MetricsCollector]        (server/detection/detection-service.js, 2nd part)
    - [MetricsDisplay]          (client/src/metrics/metrics-display.js)
    - [ObjectDetectionService]  (server/detection/detection-service.js)
    - [WebRTCVLMServer]         (server/index.js, the detect-frame handler)
    - [WebRTCSignaling]         (the module server/index.js loads as ./webrtc/signaling)

    Conventions of the embedding.
    - A JavaScript number that a series can hold is a rational [Q]; the
      results of [Math.min], [Math.max], division and array indexing are
      values of [jsval], which adds the two infinities, NaN and undefined.
      Sums, products and quotients of series values are exact: the rounding
      of IEEE doubles is not modelled there.  The index of a percentile is
      modelled both ways: [Metrics.percentile_index] is the exact formula and
      [Double.percentile_index] evaluates it in binary64 arithmetic, as the
      code does; the two are compared in the proofs.
    - [Date.now()] is an argument [now] of the operation that calls it; the
      calls made while one event is handled return the same instant.
      [Math.random()] is an argument [rnd : nat -> Q] giving the draw made for
      the i-th element of a filtered array.
    - Logging with [console.log] is left out; [console.error] in
      [runInference] is kept as an observation.  Timers ([setInterval] of the
      system monitor) are not modelled: the series they feed are fields of the
      state, over which the statements quantify.
    - An [async] method runs atomically up to its first [await]; what happens
      after the [await] is a separate event of the step function.  Arbitrary
      interleavings of events are allowed.
    - A JavaScript [Map] is a [gmap]; a JavaScript [Set] is a duplicate-free
      list in insertion order. *)

From Stdlib Require Import QArith Qround Qminmax Sorting.Sorted Lqa.
From Stdlib Require Floats.PrimFloat Floats.SpecFloat Floats.FloatOps.
From Stdlib Require Numbers.Cyclic.Int63.Uint63.
From stdpp Require Import gmap strings list.

Local Open Scope Z_scope.

(** ** JavaScript values produced by numeric code *)

Module JS.

Inductive jsval : Type :=
  | Num (q : Q)
  | Infinity
  | NegInfinity
  | NaN
  | Undefined.

(** ToBoolean: 0, NaN and undefined are falsy, both infinities are truthy. *)
Definition truthy (v : jsval) : bool :=
  match v with
  | Num q => negb (Qeq_bool q 0)
  | Infinity | NegInfinity => true
  | NaN | Undefined => false
  end.

(** [v || 0] *)
Definition or_zero (v : jsval) : jsval :=
  if truthy v then v else Num 0.

(** [Math.min(...xs)]: with no argument the result is +Infinity. *)
Definition Math_min (xs : list Q) : jsval :=
  match xs with
  | [] => Infinity
  | x :: r => Num (fold_left Qmin r x)
  end.

(** [Math.max(...xs)]: with no argument the result is -Infinity. *)
Definition Math_max (xs : list Q) : jsval :=
  match xs with
  | [] => NegInfinity
  | x :: r => Num (fold_left Qmax r x)
  end.

(** [a / b] on finite numbers: 0/0 is NaN, x/0 is an infinity. *)
Definition div (a b : Q) : jsval :=
  if Qeq_bool b 0 then
    if Qeq_bool a 0 then NaN
    else if Qle_bool 0 a then Infinity else NegInfinity
  else Num (a / b).

(** A string is truthy unless it is empty. *)
Definition truthy_string (s : string) : bool :=
  negb (String.eqb s EmptyString).

(** [xs[xs.length - 1]] for a non-empty array. *)
Definition last_or_zero (xs : list Q) : jsval :=
  match last xs with
  | Some x => Num x
  | None => Num 0
  end.

End JS.

(** ** MetricsCollector *)

Module Metrics.
Import JS.

Record Detection : Type := mkDetection {
  label : string;
  score : Q;
  xmin : Q;
  ymin : Q;
  xmax : Q;
  ymax : Q
}.

(** The argument of [recordFrame]. *)
Record FrameData : Type := mkFrameData {
  frame_id : string;
  capture_ts : Z;
  recv_ts : Z;
  inference_ts : Z;
  detections : list Detection
}.

Record Frame : Type := mkFrame {
  frameId : string;
  captureTs : Z;
  recvTs : Z;
  inferenceTs : Z;
  overlayTs : Z;
  networkLatency : Z;
  inferenceLatency : Z;
  endToEndLatency : Z;
  detectionCount : nat;
  timestamp : Z
}.

Record Latencies : Type := mkLatencies {
  endToEnd : list Q;
  network : list Q;
  inference : list Q;
  overlay : list Q
}.

Record Sample : Type := mkSample { value : Q; sample_timestamp : Z }.

Record Bandwidth : Type := mkBandwidth {
  uplink : list Sample;
  downlink : list Sample
}.

Record SystemMetrics : Type := mkSystemMetrics {
  cpuUsage : list Q;
  memoryUsage : list Q;
  system_timestamp : list Z
}.

Record MetricsCollector : Type := mkMetricsCollector {
  frames : list Frame;
  startTime : Z;
  lastResetTime : Z;
  totalFrames : nat;
  processedFrames : nat;
  droppedFrames : nat;
  latencies : Latencies;
  bandwidth : Bandwidth;
  systemMetrics : SystemMetrics;
  maxFrameHistory : nat;
  metricsWindow : Z
}.

Definition constructor (now : Z) : MetricsCollector :=
  {| frames := [];
     startTime := now;
     lastResetTime := now;
     totalFrames := 0;
     processedFrames := 0;
     droppedFrames := 0;
     latencies := mkLatencies [] [] [] [];
     bandwidth := mkBandwidth [] [];
     systemMetrics := mkSystemMetrics [] [] [];
     maxFrameHistory := 1000;
     metricsWindow := 30000 |}.

(** [arr.slice(-500)] when [arr.length > 1000], the array itself otherwise. *)
Definition trim_series (xs : list Q) : list Q :=
  if (1000 <? length xs)%nat then drop (length xs - 500) xs else xs.

Definition cleanupOldMetrics (m : MetricsCollector) (now : Z) : MetricsCollector :=
  let cutoffTime := now - metricsWindow m in
  let l := latencies m in
  {| frames := filter (fun f => cutoffTime < timestamp f) (frames m);
     startTime := startTime m;
     lastResetTime := lastResetTime m;
     totalFrames := totalFrames m;
     processedFrames := processedFrames m;
     droppedFrames := droppedFrames m;
     latencies := mkLatencies (trim_series (endToEnd l)) (trim_series (network l))
                              (trim_series (inference l)) (trim_series (overlay l));
     bandwidth := bandwidth m;
     systemMetrics := systemMetrics m;
     maxFrameHistory := maxFrameHistory m;
     metricsWindow := metricsWindow m |}.

Definition recordFrame (m : MetricsCollector) (d : FrameData) (now : Z)
  : MetricsCollector :=
  let networkLatency := recv_ts d - capture_ts d in
  let inferenceLatency := inference_ts d - recv_ts d in
  let endToEndLatency := now - capture_ts d in
  let frame :=
    {| frameId := frame_id d;
       captureTs := capture_ts d;
       recvTs := recv_ts d;
       inferenceTs := inference_ts d;
       overlayTs := now;
       networkLatency := networkLatency;
       inferenceLatency := inferenceLatency;
       endToEndLatency := endToEndLatency;
       detectionCount := length (detections d);
       timestamp := now |} in
  let pushed := frames m ++ [frame] in
  let l := latencies m in
  cleanupOldMetrics
    {| frames := if (maxFrameHistory m <? length pushed)%nat then tail pushed else pushed;
       startTime := startTime m;
       lastResetTime := lastResetTime m;
       totalFrames := S (totalFrames m);
       processedFrames := S (processedFrames m);
       droppedFrames := droppedFrames m;
       latencies := mkLatencies (endToEnd l ++ [inject_Z endToEndLatency])
                                (network l ++ [inject_Z networkLatency])
                                (inference l ++ [inject_Z inferenceLatency])
                                (overlay l);
       bandwidth := bandwidth m;
       systemMetrics := systemMetrics m;
       maxFrameHistory := maxFrameHistory m;
       metricsWindow := metricsWindow m |}
    now.

Definition recordDroppedFrame (m : MetricsCollector) : MetricsCollector :=
  {| frames := frames m;
     startTime := startTime m;
     lastResetTime := lastResetTime m;
     totalFrames := S (totalFrames m);
     processedFrames := processedFrames m;
     droppedFrames := S (droppedFrames m);
     latencies := latencies m;
     bandwidth := bandwidth m;
     systemMetrics := systemMetrics m;
     maxFrameHistory := maxFrameHistory m;
     metricsWindow := metricsWindow m |}.

(** [reset] empties the frame history, the counters, the latency series and
    the bandwidth series; it leaves [systemMetrics] as it is. *)
Definition reset (m : MetricsCollector) (now : Z) : MetricsCollector :=
  {| frames := [];
     startTime := startTime m;
     lastResetTime := now;
     totalFrames := 0;
     processedFrames := 0;
     droppedFrames := 0;
     latencies := mkLatencies [] [] [] [];
     bandwidth := mkBandwidth [] [];
     systemMetrics := systemMetrics m;
     maxFrameHistory := maxFrameHistory m;
     metricsWindow := metricsWindow m |}.

(** [[...values].sort((a, b) => a - b)]: a stable ascending sort. *)
Fixpoint insert_asc (x : Q) (l : list Q) : list Q :=
  match l with
  | [] => [x]
  | y :: r => if Qle_bool x y then x :: y :: r else y :: insert_asc x r
  end.

Fixpoint sort_asc (l : list Q) : list Q :=
  match l with
  | [] => []
  | x :: r => insert_asc x (sort_asc r)
  end.

(** [Math.ceil((percentile / 100) * n) - 1], the quotient and the product
    being exact; [Double.percentile_index] below rounds them as the code
    does. *)
Definition percentile_index (percentile : Q) (n : nat) : Z :=
  Qceiling ((percentile / 100) * inject_Z (Z.of_nat n)) - 1.

(** [arr[i]] for an integer [i >= 0]: undefined past the end. *)
Definition index (arr : list Q) (i : Z) : jsval :=
  match arr !! Z.to_nat i with
  | Some v => Num v
  | None => Undefined
  end.

Definition calculatePercentile (values : list Q) (percentile : Q) : jsval :=
  match values with
  | [] => Num 0
  | _ =>
      let sorted := sort_asc values in
      let index_ := percentile_index percentile (length sorted) in
      index sorted (Z.max 0 index_)
  end.

Definition sum (values : list Q) : Q := fold_left Qplus values 0%Q.

(** [values.reduce((sum, val) => sum + val, 0) / values.length], the sum and
    the quotient being exact; the code rounds each addition and the division
    to a double. *)
Definition calculateAverage (values : list Q) : jsval :=
  match values with
  | [] => Num 0
  | _ => Num (sum values / inject_Z (Z.of_nat (length values)))
  end.

(** The snapshot returned by [getMetrics]. *)
Record FrameStats : Type := mkFrameStats {
  total : nat;
  processed : nat;
  dropped : nat;
  dropRate : jsval;
  fps : jsval
}.

Record EndToEndStats : Type := mkEndToEndStats {
  median : jsval;
  p95 : jsval;
  p99 : jsval;
  average : jsval;
  min : jsval;
  max : jsval
}.

Record LatencyStats : Type := mkLatencyStats {
  lat_median : jsval;
  lat_p95 : jsval;
  lat_average : jsval
}.

Record SeriesStats : Type := mkSeriesStats {
  current : jsval;
  series_average : jsval;
  series_max : jsval
}.

Record SampleCount : Type := mkSampleCount {
  count_frames : nat;
  count_latencies : nat;
  count_bandwidth : nat
}.

Record Snapshot : Type := mkSnapshot {
  snap_timestamp : Z;
  duration : jsval;
  snap_frames : FrameStats;
  latency_endToEnd : EndToEndStats;
  latency_network : LatencyStats;
  latency_inference : LatencyStats;
  bandwidth_uplink : SeriesStats;
  bandwidth_downlink : SeriesStats;
  system_cpu : SeriesStats;
  system_memory : SeriesStats;
  recentFrames : list Frame;
  sampleCount : SampleCount
}.

(** [{ current: xs.length > 0 ? xs[xs.length - 1] : 0,
       average: this.calculateAverage(xs),
       max: Math.max(...xs) || 0 }] *)
Definition seriesStats (xs : list Q) : SeriesStats :=
  {| current := last_or_zero xs;
     series_average := calculateAverage xs;
     series_max := or_zero (Math_max xs) |}.

Definition getMetrics (m : MetricsCollector) (now : Z) : Snapshot :=
  let duration_q : Q := (inject_Z (now - lastResetTime m) / 1000)%Q in
  let l := latencies m in
  let uplinkValues := map value (uplink (bandwidth m)) in
  let downlinkValues := map value (downlink (bandwidth m)) in
  {| snap_timestamp := now;
     duration := Num duration_q;
     snap_frames :=
       {| total := totalFrames m;
          processed := processedFrames m;
          dropped := droppedFrames m;
          dropRate :=
            if (0 <? totalFrames m)%nat then
              Num ((inject_Z (Z.of_nat (droppedFrames m))
                    / inject_Z (Z.of_nat (totalFrames m))) * 100)%Q
            else Num 0;
          fps := div (inject_Z (Z.of_nat (processedFrames m))) duration_q |};
     latency_endToEnd :=
       {| median := calculatePercentile (endToEnd l) 50;
          p95 := calculatePercentile (endToEnd l) 95;
          p99 := calculatePercentile (endToEnd l) 99;
          average := calculateAverage (endToEnd l);
          min := or_zero (Math_min (endToEnd l));
          max := or_zero (Math_max (endToEnd l)) |};
     latency_network :=
       {| lat_median := calculatePercentile (network l) 50;
          lat_p95 := calculatePercentile (network l) 95;
          lat_average := calculateAverage (network l) |};
     latency_inference :=
       {| lat_median := calculatePercentile (inference l) 50;
          lat_p95 := calculatePercentile (inference l) 95;
          lat_average := calculateAverage (inference l) |};
     bandwidth_uplink := seriesStats uplinkValues;
     bandwidth_downlink := seriesStats downlinkValues;
     system_cpu := seriesStats (cpuUsage (systemMetrics m));
     system_memory := seriesStats (memoryUsage (systemMetrics m));
     recentFrames := drop (length (frames m) - 10) (frames m);
     sampleCount :=
       {| count_frames := length (frames m);
          count_latencies := length (endToEnd l);
          count_bandwidth := length (uplink (bandwidth m)) |} |}.

(** Every series that [getMetrics] reads is empty. *)
Definition all_series_empty (m : MetricsCollector) : Prop :=
  endToEnd (latencies m) = [] /\ network (latencies m) = [] /\
  inference (latencies m) = [] /\
  uplink (bandwidth m) = [] /\ downlink (bandwidth m) = [] /\
  cpuUsage (systemMetrics m) = [] /\ memoryUsage (systemMetrics m) = [].

(** The latency, bandwidth and system fields of a snapshot, in source order. *)
Definition statistic_fields (s : Snapshot) : list (string * jsval) :=
  [ ("latency.endToEnd.median", median (latency_endToEnd s));
    ("latency.endToEnd.p95", p95 (latency_endToEnd s));
    ("latency.endToEnd.p99", p99 (latency_endToEnd s));
    ("latency.endToEnd.average", average (latency_endToEnd s));
    ("latency.endToEnd.min", min (latency_endToEnd s));
    ("latency.endToEnd.max", max (latency_endToEnd s));
    ("latency.network.median", lat_median (latency_network s));
    ("latency.network.p95", lat_p95 (latency_network s));
    ("latency.network.average", lat_average (latency_network s));
    ("latency.inference.median", lat_median (latency_inference s));
    ("latency.inference.p95", lat_p95 (latency_inference s));
    ("latency.inference.average", lat_average (latency_inference s));
    ("bandwidth.uplink.current", current (bandwidth_uplink s));
    ("bandwidth.uplink.average", series_average (bandwidth_uplink s));
    ("bandwidth.uplink.max", series_max (bandwidth_uplink s));
    ("bandwidth.downlink.current", current (bandwidth_downlink s));
    ("bandwidth.downlink.average", series_average (bandwidth_downlink s));
    ("bandwidth.downlink.max", series_max (bandwidth_downlink s));
    ("system.cpu.current", current (system_cpu s));
    ("system.cpu.average", series_average (system_cpu s));
    ("system.cpu.max", series_max (system_cpu s));
    ("system.memory.current", current (system_memory s));
    ("system.memory.average", series_average (system_memory s));
    ("system.memory.max", series_max (system_memory s)) ].

End Metrics.

(** ** MetricsDisplay (client): the percentile of an array sorted by the caller *)

Module MetricsDisplay.
Import JS.

Definition calculatePercentile (sortedArray : list Q) (percentile : Q) : jsval :=
  match sortedArray with
  | [] => Num 0
  | _ =>
      let index_ := Metrics.percentile_index percentile (length sortedArray) in
      Metrics.index sortedArray (Z.max 0 index_)
  end.

End MetricsDisplay.

(** ** The percentile index in double-precision arithmetic *)

Module Double.
Import JS.

(** A double whose value is an integer, or one of the special values. *)
Inductive integral : Type :=
  | Int (z : Z)
  | PosInf
  | NegInf
  | NotANumber.

(** [Math.ceil(x)]: a finite double is m * 2^e with an integer mantissa, and
    its ceiling is computed on integers. *)
Definition Math_ceil (x : PrimFloat.float) : integral :=
  match FloatOps.Prim2SF x with
  | SpecFloat.S754_zero _ => Int 0
  | SpecFloat.S754_infinity false => PosInf
  | SpecFloat.S754_infinity true => NegInf
  | SpecFloat.S754_nan => NotANumber
  | SpecFloat.S754_finite s m e =>
      let n := if s then Z.neg m else Z.pos m in
      Int (if 0 <=? e then n * 2 ^ e else - ((- n) / 2 ^ (- e)))
  end.

(** The double of an integer literal or of an array length [z], for
    0 <= z < 2^63 (the conversion is exact below 2^53). *)
Definition number (z : Z) : PrimFloat.float :=
  PrimFloat.of_uint63 (Uint63.of_Z z).

(** [Math.ceil((percentile / 100) * n) - 1] as the code evaluates it: the
    quotient and the product are rounded to the nearest double.  The final
    subtraction is exact for a ceiling below 2^53; beyond that the index is
    past the end of any array either way. *)
Definition percentile_index (percentile : PrimFloat.float) (n : nat) : integral :=
  match Math_ceil (PrimFloat.mul (PrimFloat.div percentile (number 100))
                                 (number (Z.of_nat n))) with
  | Int c => Int (c - 1)
  | v => v
  end.

(** [arr[Math.max(0, index)]]: [Math.max(0, -Infinity)] is 0, and an array
    has no element at NaN or Infinity. *)
Definition at_index (arr : list Q) (i : integral) : jsval :=
  match i with
  | Int z => Metrics.index arr (Z.max 0 z)
  | NegInf => Metrics.index arr 0
  | PosInf | NotANumber => Undefined
  end.

(** [calculatePercentile] of the collector. *)
Definition calculatePercentile (values : list Q) (percentile : PrimFloat.float) : jsval :=
  match values with
  | [] => Num 0
  | _ =>
      let sorted := Metrics.sort_asc values in
      at_index sorted (percentile_index percentile (length sorted))
  end.

(** [calculatePercentile] of the display, which is handed a sorted array. *)
Definition calculatePercentile_sorted (sortedArray : list Q)
    (percentile : PrimFloat.float) : jsval :=
  match sortedArray with
  | [] => Num 0
  | _ => at_index sortedArray (percentile_index percentile (length sortedArray))
  end.


End Double.

(** ** ObjectDetectionService *)

Module DetectionService.
Import JS.
Export Metrics(Detection, mkDetection, label, score).

(** [imageData] is opaque to the service. *)
Definition Image : Type := string.

Inductive Mode : Type := server | wasm.

Inductive Session : Type := InferenceSession.

(** What a caller can catch. *)
Inductive Error : Type :=
  | DetectionServiceNotInitialized
  | ModelSessionNotAvailable
  | Thrown (message : string).

(** A queue entry [{ imageData, resolve, reject }]; [resolve] and [reject]
    belong to the promise that [detectServerSide] returned, named by a number. *)
Record Entry : Type := mkEntry {
  imageData : Image;
  promise : nat
}.

Record ObjectDetectionService : Type := mkService {
  mode : Mode;
  session : option Session;
  initialized : bool;
  maxQueueSize : nat;
  processingQueue : list Entry;
  isProcessing : bool
}.

Definition constructor (m : Mode) : ObjectDetectionService :=
  {| mode := m;
     session := None;
     initialized := false;
     maxQueueSize := 10;
     processingQueue := [];
     isProcessing := false |}.

(** [initialize]: in server mode the model is looked up and loaded;
    [model_loads] tells whether that succeeds.  On failure the service falls
    back to WASM mode. *)
Definition initialize (s : ObjectDetectionService) (model_loads : bool)
  : ObjectDetectionService :=
  match mode s with
  | server =>
      if model_loads then
        {| mode := server; session := Some InferenceSession; initialized := true;
           maxQueueSize := maxQueueSize s; processingQueue := processingQueue s;
           isProcessing := isProcessing s |}
      else
        {| mode := wasm; session := session s; initialized := true;
           maxQueueSize := maxQueueSize s; processingQueue := processingQueue s;
           isProcessing := isProcessing s |}
  | wasm =>
      {| mode := wasm; session := session s; initialized := true;
         maxQueueSize := maxQueueSize s; processingQueue := processingQueue s;
         isProcessing := isProcessing s |}
  end.

Definition mockDetections : list Detection :=
  [ mkDetection "person" 0.85 0.2 0.1 0.6 0.8;
    mkDetection "phone" 0.72 0.3 0.4 0.5 0.7 ].

(** [arr.filter(() => Math.random() > 0.3)], the i-th call of the callback
    drawing [rnd i]. *)
Fixpoint filter_random {A} (rnd : nat -> Q) (i : nat) (arr : list A) : list A :=
  match arr with
  | [] => []
  | x :: r =>
      if negb (Qle_bool (rnd i) 0.3) then x :: filter_random rnd (S i) r
      else filter_random rnd (S i) r
  end.

Definition getMockDetections (rnd : nat -> Q) : list Detection :=
  filter_random rnd 0 mockDetections.

Definition postprocessResults (rnd : nat -> Q) : list Detection :=
  getMockDetections rnd.

(** How the external collaborator ([preprocessImage], [session.run]) behaves
    on one call. *)
Inductive Collaborator : Type :=
  | Returns
  | Throws (e : Error).

(** How a promise ends. *)
Inductive Settlement : Type :=
  | Resolved (detections : list Detection)
  | Rejected (e : Error).

(** What an instrumented run records.  [Enqueued] and [Dispatched] mark the
    [push] in [detectServerSide] and the [shift] in [processQueue];
    [ConsoleError] is [console.error('Inference error:', error)]; [Settled p r]
    is the call of [resolve] or [reject] of promise [p]. *)
Inductive Obs : Type :=
  | Enqueued (e : Entry)
  | Dispatched (e : Entry)
  | ConsoleError (e : Error)
  | Settled (p : nat) (r : Settlement).

(** [runInference]: the outcome of the call and what it logs. *)
Definition runInference (s : ObjectDetectionService) (c : Collaborator)
    (rnd : nat -> Q) : Settlement * list Obs :=
  match session s with
  | None => (Rejected ModelSessionNotAvailable, [])
  | Some _ =>
      match c with
      | Returns => (Resolved (postprocessResults rnd), [])
      | Throws e => (Resolved (getMockDetections rnd), [ConsoleError e])
      end
  end.

(** The service together with the activations of [processQueue] that are
    suspended at [await this.runInference(imageData)], each with the entry it
    shifted, and the number of promises handed out so far. *)
Record World : Type := mkWorld {
  service : ObjectDetectionService;
  activations : list Entry;
  nextPromise : nat
}.

Definition with_queue (s : ObjectDetectionService) (q : list Entry)
  : ObjectDetectionService :=
  {| mode := mode s; session := session s; initialized := initialized s;
     maxQueueSize := maxQueueSize s; processingQueue := q;
     isProcessing := isProcessing s |}.

Definition with_isProcessing (s : ObjectDetectionService) (b : bool)
  : ObjectDetectionService :=
  {| mode := mode s; session := session s; initialized := initialized s;
     maxQueueSize := maxQueueSize s; processingQueue := processingQueue s;
     isProcessing := b |}.

(** The head of the [while] loop of [processQueue]: shift an entry and
    suspend on its inference, or leave through [finally]. *)
Definition loop (w : World) : World * list Obs :=
  match processingQueue (service w) with
  | [] =>
      ({| service := with_isProcessing (service w) false;
          activations := activations w;
          nextPromise := nextPromise w |}, [])
  | e :: q =>
      ({| service := with_queue (service w) q;
          activations := activations w ++ [e];
          nextPromise := nextPromise w |}, [Dispatched e])
  end.

Definition processQueue (w : World) : World * list Obs :=
  if isProcessing (service w) || (length (processingQueue (service w)) =? 0)%nat
  then (w, [])
  else loop {| service := with_isProcessing (service w) true;
               activations := activations w;
               nextPromise := nextPromise w |}.

(** The queue after the guard of [detectServerSide]. *)
Definition drop_oldest_if_full (s : ObjectDetectionService) : list Entry :=
  if (maxQueueSize s <=? length (processingQueue s))%nat
  then tail (processingQueue s)
  else processingQueue s.

(** [detectServerSide]: the returned promise is [nextPromise w]. *)
Definition detectServerSide (w : World) (img : Image) : World * list Obs :=
  let e := mkEntry img (nextPromise w) in
  let pushed := drop_oldest_if_full (service w) ++ [e] in
  let '(w', obs) :=
    processQueue {| service := with_queue (service w) pushed;
                    activations := activations w;
                    nextPromise := S (nextPromise w) |} in
  (w', Enqueued e :: obs).

(** The inference awaited by the [k]-th suspended activation ends: the
    activation settles the promise of its entry and goes round the loop. *)
Definition settle (w : World) (k : nat) (c : Collaborator) (rnd : nat -> Q)
  : World * list Obs :=
  match activations w !! k with
  | None => (w, [])
  | Some e =>
      let '(r, logged) := runInference (service w) c rnd in
      let '(w', obs) :=
        loop {| service := service w;
                activations := delete k (activations w);
                nextPromise := nextPromise w |} in
      (w', logged ++ Settled (promise e) r :: obs)
  end.

Inductive Event : Type :=
  | Detect (img : Image)
  | InferenceEnds (k : nat) (c : Collaborator) (rnd : nat -> Q).

Definition step (w : World) (ev : Event) : World * list Obs :=
  match ev with
  | Detect img => detectServerSide w img
  | InferenceEnds k c rnd => settle w k c rnd
  end.

(** A service as the server can hold it before the first frame arrives. *)
Inductive Boot : Type :=
  | Constructed (m : Mode)
  | Initialized (m : Mode) (model_loads : bool).

Definition boot (b : Boot) : World :=
  {| service :=
       match b with
       | Constructed m => constructor m
       | Initialized m model_loads => initialize (constructor m) model_loads
       end;
     activations := [];
     nextPromise := 0 |}.

(** Run events from left to right, collecting what is observed. *)
Definition run_from (w : World) (evs : list Event) : World * list Obs :=
  fold_left (fun acc ev => let '(w', obs) := step acc.1 ev in (w', acc.2 ++ obs))
            evs (w, []).

Definition run (b : Boot) (evs : list Event) : World * list Obs :=
  run_from (boot b) evs.

Definition queue_of (w : World) : list Entry := processingQueue (service w).

Definition enqueued (tr : list Obs) : list Entry :=
  omap (fun o => match o with Enqueued e => Some e | _ => None end) tr.

Definition dispatched (tr : list Obs) : list Entry :=
  omap (fun o => match o with Dispatched e => Some e | _ => None end) tr.

(** [x] occurs before [y] in [l]. *)
Definition before {A} (x y : A) (l : list A) : Prop :=
  exists l1 l2 l3, l = l1 ++ x :: l2 ++ y :: l3.

(** One pass over a trace that accepts it only if no entry is dispatched
    while another one is in flight and every settlement is that of the entry
    in flight.  The state is the promise in flight, if any. *)
Definition track (st : option (option nat)) (o : Obs) : option (option nat) :=
  match st with
  | None => None
  | Some cur =>
      match o with
      | Dispatched e =>
          match cur with None => Some (Some (promise e)) | Some _ => None end
      | Settled p _ =>
          match cur with
          | Some q => if (p =? q)%nat then Some None else None
          | None => None
          end
      | _ => Some cur
      end
  end.

Definition serialized (tr : list Obs) : Prop :=
  is_Some (fold_left track tr (Some None)).


(** [detectObjects]: it throws before initialisation, queues the frame in
    server mode and answers at once with mock detections otherwise. *)
Inductive Answer : Type :=
  | Now (r : Settlement)
  | Later (p : nat).

Definition detectObjects (w : World) (img : Image) (rnd : nat -> Q)
  : World * list Obs * Answer :=
  if negb (initialized (service w)) then
    (w, [], Now (Rejected DetectionServiceNotInitialized))
  else
    match mode (service w) with
    | server =>
        let '(w', obs) := detectServerSide w img in (w', obs, Later (nextPromise w))
    | wasm => (w, [], Now (Resolved (getMockDetections rnd)))
    end.

(** What the drain loop dispatches when it goes round: the oldest queued
    entry, if there is one. *)
Definition next_dispatch (w : World) : list Obs :=
  match queue_of w with
  | [] => []
  | e :: _ => [Dispatched e]
  end.

(** The invariant of the pipeline: the world [w] reached and the trace [tr]
    observed so far. *)
Record Inv (w : World) (tr : list Obs) : Prop := {
  inv_max : maxQueueSize (service w) = 10%nat;
  inv_len : (length (queue_of w) <= 10)%nat;
  inv_flag : match activations w with
             | [] => isProcessing (service w) = false /\ queue_of w = []
             | [_] => isProcessing (service w) = true
             | _ => False
             end;
  inv_track : fold_left track tr (Some None) = Some (promise <$> head (activations w));
  inv_enq : promise <$> enqueued tr = seq 0 (nextPromise w);
  inv_fifo : sublist (dispatched tr ++ queue_of w) (enqueued tr)
}.

End DetectionService.

(** ** WebRTCVLMServer: the detect-frame handler and the metrics requests *)

Module Server.
Import JS DetectionService.

(** What the handler keeps across [await detectObjects(imageData)]. *)
Record Request : Type := mkRequest {
  frameId : string;
  captureTs : Z;
  recvTs : Z
}.

Inductive Reply : Type :=
  | DetectionResult (result : Metrics.FrameData)
  | DetectionError (e : Error).

Record WebRTCVLMServer : Type := mkServer {
  detectionService : World;
  metricsCollector : Metrics.MetricsCollector;
  awaiting : gmap nat Request
}.

Definition constructor (m : Mode) (now : Z) : WebRTCVLMServer :=
  {| detectionService := boot (Constructed m);
     metricsCollector := Metrics.constructor now;
     awaiting := ∅ |}.

(** [start]: the detection service is initialised before the server listens. *)
Definition start (m : Mode) (model_loads : bool) (now : Z) : WebRTCVLMServer :=
  {| detectionService := boot (Initialized m model_loads);
     metricsCollector := Metrics.constructor now;
     awaiting := ∅ |}.

(** The handler after the [await]: the result is recorded and sent, an
    error is sent. *)
Definition resume (srv : WebRTCVLMServer) (req : Request) (r : Settlement) (now : Z)
  : WebRTCVLMServer * list Reply :=
  match r with
  | Resolved detections =>
      let result :=
        {| Metrics.frame_id := frameId req;
           Metrics.capture_ts := captureTs req;
           Metrics.recv_ts := recvTs req;
           Metrics.inference_ts := now;
           Metrics.detections := detections |} in
      ({| detectionService := detectionService srv;
          metricsCollector := Metrics.recordFrame (metricsCollector srv) result now;
          awaiting := awaiting srv |},
       [DetectionResult result])
  | Rejected e => (srv, [DetectionError e])
  end.

(** The handlers whose promise an observation settles are resumed. *)
Definition notify (now : Z) (acc : WebRTCVLMServer * list Reply) (o : Obs)
  : WebRTCVLMServer * list Reply :=
  match o with
  | Settled p r =>
      match awaiting acc.1 !! p with
      | Some req =>
          let srv := {| detectionService := detectionService acc.1;
                        metricsCollector := metricsCollector acc.1;
                        awaiting := delete p (awaiting acc.1) |} in
          let '(srv', replies) := resume srv req r now in
          (srv', acc.2 ++ replies)
      | None => acc
      end
  | _ => acc
  end.

Inductive Event : Type :=
  | DetectFrame (imageData : Image) (frameId : string) (captureTs : Z)
                (now : Z) (rnd : nat -> Q)
  | InferenceEnds (k : nat) (c : Collaborator) (rnd : nat -> Q) (now : Z)
  | MetricsReset (now : Z).

Definition step (srv : WebRTCVLMServer) (ev : Event) : WebRTCVLMServer * list Reply :=
  match ev with
  | DetectFrame img fid cts now rnd =>
      let req := mkRequest fid cts now in
      let '(w', obs, answer) := detectObjects (detectionService srv) img rnd in
      let srv' := {| detectionService := w';
                     metricsCollector := metricsCollector srv;
                     awaiting := awaiting srv |} in
      match answer with
      | Now r => resume srv' req r now
      | Later p =>
          fold_left (notify now) obs
            ({| detectionService := w';
                metricsCollector := metricsCollector srv;
                awaiting := <[p := req]> (awaiting srv) |}, [])
      end
  | InferenceEnds k c rnd now =>
      let '(w', obs) := settle (detectionService srv) k c rnd in
      fold_left (notify now) obs
        ({| detectionService := w';
            metricsCollector := metricsCollector srv;
            awaiting := awaiting srv |}, [])
  | MetricsReset now =>
      ({| detectionService := detectionService srv;
          metricsCollector := Metrics.reset (metricsCollector srv) now;
          awaiting := awaiting srv |}, [])
  end.

Definition run (srv : WebRTCVLMServer) (evs : list Event) : WebRTCVLMServer :=
  fold_left (fun s ev => (step s ev).1) evs srv.

(** The frames waiting in the admission queue. *)
Definition queue (srv : WebRTCVLMServer) : list Entry :=
  queue_of (detectionService srv).

(** A detect-frame request arriving now evicts the oldest queued frame: the
    service is in server mode, the drain loop is busy and the queue is full. *)
Definition evicts (srv : WebRTCVLMServer) : Prop :=
  initialized (service (detectionService srv)) = true /\
  mode (service (detectionService srv)) = server /\
  isProcessing (service (detectionService srv)) = true /\
  (maxQueueSize (service (detectionService srv)) <= length (queue srv))%nat.

End Server.

(** ** WebRTCSignaling *)

Module Signaling.
Import JS.

(** [client.type]: [None] is null. *)
Definition ClientType : Type := option string.

Record Client : Type := mkClient {
  type : ClientType;
  room : option string
}.

(** [clients] is the JavaScript Set of member ids, in insertion order. *)
Record Room : Type := mkRoom {
  clients : list string;
  created : Z
}.

Record WebRTCSignaling : Type := mkSignaling {
  rooms : gmap string Room;
  clientMap : gmap string Client
}.

Definition constructor : WebRTCSignaling :=
  {| rooms := ∅; clientMap := ∅ |}.

(** [if (client.room)]: null and the empty string are falsy. *)
Definition has_room (c : Client) : bool :=
  match room c with
  | Some r => truthy_string r
  | None => false
  end.

(** [set.add(id)] and [set.delete(id)] *)
Definition set_add (id : string) (s : list string) : list string :=
  if bool_decide (id ∈ s) then s else s ++ [id].

Definition set_delete (id : string) (s : list string) : list string :=
  filter (fun x => x ≠ id) s.

Inductive Kind : Type := offer | answer | ice_candidate | data_channel_message.

Section Payload.

(** The relayed payloads (session descriptions, ICE candidates, data-channel
    messages) are opaque to the broker. *)
Context {Payload : Type}.

Inductive Message : Type :=
  | registered (clientId : string) (t : ClientType)
  | peer_joined (clientId : string) (t : ClientType)
  | room_joined (roomId : string) (members : list (string * ClientType))
  | relayed (k : Kind) (fromId : string) (payload : Payload)
  | peer_left (clientId : string).

(** What a handler asks of socket.io, in source order: [socket.join(r)],
    [socket.leave(r)], [socket.emit(m)] (to the socket itself) and
    [socket.to(t).emit(m)] (to the sockets of socket.io room [t] other than
    the sender; every socket is in the room named by its own id). *)
Inductive Action : Type :=
  | socket_join (sid r : string)
  | socket_leave (sid r : string)
  | emit (sid : string) (m : Message)
  | emit_to (sid t : string) (m : Message).

Definition handleConnection (s : WebRTCSignaling) (sid : string) : WebRTCSignaling :=
  {| rooms := rooms s;
     clientMap := <[sid := mkClient None None]> (clientMap s) |}.

Definition handleRegister (s : WebRTCSignaling) (sid : string) (t : ClientType)
  : WebRTCSignaling * list Action :=
  match clientMap s !! sid with
  | Some client =>
      ({| rooms := rooms s;
          clientMap := <[sid := mkClient t (room client)]> (clientMap s) |},
       [emit sid (registered sid t)])
  | None => (s, [])
  end.

Definition removeFromRoom (rs : gmap string Room) (roomId clientId : string)
  : gmap string Room :=
  match rs !! roomId with
  | Some r =>
      let members := set_delete clientId (clients r) in
      if (length members =? 0)%nat then delete roomId rs
      else <[roomId := mkRoom members (created r)]> rs
  | None => rs
  end.

(** [c ? c.type : 'unknown'] *)
Definition type_of (cm : gmap string Client) (id : string) : ClientType :=
  match cm !! id with
  | Some c => type c
  | None => Some "unknown"
  end.

Definition handleJoinRoom (s : WebRTCSignaling) (sid roomId : string) (now : Z)
  : WebRTCSignaling * list Action :=
  match clientMap s !! sid with
  | None => (s, [])
  | Some client =>
      (* Leave current room if any *)
      let '(rooms1, leaving) :=
        match room client with
        | Some old =>
            if truthy_string old
            then (removeFromRoom (rooms s) old sid, [socket_leave sid old])
            else (rooms s, [])
        | None => (rooms s, [])
        end in
      (* Join new room *)
      let clients1 := <[sid := mkClient (type client) (Some roomId)]> (clientMap s) in
      (* Initialize room if it doesn't exist *)
      let rooms2 :=
        match rooms1 !! roomId with
        | Some _ => rooms1
        | None => <[roomId := mkRoom [] now]> rooms1
        end in
      let members :=
        match rooms2 !! roomId with
        | Some r => set_add sid (clients r)
        | None => [sid]
        end in
      let rooms3 :=
        match rooms2 !! roomId with
        | Some r => <[roomId := mkRoom members (created r)]> rooms2
        | None => rooms2
        end in
      (* Send current room state to the new client *)
      let roomClients :=
        map (fun id => (id, type_of clients1 id))
            (filter (fun id => id ≠ sid) members) in
      ({| rooms := rooms3; clientMap := clients1 |},
       leaving ++ [ socket_join sid roomId;
                 emit_to sid roomId (peer_joined sid (type client));
                 emit sid (room_joined roomId roomClients) ])
  end.

(** The body shared by [handleOffer], [handleAnswer], [handleIceCandidate]
    and [handleDataChannelMessage]. *)
Definition forward (k : Kind) (s : WebRTCSignaling) (sid targetId : string)
    (payload : Payload) : list Action :=
  match clientMap s !! sid with
  | Some client =>
      if has_room client
      then [emit_to sid targetId (relayed k sid payload)]
      else []
  | None => []
  end.

Definition handleOffer := forward offer.
Definition handleAnswer := forward answer.
Definition handleIceCandidate := forward ice_candidate.
Definition handleDataChannelMessage := forward data_channel_message.

Definition handleDisconnect (s : WebRTCSignaling) (sid : string)
  : WebRTCSignaling * list Action :=
  match clientMap s !! sid with
  | Some client =>
      let '(rooms1, acts) :=
        match room client with
        | Some r =>
            if truthy_string r
            then (removeFromRoom (rooms s) r sid, [emit_to sid r (peer_left sid)])
            else (rooms s, [])
        | None => (rooms s, [])
        end in
      ({| rooms := rooms1; clientMap := delete sid (clientMap s) |}, acts)
  | None => (s, [])
  end.

Record RoomInfo : Type := mkRoomInfo {
  info_roomId : string;
  info_clients : list (string * ClientType);
  info_created : Z
}.

(** [getRoomInfo]: [None] is the null returned for an unknown room. *)
Definition getRoomInfo (s : WebRTCSignaling) (roomId : string) : option RoomInfo :=
  match rooms s !! roomId with
  | None => None
  | Some r =>
      Some {| info_roomId := roomId;
              info_clients := map (fun id => (id, type_of (clientMap s) id)) (clients r);
              info_created := created r |}
  end.

Inductive Event : Type :=
  | Connect (sid : string)
  | Register (sid : string) (t : ClientType)
  | JoinRoom (sid roomId : string) (now : Z)
  | Signal (k : Kind) (sid targetId : string) (payload : Payload)
  | Disconnect (sid : string).

Definition step (s : WebRTCSignaling) (ev : Event) : WebRTCSignaling * list Action :=
  match ev with
  | Connect sid => (handleConnection s sid, [])
  | Register sid t => handleRegister s sid t
  | JoinRoom sid roomId now => handleJoinRoom s sid roomId now
  | Signal k sid targetId payload =>
      (s, match k with
          | offer => handleOffer s sid targetId payload
          | answer => handleAnswer s sid targetId payload
          | ice_candidate => handleIceCandidate s sid targetId payload
          | data_channel_message => handleDataChannelMessage s sid targetId payload
          end)
  | Disconnect sid => handleDisconnect s sid
  end.

Definition run (evs : list Event) : WebRTCSignaling :=
  fold_left (fun s ev => (step s ev).1) evs constructor.

(** The notifications of a departure among a handler's actions. *)
Definition is_peer_left (a : Action) : bool :=
  match a with
  | emit _ (peer_left _) | emit_to _ _ (peer_left _) => true
  | _ => false
  end.

End Payload.

(** No room of the map has an empty member set. *)
Definition rooms_nonempty (rs : gmap string Room) : Prop :=
  forall roomId r, rs !! roomId = Some r -> clients r <> [].

(** The rooms whose member set holds [sid]. *)
Definition member_of (s : WebRTCSignaling) (sid roomId : string) : Prop :=
  exists r, rooms s !! roomId = Some r /\ sid ∈ clients r.

End Signaling.

(** ** MetricsCollector: bandwidth and system samples, sequences of calls *)

Module Collector.
Import JS Metrics.

Definition with_bandwidth (m : MetricsCollector) (b : Bandwidth) : MetricsCollector :=
  {| frames := frames m;
     startTime := startTime m;
     lastResetTime := lastResetTime m;
     totalFrames := totalFrames m;
     processedFrames := processedFrames m;
     droppedFrames := droppedFrames m;
     latencies := latencies m;
     bandwidth := b;
     systemMetrics := systemMetrics m;
     maxFrameHistory := maxFrameHistory m;
     metricsWindow := metricsWindow m |}.

Definition with_systemMetrics (m : MetricsCollector) (s : SystemMetrics)
  : MetricsCollector :=
  {| frames := frames m;
     startTime := startTime m;
     lastResetTime := lastResetTime m;
     totalFrames := totalFrames m;
     processedFrames := processedFrames m;
     droppedFrames := droppedFrames m;
     latencies := latencies m;
     bandwidth := bandwidth m;
     systemMetrics := s;
     maxFrameHistory := maxFrameHistory m;
     metricsWindow := metricsWindow m |}.

Definition cleanupBandwidthData (m : MetricsCollector) (now : Z) : MetricsCollector :=
  let cutoffTime := now - metricsWindow m in
  with_bandwidth m
    {| uplink := filter (fun entry => cutoffTime < sample_timestamp entry)
                        (uplink (bandwidth m));
       downlink := filter (fun entry => cutoffTime < sample_timestamp entry)
                          (downlink (bandwidth m)) |}.

(** [recordBandwidth] reads the clock at [now]; [cleanupBandwidthData], which
    it calls last, reads it again at [now']. *)
Definition recordBandwidth (m : MetricsCollector) (up down : Q) (now now' : Z)
  : MetricsCollector :=
  cleanupBandwidthData
    (with_bandwidth m
       {| uplink := uplink (bandwidth m) ++ [mkSample up now];
          downlink := downlink (bandwidth m) ++ [mkSample down now] |})
    now'.

(** The [for] loop of [cleanupSystemMetrics], entered at index [i]: the index
    of the first timestamp newer than the cutoff, and 0 when there is none
    ([keepIndex] keeps its initial value). *)
Fixpoint keepIndex (cutoffTime : Z) (ts : list Z) (i : nat) : nat :=
  match ts with
  | [] => 0%nat
  | t :: r => if cutoffTime <? t then i else keepIndex cutoffTime r (S i)
  end.

Definition cleanupSystemMetrics (m : MetricsCollector) (now : Z) : MetricsCollector :=
  let cutoffTime := now - metricsWindow m in
  let k := keepIndex cutoffTime (system_timestamp (systemMetrics m)) 0 in
  with_systemMetrics m
    {| cpuUsage := drop k (cpuUsage (systemMetrics m));
       memoryUsage := drop k (memoryUsage (systemMetrics m));
       system_timestamp := drop k (system_timestamp (systemMetrics m)) |}.

(** [collectSystemMetrics]: [heapUsed] is [process.memoryUsage().heapUsed],
    [user] and [system] are the two fields of [process.cpuUsage()]; the clock
    is read at [now], and again at [now'] by [cleanupSystemMetrics]. *)
Definition collectSystemMetrics (m : MetricsCollector) (heapUsed user system : Q)
    (now now' : Z) : MetricsCollector :=
  let memoryUsageMB := (heapUsed / 1024 / 1024)%Q in
  let cpuPercent := ((user + system) / 1000000)%Q in
  cleanupSystemMetrics
    (with_systemMetrics m
       {| cpuUsage := cpuUsage (systemMetrics m) ++ [cpuPercent];
          memoryUsage := memoryUsage (systemMetrics m) ++ [memoryUsageMB];
          system_timestamp := system_timestamp (systemMetrics m) ++ [now] |})
    now'.

(** The calls a collector receives during its life. *)
Inductive Call : Type :=
  | CallRecordFrame (d : FrameData) (now : Z)
  | CallRecordDroppedFrame
  | CallRecordBandwidth (up down : Q) (now now' : Z)
  | CallCollectSystemMetrics (heapUsed user system : Q) (now now' : Z)
  | CallReset (now : Z).

Definition call (m : MetricsCollector) (c : Call) : MetricsCollector :=
  match c with
  | CallRecordFrame d now => recordFrame m d now
  | CallRecordDroppedFrame => recordDroppedFrame m
  | CallRecordBandwidth up down now now' => recordBandwidth m up down now now'
  | CallCollectSystemMetrics heapUsed user system now now' =>
      collectSystemMetrics m heapUsed user system now now'
  | CallReset now => reset m now
  end.

Definition run (t0 : Z) (cs : list Call) : MetricsCollector :=
  fold_left call cs (constructor t0).

(** What the collector keeps true between calls. *)
Record Inv (m : MetricsCollector) : Prop := {
  inv_config : maxFrameHistory m = 1000%nat /\ metricsWindow m = 30000;
  inv_counters : totalFrames m = (processedFrames m + droppedFrames m)%nat;
  inv_frames : (length (frames m) <= 1000)%nat
               /\ (length (frames m) <= processedFrames m)%nat;
  inv_latencies : (length (endToEnd (latencies m)) <= 1000)%nat
                  /\ length (network (latencies m)) = length (endToEnd (latencies m))
                  /\ length (inference (latencies m)) = length (endToEnd (latencies m))
                  /\ overlay (latencies m) = [];
  inv_bandwidth : sample_timestamp <$> uplink (bandwidth m)
                  = sample_timestamp <$> downlink (bandwidth m);
  inv_system : length (cpuUsage (systemMetrics m))
                 = length (system_timestamp (systemMetrics m))
               /\ length (memoryUsage (systemMetrics m))
                 = length (system_timestamp (systemMetrics m))
}.

(** The finite number a value stands for. *)
Definition finite (v : jsval) (q : Q) : Prop :=
  exists q', v = Num q' /\ (q' == q)%Q.

End Collector.

(** ** MetricsDisplay (client): frame history, latency statistics, FPS *)

Module Display.
Import JS.

(** The argument of [recordFrame]; [None] is an absent (undefined) field. *)
Record FrameResult : Type := mkFrameResult {
  frameId : string;
  captureTs : Z;
  recvTs : Z;
  inferenceTs : Z;
  endToEndLatency : option Q;
  processingTime : option Q;
  detections : option (list Metrics.Detection)
}.

Record FrameData : Type := mkFrameData {
  timestamp : Z;
  frame : FrameResult;
  detectionCount : nat
}.

(** [this.metrics.bandwidth] and [this.metrics.system] hold what the server
    last sent and are read only by the display; they are left out. *)
Record MetricsDisplay : Type := mkDisplay {
  frames : list FrameData;
  latencies : list Q;
  fps : nat;
  startTime : Z;
  lastUpdateTime : Z;
  frameCount : nat;
  maxHistorySize : nat
}.

Definition constructor (now : Z) : MetricsDisplay :=
  {| frames := [];
     latencies := [];
     fps := 0;
     startTime := now;
     lastUpdateTime := now;
     frameCount := 0;
     maxHistorySize := 100 |}.

(** [if (frameResult.endToEndLatency)]: an absent latency and 0 are falsy. *)
Definition latency_sample (r : FrameResult) : list Q :=
  match endToEndLatency r with
  | Some q => if Qeq_bool q 0 then [] else [q]
  | None => []
  end.

(** [if (arr.length > this.maxHistorySize) arr.shift()] *)
Definition shift_if_over {A} (limit : nat) (arr : list A) : list A :=
  if (limit <? length arr)%nat then tail arr else arr.

Definition updateFPS (d : MetricsDisplay) (now : Z) : MetricsDisplay :=
  if 1000 <=? now - lastUpdateTime d then
    {| frames := frames d;
       latencies := latencies d;
       fps := length (filter (fun f => now - timestamp f <= 1000) (frames d));
       startTime := startTime d;
       lastUpdateTime := now;
       frameCount := frameCount d;
       maxHistorySize := maxHistorySize d |}
  else d.

(** [recordFrame] reads the clock at [now]; [updateFPS], which it calls last,
    reads it again at [now']. *)
Definition recordFrame (d : MetricsDisplay) (r : FrameResult) (now now' : Z)
  : MetricsDisplay :=
  let frameData :=
    {| timestamp := now;
       frame := r;
       detectionCount := match detections r with
                         | Some ds => length ds
                         | None => 0%nat
                         end |} in
  updateFPS
    {| frames := shift_if_over (maxHistorySize d) (frames d ++ [frameData]);
       latencies := shift_if_over (maxHistorySize d) (latencies d ++ latency_sample r);
       fps := fps d;
       startTime := startTime d;
       lastUpdateTime := lastUpdateTime d;
       frameCount := S (frameCount d);
       maxHistorySize := maxHistorySize d |}
    now'.

Definition reset (d : MetricsDisplay) (now : Z) : MetricsDisplay :=
  {| frames := [];
     latencies := [];
     fps := 0;
     startTime := now;
     lastUpdateTime := now;
     frameCount := 0;
     maxHistorySize := maxHistorySize d |}.

(** The sum and the quotient are exact here too; the code rounds each
    addition and the division to a double. *)
Definition calculateAverage (array : list Q) : jsval :=
  match array with
  | [] => Num 0
  | _ => Num (Metrics.sum array / inject_Z (Z.of_nat (length array)))
  end.

Record LatencyStats : Type := mkLatencyStats {
  median : jsval;
  p95 : jsval;
  average : jsval;
  min : jsval;
  max : jsval
}.

Definition getLatencyStats (d : MetricsDisplay) : LatencyStats :=
  match latencies d with
  | [] => mkLatencyStats (Num 0) (Num 0) (Num 0) (Num 0) (Num 0)
  | _ =>
      let sorted := Metrics.sort_asc (latencies d) in
      {| median := MetricsDisplay.calculatePercentile sorted 50;
         p95 := MetricsDisplay.calculatePercentile sorted 95;
         average := calculateAverage sorted;
         min := Math_min sorted;
         max := Math_max sorted |}
  end.

Inductive Call : Type :=
  | CallRecordFrame (r : FrameResult) (now now' : Z)
  | CallReset (now : Z).

Definition call (d : MetricsDisplay) (c : Call) : MetricsDisplay :=
  match c with
  | CallRecordFrame r now now' => recordFrame d r now now'
  | CallReset now => reset d now
  end.

Definition run (t0 : Z) (cs : list Call) : MetricsDisplay :=
  fold_left call cs (constructor t0).

(** What the display keeps true between calls. *)
Definition display_inv (d : MetricsDisplay) : Prop :=
  maxHistorySize d = 100%nat
  /\ (length (frames d) <= 100)%nat
  /\ (length (latencies d) <= 100)%nat
  /\ (fps d <= 100)%nat
  /\ (length (frames d) <= frameCount d)%nat
  /\ (length (latencies d) <= frameCount d)%nat
  /\ Forall (fun q => ~ (q == 0)%Q) (latencies d).

End Display.

(** ** ObjectDetectionService: what a trace says about promises *)

Module Promises.
Import DetectionService.

(** The promises settled in a trace, in order. *)
Definition settled (tr : list Obs) : list nat :=
  omap (fun o => match o with Settled p _ => Some p | _ => None end) tr.

(** The completions of [n] awaited inferences, one after the other, with the
    given behaviour of the collaborator for each. *)
Definition completions (outcomes : list (Collaborator * (nat -> Q))) : list Event :=
  map (fun o => InferenceEnds 0 o.1 o.2) outcomes.

(** [arr.slice(-k)]-like: the last [k] elements of a list. *)
Definition lastn {A} (k : nat) (l : list A) : list A :=
  drop (length l - k) l.

(** The entries that [detectServerSide] builds for the images of a burst,
    the first promise being [p]. *)
Fixpoint entries (p : nat) (imgs : list Image) : list Entry :=
  match imgs with
  | [] => []
  | img :: r => mkEntry img p :: entries (S p) r
  end.

End Promises.

(** ** WebRTCSignaling: counters and well-formed traffic *)

Module Broker.
Import JS Signaling.

Definition getClientCount (s : WebRTCSignaling) : nat := size (clientMap s).

Definition getRoomCount (s : WebRTCSignaling) : nat := size (rooms s).

Section Payload.
Context {Payload : Type}.

(** Traffic as socket.io and the repository's own clients produce it: a
    connection carries a socket id that is not in use, and a room id is not
    the empty string. *)
Definition acceptable (s : WebRTCSignaling) (ev : Event (Payload := Payload)) : Prop :=
  match ev with
  | Connect sid => clientMap s !! sid = None
  | JoinRoom _ roomId _ => roomId <> EmptyString
  | _ => True
  end.

Fixpoint well_formed (s : WebRTCSignaling) (evs : list (Event (Payload := Payload)))
  : Prop :=
  match evs with
  | [] => True
  | ev :: r => acceptable s ev /\ well_formed (step s ev).1 r
  end.

Definition run_from (s : WebRTCSignaling) (evs : list (Event (Payload := Payload)))
  : WebRTCSignaling :=
  fold_left (fun s ev => (step s ev).1) evs s.

(** The event comes from the socket [sid]. *)
Definition sender (ev : Event (Payload := Payload)) : string :=
  match ev with
  | Connect sid | Register sid _ | JoinRoom sid _ _
  | Signal _ sid _ _ | Disconnect sid => sid
  end.

End Payload.

(** Every client that records a room is a member of that room. *)
Definition clients_in_rooms (s : WebRTCSignaling) : Prop :=
  forall sid c r, clientMap s !! sid = Some c -> room c = Some r ->
                  member_of s sid r.

(** Every member of a room is a connected client that records that room. *)
Definition members_are_clients (s : WebRTCSignaling) : Prop :=
  forall sid r, member_of s sid r ->
                exists c, clientMap s !! sid = Some c /\ room c = Some r.

(** No client records the empty room id. *)
Definition rooms_truthy (s : WebRTCSignaling) : Prop :=
  forall sid c r, clientMap s !! sid = Some c -> room c = Some r -> r <> EmptyString.

End Broker.

(** ** WebRTCVLMServer: requests and replies over a run *)

Module Replies.
Import JS DetectionService Promises Server.

(** The detection results among the replies of the server, in order. *)
Definition results (rs : list Reply) : list Metrics.FrameData :=
  omap (fun r => match r with DetectionResult d => Some d | _ => None end) rs.

(** The request a result answers, read off its fields. *)
Definition request_of (d : Metrics.FrameData) : Request :=
  mkRequest (Metrics.frame_id d) (Metrics.capture_ts d) (Metrics.recv_ts d).

(** The detect-frame requests among the events, in order. *)
Definition requests (evs : list Server.Event) : list Request :=
  omap (fun ev => match ev with
                  | DetectFrame _ fid cts now _ => Some (mkRequest fid cts now)
                  | _ => None
                  end) evs.

(** Run the server, collecting its replies. *)
Definition run_replies (srv : WebRTCVLMServer) (evs : list Server.Event)
  : WebRTCVLMServer * list Reply :=
  fold_left (fun acc ev => let '(s, rs) := Server.step acc.1 ev in (s, acc.2 ++ rs))
            evs (srv, []).

(** The entries whose promise is still to be settled, oldest first. *)
Definition unsettled (w : World) : list Entry := activations w ++ queue_of w.

(** The state of the drain loop, without reference to a trace. *)
Definition pipeline_ok (w : World) : Prop :=
  match activations w with
  | [] => isProcessing (service w) = false /\ queue_of w = []
  | [_] => isProcessing (service w) = true
  | _ => False
  end
  /\ sublist (promise <$> unsettled w) (seq 0 (nextPromise w)).

(** Every unsettled entry has its handler waiting, and the results sent so
    far followed by the waiting requests are a subsequence of the requests
    received. *)
Definition server_ok (srv : WebRTCVLMServer) (replies : list Reply)
    (reqs : list Request) : Prop :=
  pipeline_ok (detectionService srv)
  /\ (mode (service (detectionService srv)) = wasm
      \/ initialized (service (detectionService srv)) = false ->
      unsettled (detectionService srv) = [])
  /\ exists waiting,
       Forall2 (fun e q => awaiting srv !! promise e = Some q)
               (unsettled (detectionService srv)) waiting
       /\ sublist ((request_of <$> results replies) ++ waiting) reqs.

(** The service is initialised, and without a model session it is in WASM
    mode with no inference in flight. *)
Definition session_ready (w : World) : Prop :=
  initialized (service w) = true
  /\ (session (service w) = None -> mode (service w) = wasm /\ activations w = []).

End Replies.

(** * Proofs *)

(** ** Metrics *)

Section MetricsProofs.
Import JS Metrics.
Local Open Scope Z_scope.

Lemma insert_asc_perm x l : insert_asc x l ≡ₚ x :: l.
Proof.
  induction l as [|y l IH]; simpl; [done|].
  destruct (Qle_bool x y); [done|]. rewrite IH. apply Permutation_swap.
Qed.

Lemma sort_asc_perm l : sort_asc l ≡ₚ l.
Proof.
  induction l as [|x l IH]; simpl; [done|].
  rewrite insert_asc_perm. by rewrite IH.
Qed.

Lemma insert_asc_hd x y l :
  (y <= x)%Q -> HdRel Qle y l -> HdRel Qle y (insert_asc x l).
Proof.
  intros Hyx Hl. destruct l as [|z l]; simpl; [by constructor|].
  destruct (Qle_bool x z); constructor; [done|]. by inversion Hl.
Qed.

Lemma insert_asc_sorted x l : Sorted Qle l -> Sorted Qle (insert_asc x l).
Proof.
  induction 1 as [|y l Hs IH Hhd]; simpl; [by repeat constructor|].
  destruct (Qle_bool x y) eqn:Hxy.
  - apply Qle_bool_iff in Hxy. by repeat constructor.
  - constructor; [done|]. apply insert_asc_hd; [|done].
    apply Qlt_le_weak, Qnot_le_lt. intros H. apply Qle_bool_iff in H. congruence.
Qed.

Lemma sort_asc_sorted l : StronglySorted Qle (sort_asc l).
Proof.
  apply Sorted_StronglySorted; [exact Qle_trans|].
  induction l as [|x l IH]; simpl; [constructor|]. by apply insert_asc_sorted.
Qed.

Lemma sort_asc_length l : length (sort_asc l) = length l.
Proof. apply Permutation_length, sort_asc_perm. Qed.

(** For a percentile in (0,100] and a non-empty series the nearest-rank index
    lies within the array, so the clamp [Math.max(0, index)] leaves it alone. *)
Lemma percentile_index_range (p : Q) (n : nat) :
  (0 < p)%Q -> (p <= 100)%Q -> (0 < n)%nat ->
  0 <= percentile_index p n < Z.of_nat n.
Proof.
  intros Hp Hp' Hn. unfold percentile_index.
  set (q := (p / 100 * inject_Z (Z.of_nat n))%Q).
  assert (Hn' : (0 < inject_Z (Z.of_nat n))%Q).
  { change 0%Q with (inject_Z 0). rewrite <- Zlt_Qlt. lia. }
  assert (Hq : (0 < q)%Q).
  { unfold q. apply Qmult_lt_0_compat; [|done].
    apply Qlt_shift_div_l; [reflexivity | lra]. }
  assert (Hq' : (q <= inject_Z (Z.of_nat n))%Q).
  { unfold q. rewrite <- (Qmult_1_l (inject_Z (Z.of_nat n))) at 2.
    apply Qmult_le_compat_r; [|by apply Qlt_le_weak].
    apply Qle_shift_div_r; [reflexivity | lra]. }
  pose proof (Qle_ceiling q) as H1.
  pose proof (Qceiling_resp_le _ _ Hq') as H2. rewrite Qceiling_Z in H2.
  assert (0 < Qceiling q).
  { rewrite Zlt_Qlt. eapply Qlt_le_trans; [exact Hq | exact H1]. }
  lia.
Qed.

(** Nearest rank in exact arithmetic.  For every non-empty series and every
    percentile p with 0 < p <= 100, the exact index ceil(p/100 * n) - 1 lies
    in [0, n-1], and [Metrics.calculatePercentile] returns the element of the
    sorted series at that index. *)
Lemma nearest_rank_exact (values : list Q) (p : Q) :
  values <> [] -> (0 < p)%Q -> (p <= 100)%Q ->
  let sorted := sort_asc values in
  let i := Qceiling (p / 100 * inject_Z (Z.of_nat (length values))) - 1 in
  StronglySorted Qle sorted /\ sorted ≡ₚ values
  /\ 0 <= i < Z.of_nat (length values)
  /\ exists v, sorted !! Z.to_nat i = Some v
               /\ calculatePercentile values p = Num v
               /\ MetricsDisplay.calculatePercentile sorted p = Num v.
Proof.
  intros Hne Hp Hp' sorted i.
  assert (Hn : (0 < length values)%nat) by (destruct values; [done | simpl; lia]).
  pose proof (percentile_index_range p (length values) Hp Hp' Hn) as Hi.
  unfold percentile_index in Hi. fold i in Hi.
  split; [apply sort_asc_sorted|]. split; [apply sort_asc_perm|]. split; [done|].
  assert (Hlen : length sorted = length values) by apply sort_asc_length.
  destruct (lookup_lt_is_Some_2 sorted (Z.to_nat i)) as [v Hv]; [lia|].
  exists v. split; [done|].
  assert (Hs : sorted <> []) by (intros E; rewrite E in Hlen; simpl in Hlen; lia).
  split.
  - unfold calculatePercentile. destruct values; [done|].
    fold sorted. unfold percentile_index. rewrite Hlen. fold i.
    rewrite Z.max_r by lia. unfold index. by rewrite Hv.
  - unfold MetricsDisplay.calculatePercentile. destruct sorted eqn:E; [done|].
    rewrite <- E in *. unfold percentile_index. rewrite Hlen. fold i.
    rewrite Z.max_r by lia. unfold index. by rewrite Hv.
Qed.

(** The index of the percentiles the collector and the display ask for (50,
    95 and 99): on every series of 1 to 1001 values the index computed in
    doubles is the exact one. *)
Lemma double_index_exact (n : nat) :
  (1 <= n <= 1001)%nat ->
  Double.percentile_index (Double.number 50) n = Double.Int (percentile_index 50 n)
  /\ Double.percentile_index (Double.number 95) n = Double.Int (percentile_index 95 n)
  /\ Double.percentile_index (Double.number 99) n = Double.Int (percentile_index 99 n).
Proof.
  intros Hn.
  set (agree := fun (p : Z) (k : nat) =>
         match Double.percentile_index (Double.number p) k with
         | Double.Int z => z =? percentile_index (inject_Z p) k
         | _ => false
         end).
  assert (H : forallb (fun k => agree 50 k && agree 95 k && agree 99 k) (seq 1 1001) = true)
    by (vm_compute; reflexivity).
  rewrite forallb_forall in H. specialize (H n).
  rewrite in_seq in H. specialize (H ltac:(lia)).
  apply andb_prop in H as [H H99]. apply andb_prop in H as [H50 H95].
  unfold agree in *.
  change (inject_Z 50) with 50%Q in H50.
  change (inject_Z 95) with 95%Q in H95.
  change (inject_Z 99) with 99%Q in H99.
  destruct (Double.percentile_index (Double.number 50) n); try done.
  destruct (Double.percentile_index (Double.number 95) n); try done.
  destruct (Double.percentile_index (Double.number 99) n); try done.
  apply Z.eqb_eq in H50, H95, H99. by subst.
Qed.


(** C4. The snapshot of an aggregator whose series are all empty.  Every
    median, p95, p99, average and current field is 0, but the minimum of the
    end-to-end latency is +Infinity and every maximum (end-to-end latency,
    uplink, downlink, CPU, memory) is -Infinity: [Math.min()] and [Math.max()]
    of no argument are infinite, and an infinity is truthy, so [|| 0] keeps
    it. *)
Theorem C4_empty_series_snapshot (m : MetricsCollector) (now : Z) :
  all_series_empty m ->
  statistic_fields (getMetrics m now) =
    [ ("latency.endToEnd.median", Num 0); ("latency.endToEnd.p95", Num 0);
      ("latency.endToEnd.p99", Num 0); ("latency.endToEnd.average", Num 0);
      ("latency.endToEnd.min", Infinity);
      ("latency.endToEnd.max", NegInfinity);
      ("latency.network.median", Num 0); ("latency.network.p95", Num 0);
      ("latency.network.average", Num 0);
      ("latency.inference.median", Num 0); ("latency.inference.p95", Num 0);
      ("latency.inference.average", Num 0);
      ("bandwidth.uplink.current", Num 0); ("bandwidth.uplink.average", Num 0);
      ("bandwidth.uplink.max", NegInfinity);
      ("bandwidth.downlink.current", Num 0); ("bandwidth.downlink.average", Num 0);
      ("bandwidth.downlink.max", NegInfinity);
      ("system.cpu.current", Num 0); ("system.cpu.average", Num 0);
      ("system.cpu.max", NegInfinity);
      ("system.memory.current", Num 0); ("system.memory.average", Num 0);
      ("system.memory.max", NegInfinity) ].
Proof.
  destruct m as [fr st lr tf pf df [e2e net inf ov] [up down] [cpu mem ts] mh mw].
  unfold all_series_empty. simpl.
  intros (-> & -> & -> & -> & -> & -> & ->). reflexivity.
Qed.

Lemma C4_empty_series_snapshot_witness :
  let m := reset (constructor 0) 1 in
  all_series_empty m
  /\ statistic_fields (getMetrics m 2) !! 4%nat = Some ("latency.endToEnd.min", Infinity)
  /\ statistic_fields (getMetrics m 2) !! 5%nat = Some ("latency.endToEnd.max", NegInfinity).
Proof.
  intros m.
  assert (H : all_series_empty m) by (repeat split).
  split; [exact H|].
  rewrite (C4_empty_series_snapshot m 2 H). split; reflexivity.
Defined.

End MetricsProofs.

(** ** The detection pipeline *)

Section PipelineProofs.
Import JS DetectionService.
Local Open Scope nat_scope.

Lemma inv_boot b : Inv (boot b) [].
Proof.
  destruct b as [m|m l]; [|destruct m, l]; split; simpl; auto; try lia; constructor.
Qed.

Lemma enqueued_app t1 t2 : enqueued (t1 ++ t2) = enqueued t1 ++ enqueued t2.
Proof. apply omap_app. Qed.

Lemma dispatched_app t1 t2 : dispatched (t1 ++ t2) = dispatched t1 ++ dispatched t2.
Proof. apply omap_app. Qed.

Lemma tail_sublist {A} (l : list A) : sublist (tail l) l.
Proof. destruct l; simpl; [constructor | by apply sublist_cons]. Qed.

Lemma drop_oldest_length s :
  length (processingQueue s) <= maxQueueSize s -> 1 <= maxQueueSize s ->
  length (drop_oldest_if_full s ++ [mkEntry "x" 0]) <= maxQueueSize s.
Proof.
  intros H1 H2. unfold drop_oldest_if_full. rewrite length_app. simpl.
  destruct (Nat.leb_spec (maxQueueSize s) (length (processingQueue s))).
  - destruct (processingQueue s); simpl in *; lia.
  - lia.
Qed.

Lemma drop_oldest_sublist s : sublist (drop_oldest_if_full s) (processingQueue s).
Proof.
  unfold drop_oldest_if_full.
  destruct (maxQueueSize s <=? length (processingQueue s)); [apply tail_sublist | done].
Qed.

(** What [runInference] logs contains no queue operation, and the settlement
    that follows it closes the entry in flight. *)
Lemma runInference_trace s c rnd r logged tr p :
  runInference s c rnd = (r, logged) ->
  fold_left track tr (Some None) = Some (Some p) ->
  fold_left track (tr ++ logged ++ [Settled p r]) (Some None) = Some None
  /\ enqueued logged = [] /\ dispatched logged = [].
Proof.
  unfold runInference. intros Hrun Htr.
  destruct (session s), c; inversion Hrun; subst; simpl;
    rewrite fold_left_app, Htr; simpl; rewrite Nat.eqb_refl; auto.
Qed.

Lemma inv_detect w tr img :
  Inv w tr -> Inv (detectServerSide w img).1 (tr ++ (detectServerSide w img).2).
Proof.
  intros [Hmax Hlen Hflag Htr Henq Hfifo].
  pose proof (drop_oldest_length (service w)) as Hdl.
  pose proof (drop_oldest_sublist (service w)) as Hds.
  unfold detectServerSide, processQueue.
  destruct w as [s acts np]. unfold queue_of in *.
  cbn [service activations nextPromise] in *.
  set (e := mkEntry img np).
  destruct acts as [|a [|a' acts]]; [| |done].
  - destruct Hflag as [Hip Hq].
    assert (Hd : drop_oldest_if_full s = []).
    { unfold drop_oldest_if_full. rewrite Hq, Hmax. reflexivity. }
    rewrite Hd. destruct s as [md ss ini mx q ip]. simpl in *. subst.
    split; simpl; auto; try lia.
    + rewrite fold_left_app, Htr. reflexivity.
    + rewrite enqueued_app, fmap_app, Henq. symmetry. apply (seq_S np 0).
    + rewrite enqueued_app, dispatched_app. simpl.
      rewrite app_nil_r in *. by apply sublist_app.
  - destruct s as [md ss ini mx q ip]. cbn in Hflag, Hmax, Hlen, Hdl, Hds, Hfifo. subst ip.
    cbn [with_queue isProcessing orb fst snd mode session initialized maxQueueSize processingQueue].
    split; unfold queue_of; cbn [service activations nextPromise with_queue maxQueueSize processingQueue isProcessing]; auto.
    + rewrite length_app in *. simpl in *. lia.
    + rewrite fold_left_app, Htr. reflexivity.
    + rewrite enqueued_app, fmap_app, Henq, seq_S. reflexivity.
    + rewrite enqueued_app, dispatched_app. simpl.
      rewrite app_nil_r, app_assoc. apply sublist_app; [|done].
      etrans; [|exact Hfifo]. by apply sublist_app.
Qed.

Lemma inv_settle w tr k c rnd :
  Inv w tr -> Inv (settle w k c rnd).1 (tr ++ (settle w k c rnd).2).
Proof.
  intros [Hmax Hlen Hflag Htr Henq Hfifo].
  unfold settle.
  destruct w as [s acts np]. unfold queue_of in *.
  cbn [service activations nextPromise] in *.
  destruct acts as [|a [|a' acts]]; [| |done].
  - simpl. rewrite app_nil_r. by split.
  - destruct k as [|k]; simpl; [|rewrite app_nil_r; by split].
    destruct (runInference s c rnd) as [r logged] eqn:Hrun.
    destruct (runInference_trace _ _ _ _ _ _ _ Hrun Htr) as (Hl1 & Hl2 & Hl3).
    unfold loop. cbn [service activations nextPromise].
    destruct s as [md ss ini mx q ip]. cbn in Hflag, Hmax, Hlen, Hfifo. subst ip.
    cbn [processingQueue].
    destruct q as [|e q]; cbn [fst snd].
    + split; unfold queue_of; simpl; auto.
      * rewrite !enqueued_app, Hl2. simpl. by rewrite app_nil_r.
      * rewrite !enqueued_app, !dispatched_app, Hl2, Hl3.
        simpl. by rewrite !app_nil_r in *.
    + split; unfold queue_of; simpl; auto.
      * simpl in Hlen. lia.
      * replace (tr ++ logged ++ [Settled (promise a) r; Dispatched e])
          with ((tr ++ logged ++ [Settled (promise a) r]) ++ [Dispatched e])
          by (rewrite <- !app_assoc; reflexivity).
        rewrite fold_left_app, Hl1. reflexivity.
      * rewrite !enqueued_app, Hl2. simpl. by rewrite app_nil_r.
      * rewrite !enqueued_app, !dispatched_app, Hl2, Hl3.
        simpl. rewrite !app_nil_r. by rewrite <- app_assoc.
Qed.

Lemma inv_step w tr ev :
  Inv w tr -> Inv (step w ev).1 (tr ++ (step w ev).2).
Proof. destruct ev; [apply inv_detect | apply inv_settle]. Qed.

Lemma run_from_snoc w evs ev :
  run_from w (evs ++ [ev]) =
  let '(w', obs) := step (run_from w evs).1 ev in (w', (run_from w evs).2 ++ obs).
Proof. unfold run_from. rewrite fold_left_app. reflexivity. Qed.

Lemma inv_run b evs : Inv (run b evs).1 (run b evs).2.
Proof.
  unfold run. induction evs as [|ev evs IH] using rev_ind.
  - apply inv_boot.
  - rewrite run_from_snoc.
    pose proof (inv_step _ _ ev IH) as H.
    destruct (step (run_from (boot b) evs).1 ev). exact H.
Qed.


Lemma before_omap {A B} (f : A -> option B) (x y : A) (a b : B) (l : list A) :
  f x = Some a -> f y = Some b -> before x y l -> before a b (omap f l).
Proof.
  intros Hx Hy (l1 & l2 & l3 & ->).
  exists (omap f l1), (omap f l2), (omap f l3).
  rewrite omap_app. simpl. rewrite Hx, omap_app. simpl. by rewrite Hy.
Qed.

Lemma omap_split {A B} (f : A -> option B) (l : list A) (k1 k2 : list B) (b : B) :
  omap f l = k1 ++ b :: k2 ->
  exists l1 x l2, l = l1 ++ x :: l2 /\ f x = Some b /\ omap f l1 = k1 /\ omap f l2 = k2.
Proof.
  revert k1. induction l as [|y l IH]; intros k1 H; simpl in H.
  - by destruct k1.
  - destruct (f y) as [c|] eqn:Hy.
    + destruct k1 as [|c' k1]; simpl in H; injection H as Hc Hl.
      * subst c. exists [], y, l. auto.
      * subst c'. destruct (IH _ Hl) as (l1 & x & l2 & -> & Hx & <- & <-).
        exists (y :: l1), x, l2. simpl. rewrite Hy. auto.
    + destruct (IH _ H) as (l1 & x & l2 & -> & Hx & <- & <-).
      exists (y :: l1), x, l2. simpl. rewrite Hy. auto.
Qed.

Lemma omap_before {A B} (f : A -> option B) (a b : B) (l : list A) :
  before a b (omap f l) ->
  exists x y, f x = Some a /\ f y = Some b /\ before x y l.
Proof.
  intros (k1 & k2 & k3 & H).
  destruct (omap_split _ _ _ _ _ H) as (l1 & x & l' & -> & Hx & H1 & H2).
  destruct (omap_split _ _ _ _ _ H2) as (l2 & y & l3 & -> & Hy & H3 & H4).
  exists x, y. repeat split; auto. by exists l1, l2, l3.
Qed.

Lemma before_sublist {A} (x y : A) (l k : list A) :
  sublist l k -> before x y l -> before x y k.
Proof.
  intros Hs (l1 & l2 & l3 & ->).
  apply sublist_app_l in Hs as (k1 & k' & -> & _ & Hs).
  apply sublist_cons_l in Hs as (k2 & k'' & -> & Hs).
  apply sublist_app_l in Hs as (k3 & k4 & -> & _ & Hs).
  apply sublist_cons_l in Hs as (k5 & k6 & -> & _).
  exists (k1 ++ k2), (k3 ++ k5), k6. by rewrite <- !app_assoc.
Qed.

Lemma before_seq (x y n : nat) : before x y (seq 0 n) -> x < y.
Proof.
  intros (l1 & l2 & l3 & H).
  assert (Hx : seq 0 n !! length l1 = Some x).
  { rewrite H. by rewrite list_lookup_middle. }
  assert (Hy : seq 0 n !! (length (l1 ++ x :: l2)) = Some y).
  { rewrite H.
    replace (l1 ++ x :: l2 ++ y :: l3) with ((l1 ++ x :: l2) ++ y :: l3)
      by (by rewrite <- app_assoc).
    by rewrite list_lookup_middle. }
  apply lookup_seq in Hx as [-> _]. apply lookup_seq in Hy as [-> _].
  rewrite length_app. simpl. lia.
Qed.

Lemma before_fmap {A B} (f : A -> B) (x y : A) (l : list A) :
  before x y l -> before (f x) (f y) (f <$> l).
Proof.
  intros (l1 & l2 & l3 & ->). exists (f <$> l1), (f <$> l2), (f <$> l3).
  by rewrite fmap_app, fmap_cons, fmap_app, fmap_cons.
Qed.

(** Entries are admitted in the order of their promise numbers. *)
Lemma enqueued_order w tr a c :
  Inv w tr -> before a c (enqueued tr) -> promise a < promise c.
Proof.
  intros HI Hb. apply (before_fmap promise) in Hb.
  rewrite (inv_enq _ _ HI) in Hb. by apply before_seq in Hb.
Qed.

Lemma dispatched_sublist w tr : Inv w tr -> sublist (dispatched tr) (enqueued tr).
Proof.
  intros HI. etrans; [|apply (inv_fifo _ _ HI)]. by apply sublist_inserts_r.
Qed.

Lemma elem_of_before_or {A} (x y : A) (l : list A) :
  x ∈ l -> y ∈ l -> x = y \/ before x y l \/ before y x l.
Proof.
  intros Hx Hy. apply list_elem_of_split in Hx as (l1 & l2 & ->).
  apply elem_of_app in Hy as [Hy|Hy].
  - apply list_elem_of_split in Hy as (k1 & k2 & ->).
    right; right. exists k1, k2, l2. by rewrite <- app_assoc.
  - apply elem_of_cons in Hy as [->|Hy]; [by left|].
    apply list_elem_of_split in Hy as (k1 & k2 & ->).
    right; left. by exists l1, k1, k2.
Qed.

Lemma fifo w tr a c :
  Inv w tr ->
  before (Enqueued a) (Enqueued c) tr ->
  In (Dispatched a) tr -> In (Dispatched c) tr ->
  before (Dispatched a) (Dispatched c) tr.
Proof.
  intros HI Hb Ha Hc.
  assert (Hlt : promise a < promise c).
  { eapply enqueued_order; [exact HI|].
    eapply (before_omap _ (Enqueued a) (Enqueued c)); eauto. }
  assert (Hda : a ∈ dispatched tr).
  { apply list_elem_of_omap. exists (Dispatched a). split; [by apply list_elem_of_In|done]. }
  assert (Hdc : c ∈ dispatched tr).
  { apply list_elem_of_omap. exists (Dispatched c). split; [by apply list_elem_of_In|done]. }
  destruct (elem_of_before_or _ _ _ Hda Hdc) as [->|[H|H]]; [lia| |].
  - apply omap_before in H as (x & y & Hx & Hy & H).
    destruct x; try discriminate. destruct y; try discriminate.
    by inversion Hx; inversion Hy; subst.
  - apply (before_sublist _ _ _ _ (dispatched_sublist _ _ HI)) in H.
    pose proof (enqueued_order _ _ _ _ HI H). lia.
Qed.

Lemma full_queue_is_busy w tr :
  Inv w tr -> queue_of w <> [] -> isProcessing (service w) = true.
Proof.
  intros [_ _ Hflag _ _ _] Hq.
  destruct (activations w) as [|a [|a' l]]; [by destruct Hflag| done | done].
Qed.

Lemma detect_when_busy w img :
  isProcessing (service w) = true ->
  queue_of (detectServerSide w img).1 =
    drop_oldest_if_full (service w) ++ [mkEntry img (nextPromise w)].
Proof.
  intros Hb. unfold detectServerSide, processQueue. simpl. rewrite Hb. reflexivity.
Qed.

(** C1. Admission bound.  Whatever detect calls and inference completions a
    freshly booted service has seen, maxQueueSize is 10 and the processing
    queue holds at most maxQueueSize entries.  The guard of [detectServerSide]
    acts before the push: the queue it leaves is strictly shorter than
    maxQueueSize, and when the queue was full the call removes the oldest
    queued entry, appends the new one and leaves the queue exactly full. *)
Theorem C1_queue_depth_bounded (b : Boot) (evs : list Event) :
  let w := (run b evs).1 in
  maxQueueSize (service w) = 10
  /\ length (queue_of w) <= maxQueueSize (service w)
  /\ forall img,
       length (drop_oldest_if_full (service w)) < maxQueueSize (service w)
       /\ (maxQueueSize (service w) <= length (queue_of w) ->
           queue_of (detectServerSide w img).1
             = tail (queue_of w) ++ [mkEntry img (nextPromise w)]
           /\ length (queue_of (detectServerSide w img).1) = maxQueueSize (service w)).
Proof.
  intros w. pose proof (inv_run b evs) as HI. fold w in HI.
  pose proof (inv_max _ _ HI) as Hmax. pose proof (inv_len _ _ HI) as Hlen.
  rewrite Hmax. split; [done|]. split; [done|]. intros img.
  unfold queue_of in *. split.
  - unfold drop_oldest_if_full. rewrite Hmax.
    destruct (Nat.leb_spec 10 (length (processingQueue (service w)))); [|lia].
    destruct (processingQueue (service w)); simpl in *; lia.
  - intros Hfull.
    assert (Hne : queue_of w <> []).
    { unfold queue_of. destruct (processingQueue (service w)); [simpl in Hfull; lia | done]. }
    pose proof (detect_when_busy w img (full_queue_is_busy _ _ HI Hne)) as Hq.
    unfold queue_of in Hq. rewrite Hq. unfold drop_oldest_if_full. rewrite Hmax.
    destruct (Nat.leb_spec 10 (length (processingQueue (service w)))); [|lia].
    split; [done|]. rewrite length_app. simpl.
    destruct (processingQueue (service w)); simpl in *; lia.
Qed.

Lemma C1_queue_depth_bounded_witness :
  let w := (run (Initialized server true) (replicate 11 (Detect "frame"))).1 in
  maxQueueSize (service w) <= length (queue_of w)
  /\ queue_of (detectServerSide w "late").1 = tail (queue_of w) ++ [mkEntry "late" 11].
Proof.
  intros w.
  assert (H : maxQueueSize (service w) <= length (queue_of w)) by (vm_compute; lia).
  split; [exact H|].
  exact (proj1 (proj2 (proj2 (proj2
    (C1_queue_depth_bounded (Initialized server true) (replicate 11 (Detect "frame"))))
    "late") H)).
Defined.

(** C6. Serial FIFO drain.  In every run at most one activation of
    [processQueue] is suspended on an inference; in the observed trace an
    entry is dispatched only when no other is in flight, and each settlement
    is that of the entry in flight; the dispatched entries are a subsequence
    of the enqueued ones, so whenever A was enqueued before B and both were
    dispatched, A was dispatched before B. *)
Theorem C6_fifo_single_inflight (b : Boot) (evs : list Event) :
  let w := (run b evs).1 in
  let tr := (run b evs).2 in
  length (activations w) <= 1
  /\ serialized tr
  /\ sublist (dispatched tr) (enqueued tr)
  /\ forall A B,
       before (Enqueued A) (Enqueued B) tr ->
       In (Dispatched A) tr -> In (Dispatched B) tr ->
       before (Dispatched A) (Dispatched B) tr.
Proof.
  intros w tr. pose proof (inv_run b evs) as HI. fold w tr in HI.
  repeat split.
  - pose proof (inv_flag _ _ HI) as Hflag.
    destruct (activations w) as [|a [|a' l]]; simpl; [lia | lia | done].
  - unfold serialized. rewrite (inv_track _ _ HI). eauto.
  - exact (dispatched_sublist _ _ HI).
  - intros A B. apply (fifo _ _ _ _ HI).
Qed.

Lemma C6_fifo_single_inflight_witness :
  let A := mkEntry "A" 0 in
  let B := mkEntry "B" 1 in
  let tr := (run (Initialized server true)
               [Detect "A"; Detect "B"; InferenceEnds 0 Returns (fun _ => 0%Q)]).2 in
  before (Enqueued A) (Enqueued B) tr /\ In (Dispatched A) tr /\ In (Dispatched B) tr
  /\ before (Dispatched A) (Dispatched B) tr.
Proof.
  intros A B tr.
  assert (H1 : before (Enqueued A) (Enqueued B) tr).
  { exists [], [Dispatched A], [Settled 0 (Resolved []); Dispatched B]. reflexivity. }
  assert (H2 : In (Dispatched A) tr) by (vm_compute; tauto).
  assert (H3 : In (Dispatched B) tr) by (vm_compute; tauto).
  split; [exact H1|]. split; [exact H2|]. split; [exact H3|].
  exact (proj2 (proj2 (proj2
    (C6_fifo_single_inflight (Initialized server true)
       [Detect "A"; Detect "B"; InferenceEnds 0 Returns (fun _ => 0%Q)]))) A B H1 H2 H3).
Defined.

End PipelineProofs.

(** ** The server: detection and metrics together *)

Section ServerProofs.
Import JS DetectionService Server.
Local Open Scope nat_scope.

Lemma resume_dropped srv req r now :
  Metrics.droppedFrames (metricsCollector (resume srv req r now).1)
  = Metrics.droppedFrames (metricsCollector srv).
Proof. by destruct r. Qed.

Lemma notify_dropped now acc o :
  Metrics.droppedFrames (metricsCollector (notify now acc o).1)
  = Metrics.droppedFrames (metricsCollector acc.1).
Proof.
  unfold notify. destruct o; try done.
  destruct (awaiting acc.1 !! p) as [req|]; [|done].
  match goal with |- context [resume ?s req r now] =>
    pose proof (resume_dropped s req r now) as H; destruct (resume s req r now) end.
  exact H.
Qed.

Lemma fold_notify_dropped now obs acc :
  Metrics.droppedFrames (metricsCollector (fold_left (notify now) obs acc).1)
  = Metrics.droppedFrames (metricsCollector acc.1).
Proof.
  revert acc. induction obs as [|o obs IH]; intros acc; [done|].
  simpl. rewrite IH. apply notify_dropped.
Qed.

(** Only a reset changes [droppedFrames], and it sets it to 0. *)
Lemma step_dropped srv ev :
  Metrics.droppedFrames (metricsCollector (Server.step srv ev).1)
  = match ev with
    | MetricsReset _ => 0
    | _ => Metrics.droppedFrames (metricsCollector srv)
    end.
Proof.
  destruct ev as [img fid cts now rnd | k c rnd now | now]; simpl; [| |done].
  - destruct (detectObjects (detectionService srv) img rnd) as [[w' obs] [r|p]].
    + by rewrite resume_dropped.
    + by rewrite fold_notify_dropped.
  - destruct (settle (detectionService srv) k c rnd) as [w' obs].
    by rewrite fold_notify_dropped.
Qed.

Lemma run_dropped srv evs :
  Metrics.droppedFrames (metricsCollector srv) = 0 ->
  Metrics.droppedFrames (metricsCollector (Server.run srv evs)) = 0.
Proof.
  revert srv. induction evs as [|ev evs IH]; intros srv H; [done|].
  simpl. apply IH. rewrite step_dropped. by destruct ev.
Qed.

(** No observation of [detectServerSide] settles a promise. *)
Lemma fold_notify_unsettled now obs acc :
  Forall (fun o => match o with Settled _ _ => False | _ => True end) obs ->
  fold_left (notify now) obs acc = acc.
Proof.
  revert acc. induction obs as [|o obs IH]; intros acc H; [done|].
  inversion H; subst. simpl. rewrite IH by done. by destruct o.
Qed.

Lemma detectServerSide_unsettled w img :
  Forall (fun o => match o with Settled _ _ => False | _ => True end)
         (detectServerSide w img).2.
Proof.
  unfold detectServerSide, processQueue, loop. simpl.
  destruct (isProcessing (service w) || _); simpl; [by repeat constructor|].
  destruct (_ ++ _); simpl; by repeat constructor.
Qed.

(** C3 (the code at the failing input).  Evictions are not counted.  In every
    state the server reaches after start-up [droppedFrames] is 0; a
    detect-frame request that evicts the oldest queued frame removes it from
    the queue and leaves the metrics collector as it was.
    [recordDroppedFrame] would add one to [droppedFrames] and to
    [totalFrames], but no handler calls it.  With eleven detect-frame
    requests outstanding (one in flight, ten queued), a twelfth evicts the
    frame of promise 1 while [droppedFrames] and [totalFrames] stay 0. *)
Theorem C3_eviction_leaves_metrics_alone :
  (forall m model_loads now evs,
     Metrics.droppedFrames
       (metricsCollector (Server.run (start m model_loads now) evs)) = 0)
  /\ (forall srv img fid cts now rnd,
        evicts srv ->
        let srv' := (Server.step srv (DetectFrame img fid cts now rnd)).1 in
        queue srv'
          = tail (queue srv) ++ [mkEntry img (nextPromise (detectionService srv))]
        /\ metricsCollector srv' = metricsCollector srv)
  /\ (forall m,
        Metrics.droppedFrames (Metrics.recordDroppedFrame m) = S (Metrics.droppedFrames m)
        /\ Metrics.totalFrames (Metrics.recordDroppedFrame m) = S (Metrics.totalFrames m))
  /\ (let srv := Server.run (start server true 0)
                   (replicate 11 (DetectFrame "frame" "id" 0 0 (fun _ => 0%Q))) in
      let srv' := (Server.step srv (DetectFrame "late" "id" 0 0 (fun _ => 0%Q))).1 in
      promise <$> queue srv = seq 1 10
      /\ promise <$> queue srv' = seq 2 10
      /\ Metrics.droppedFrames (metricsCollector srv') = 0
      /\ Metrics.totalFrames (metricsCollector srv') = 0).
Proof.
  split; [|split; [|split; [|by vm_compute]]].
  - intros. by apply run_dropped.
  - intros srv img fid cts now rnd (Hini & Hmode & Hbusy & Hfull).
    simpl. unfold detectObjects. rewrite Hini, Hmode. simpl.
    pose proof (detectServerSide_unsettled (detectionService srv) img) as Hobs.
    pose proof (detect_when_busy (detectionService srv) img Hbusy) as Hq.
    destruct (detectServerSide (detectionService srv) img) as [w' obs].
    rewrite fold_notify_unsettled by done. simpl in *. split; [|done].
    unfold queue, queue_of in *. simpl. rewrite Hq. unfold drop_oldest_if_full.
    by rewrite (proj2 (Nat.leb_le _ _) Hfull).
  - done.
Qed.

Lemma C3_eviction_leaves_metrics_alone_witness :
  let srv := Server.run (start server true 0)
               (replicate 11 (DetectFrame "frame" "id" 0 0 (fun _ => 0%Q))) in
  evicts srv
  /\ metricsCollector (Server.step srv (DetectFrame "late" "id" 0 0 (fun _ => 0%Q))).1
     = metricsCollector srv.
Proof.
  intros srv.
  assert (H : evicts srv).
  { split; [reflexivity|]. split; [reflexivity|]. split; [reflexivity|].
    vm_compute. lia. }
  split; [exact H|].
  exact (proj2 (proj1 (proj2 C3_eviction_leaves_metrics_alone)
                  srv "late" "id" 0%Z 0%Z (fun _ => 0%Q) H)).
Defined.

End ServerProofs.

(** ** The signaling broker *)

Section SignalingProofs.
Import JS Signaling.
Local Open Scope Z_scope.

Lemma truthy_string_true r : r <> EmptyString -> truthy_string r = true.
Proof. intros H. unfold truthy_string. by apply negb_true_iff, String.eqb_neq. Qed.

Lemma set_add_nonempty id s : set_add id s <> [].
Proof.
  unfold set_add. case_bool_decide as H.
  - intros ->. by apply not_elem_of_nil in H.
  - by destruct s.
Qed.

Lemma set_add_nil id : set_add id [] = [id].
Proof. unfold set_add. by rewrite bool_decide_eq_false_2 by apply not_elem_of_nil. Qed.

Lemma set_delete_singleton id : set_delete id [id] = [].
Proof. unfold set_delete. by rewrite filter_cons_False by (intros H; by apply H). Qed.

Lemma removeFromRoom_nonempty rs roomId clientId :
  rooms_nonempty rs -> rooms_nonempty (removeFromRoom rs roomId clientId).
Proof.
  intros H. unfold removeFromRoom.
  destruct (rs !! roomId) as [r|] eqn:Hr; [|done].
  destruct (Nat.eqb_spec (length (set_delete clientId (clients r))) 0) as [E|E].
  - intros rid r' Hl. apply lookup_delete_Some in Hl as [_ Hl]. by eapply H.
  - intros rid r' Hl. apply lookup_insert_Some in Hl as [[_ <-]|[_ Hl]].
    + simpl. intros E'. by rewrite E' in E.
    + by eapply H.
Qed.

(** Removing the last member of a room deletes the room. *)
Lemma removeFromRoom_last rs roomId clientId r :
  rs !! roomId = Some r -> set_delete clientId (clients r) = [] ->
  removeFromRoom rs roomId clientId !! roomId = None.
Proof.
  intros Hr Hd. unfold removeFromRoom. rewrite Hr, Hd. simpl. apply lookup_delete_eq.
Qed.

Section Handlers.
Context {Payload : Type}.
Implicit Types (s : WebRTCSignaling) (ev : Event (Payload := Payload)).

Lemma handleJoinRoom_nonempty s sid roomId now :
  rooms_nonempty (rooms s) ->
  rooms_nonempty (rooms (handleJoinRoom (Payload := Payload) s sid roomId now).1).
Proof.
  intros H. unfold handleJoinRoom.
  destruct (clientMap s !! sid) as [c|]; [|done].
  set (left := match room c with
               | Some old => if truthy_string old
                             then (removeFromRoom (rooms s) old sid, [socket_leave sid old])
                             else (rooms s, [])
               | None => (rooms s, [])
               end).
  assert (H1 : rooms_nonempty left.1).
  { unfold left. destruct (room c) as [old|]; [|done].
    destruct (truthy_string old); [|done]. by apply removeFromRoom_nonempty. }
  destruct left as [rooms1 leaving]. simpl in H1. simpl.
  destruct (rooms1 !! roomId) as [r|] eqn:Hr.
  - rewrite Hr. intros rid r' Hl. apply lookup_insert_Some in Hl as [[_ <-]|[_ Hl]].
    + apply set_add_nonempty.
    + by eapply H1.
  - rewrite lookup_insert_eq. intros rid r' Hl.
    apply lookup_insert_Some in Hl as [[_ <-]|[Hne Hl]]; [apply set_add_nonempty|].
    apply lookup_insert_Some in Hl as [[? _]|[_ Hl]]; [done|]. by eapply H1.
Qed.

Lemma handleDisconnect_nonempty s sid :
  rooms_nonempty (rooms s) ->
  rooms_nonempty (rooms (handleDisconnect (Payload := Payload) s sid).1).
Proof.
  intros H. unfold handleDisconnect.
  destruct (clientMap s !! sid) as [c|]; [|done].
  destruct (room c) as [r|]; [|done].
  destruct (truthy_string r); [|done]. by apply removeFromRoom_nonempty.
Qed.

Lemma step_nonempty s ev :
  rooms_nonempty (rooms s) -> rooms_nonempty (rooms (step s ev).1).
Proof.
  intros H. destruct ev as [sid|sid t|sid rid now|k sid tid p|sid]; simpl; try done.
  - unfold handleRegister. by destruct (clientMap s !! sid).
  - by apply handleJoinRoom_nonempty.
  - by apply handleDisconnect_nonempty.
Qed.

Lemma run_nonempty (evs : list (Event (Payload := Payload))) :
  rooms_nonempty (rooms (run evs)).
Proof.
  unfold run. induction evs as [|ev evs IH] using rev_ind.
  - intros rid r Hl. simpl in Hl. by rewrite lookup_empty in Hl.
  - rewrite fold_left_app. simpl. by apply step_nonempty.
Qed.

Lemma handleJoinRoom_no_peer_left s sid roomId now :
  Forall (fun a => is_peer_left a = false)
         (handleJoinRoom (Payload := Payload) s sid roomId now).2.
Proof.
  unfold handleJoinRoom. destruct (clientMap s !! sid) as [c|]; [|constructor].
  destruct (room c) as [old|]; [destruct (truthy_string old)|]; simpl;
    by repeat constructor.
Qed.

End Handlers.

(** C7 (as amended).  Room lifecycle.  After every sequence of connect,
    register, join-room, relay and disconnect events no room of the map has
    an empty member set, hence [getRoomInfo] never lists an empty room.
    Removing the last member of a room with [removeFromRoom] deletes the room
    in the same step, after which [getRoomInfo] returns null for it; this
    happens when the only member of a room with a non-empty id disconnects. *)
Theorem C7_room_never_empty {Payload : Type} (evs : list (Event (Payload := Payload))) :
  let s := run evs in
  rooms_nonempty (rooms s)
  /\ (forall roomId info, getRoomInfo s roomId = Some info -> info_clients info <> [])
  /\ (forall roomId sid r,
        rooms s !! roomId = Some r -> set_delete sid (clients r) = [] ->
        getRoomInfo (mkSignaling (removeFromRoom (rooms s) roomId sid) (clientMap s)) roomId
        = None)
  /\ (forall sid c roomId r,
        clientMap s !! sid = Some c -> room c = Some roomId -> roomId <> EmptyString ->
        rooms s !! roomId = Some r -> clients r = [sid] ->
        getRoomInfo (handleDisconnect (Payload := Payload) s sid).1 roomId = None).
Proof.
  intros s. pose proof (run_nonempty evs) as H. fold s in H.
  split; [done|]. split; [|split].
  - intros rid info. unfold getRoomInfo. destruct (rooms s !! rid) as [r|] eqn:Hr; [|done].
    intros [= <-]. simpl. pose proof (H _ _ Hr). by destruct (clients r).
  - intros rid sid r Hr Hd. unfold getRoomInfo. simpl.
    by rewrite (removeFromRoom_last _ _ _ _ Hr Hd).
  - intros sid c rid r Hc Hroom Hne Hr Hcl. unfold getRoomInfo, handleDisconnect.
    rewrite Hc, Hroom, (truthy_string_true _ Hne). simpl.
    rewrite (removeFromRoom_last _ _ _ _ Hr); [done|].
    rewrite Hcl. apply set_delete_singleton.
Qed.

Lemma C7_room_never_empty_witness :
  let evs := [Connect "p1"; JoinRoom "p1" "r1" 5] : list (Event (Payload := string)) in
  let s := run evs in
  clientMap s !! "p1" = Some (mkClient None (Some "r1")) /\ "r1" <> EmptyString
  /\ rooms s !! "r1" = Some (mkRoom ["p1"] 5)
  /\ getRoomInfo (handleDisconnect (Payload := string) s "p1").1 "r1" = None.
Proof.
  intros evs s.
  assert (H1 : clientMap s !! "p1" = Some (mkClient None (Some "r1"))) by reflexivity.
  assert (H2 : "r1" <> EmptyString) by discriminate.
  assert (H3 : rooms s !! "r1" = Some (mkRoom ["p1"] 5)) by reflexivity.
  split; [exact H1|]. split; [exact H2|]. split; [exact H3|].
  exact (proj2 (proj2 (proj2 (C7_room_never_empty evs)))
           "p1" (mkClient None (Some "r1")) "r1" (mkRoom ["p1"] 5)
           H1 eq_refl H2 H3 eq_refl).
Defined.

(** The claim as stated fails for the room whose id is the empty string: its
    only member disconnects, yet the room stays, with the departed peer still
    listed. *)
Lemma C7_counterexample :
  let s := run (Payload := string) [Connect "p1"; JoinRoom "p1" EmptyString 1] in
  let s' := (handleDisconnect (Payload := string) s "p1").1 in
  clientMap s !! "p1" = Some (mkClient None (Some EmptyString))
  /\ rooms s !! EmptyString = Some (mkRoom ["p1"] 1)
  /\ clientMap s' !! "p1" = None
  /\ getRoomInfo s' EmptyString
     = Some (mkRoomInfo EmptyString [("p1", Some "unknown")] 1)
  /\ ~ (forall sid c roomId r,
          clientMap s !! sid = Some c -> room c = Some roomId ->
          rooms s !! roomId = Some r -> clients r = [sid] ->
          getRoomInfo (handleDisconnect (Payload := string) s sid).1 roomId = None).
Proof.
  intros s s'.
  assert (H1 : clientMap s !! "p1" = Some (mkClient None (Some EmptyString)))
    by reflexivity.
  assert (H2 : rooms s !! EmptyString = Some (mkRoom ["p1"] 1)) by reflexivity.
  assert (H3 : getRoomInfo s' EmptyString
               = Some (mkRoomInfo EmptyString [("p1", Some "unknown")] 1))
    by reflexivity.
  split; [exact H1|]. split; [exact H2|]. split; [reflexivity|]. split; [exact H3|].
  intros H. specialize (H "p1" _ EmptyString _ H1 eq_refl H2 eq_refl).
  fold s' in H. rewrite H3 in H. discriminate.
Qed.

(** C8 (the code at the failing input).  [handleJoinRoom] never emits
    peer-left, whatever the state.  With p1 and p2 in room A, p1 joining room
    B moves p1 from A to B (A keeps p2, B holds p1 alone) and emits only
    peer-joined to B and room-joined to p1, so p2 is not told that p1 left;
    [handleDisconnect] of p1 in the same state does emit peer-left to A. *)
Theorem C8_join_sends_no_peer_left :
  (forall (Payload : Type) s sid roomId now,
     Forall (fun a => is_peer_left a = false)
            (handleJoinRoom (Payload := Payload) s sid roomId now).2)
  /\ let s := run (Payload := string)
                [Connect "p1"; Connect "p2"; JoinRoom "p1" "A" 1; JoinRoom "p2" "A" 2] in
     let s' := (handleJoinRoom (Payload := string) s "p1" "B" 3).1 in
     rooms s !! "A" = Some (mkRoom ["p1"; "p2"] 1)
     /\ (handleJoinRoom (Payload := string) s "p1" "B" 3).2
        = [ socket_leave "p1" "A"; socket_join "p1" "B";
            emit_to "p1" "B" (peer_joined "p1" None);
            emit "p1" (room_joined "B" []) ]
     /\ rooms s' !! "A" = Some (mkRoom ["p2"] 1)
     /\ rooms s' !! "B" = Some (mkRoom ["p1"] 3)
     /\ clientMap s' !! "p1" = Some (mkClient None (Some "B"))
     /\ (handleDisconnect (Payload := string) s "p1").2
        = [ emit_to "p1" "A" (peer_left "p1") ].
Proof.
  split; [intros; apply handleJoinRoom_no_peer_left|].
  by vm_compute.
Qed.

(** C9 (as amended).  A relay handler never changes the broker state.  It
    emits nothing when the sender is unknown or when the sender's room field
    is null or the empty string; otherwise it emits exactly one message, to
    the target, carrying the kind, the sender's id and the payload unchanged.
    Nothing is required of the target: it need not share the sender's room,
    nor be known. *)
Theorem C9_relay_guard {Payload : Type} (k : Kind) (s : WebRTCSignaling)
    (sid targetId : string) (payload : Payload) :
  let acts := (step s (Signal k sid targetId payload)).2 in
  (step s (Signal k sid targetId payload)).1 = s
  /\ (clientMap s !! sid = None -> acts = [])
  /\ (forall c, clientMap s !! sid = Some c ->
                room c = None \/ room c = Some EmptyString -> acts = [])
  /\ (forall c r, clientMap s !! sid = Some c -> room c = Some r -> r <> EmptyString ->
                  acts = [emit_to sid targetId (relayed k sid payload)]).
Proof.
  simpl. split; [done|].
  unfold handleOffer, handleAnswer, handleIceCandidate, handleDataChannelMessage.
  assert (E : match k with
              | offer => forward offer s sid targetId payload
              | answer => forward answer s sid targetId payload
              | ice_candidate => forward ice_candidate s sid targetId payload
              | data_channel_message => forward data_channel_message s sid targetId payload
              end = forward k s sid targetId payload) by (by destruct k).
  rewrite E. unfold forward, has_room. repeat split.
  - by intros ->.
  - intros c -> [-> | ->]; done.
  - intros c r -> -> Hr. by rewrite (truthy_string_true _ Hr).
Qed.

Lemma C9_relay_guard_witness :
  let s := run (Payload := string)
             [Connect "viewer"; Connect "camera"; JoinRoom "viewer" "r1" 1] in
  clientMap s !! "viewer" = Some (mkClient None (Some "r1")) /\ "r1" <> EmptyString
  /\ (step s (Signal offer "viewer" "camera" "sdp")).2
     = [emit_to "viewer" "camera" (relayed offer "viewer" "sdp")].
Proof.
  intros s.
  assert (H1 : clientMap s !! "viewer" = Some (mkClient None (Some "r1"))) by reflexivity.
  assert (H2 : "r1" <> EmptyString) by discriminate.
  split; [exact H1|]. split; [exact H2|].
  exact (proj2 (proj2 (proj2 (C9_relay_guard offer s "viewer" "camera" "sdp")))
           (mkClient None (Some "r1")) "r1" H1 eq_refl H2).
Defined.

Lemma C9_counterexample :
  let s := run (Payload := string)
             [Connect "p1"; Connect "p2"; JoinRoom "p1" EmptyString 5] in
  clientMap s !! "p1" = Some (mkClient None (Some EmptyString))
  /\ member_of s "p1" EmptyString
  /\ (step s (Signal offer "p1" "p2" "sdp")).2 = []
  /\ (step s (Signal offer "p1" "p2" "sdp")).2
     <> [emit_to "p1" "p2" (relayed offer "p1" "sdp")].
Proof.
  intros s. split; [reflexivity|]. split.
  - exists (mkRoom ["p1"] 5). split; [reflexivity|]. by left.
  - split; [reflexivity | discriminate].
Qed.

(** C10 (as amended).  When the only member of a room R whose id is not the
    empty string joins R again, [removeFromRoom] first deletes R, then R is
    created anew holding that peer alone with the time of the second join as
    creation time, and the peer receives room-joined with no other member. *)
Theorem C10_rejoin_recreates_room {Payload : Type} (s : WebRTCSignaling)
    (sid R : string) (now : Z) (c : Client) (r : Room) :
  clientMap s !! sid = Some c -> room c = Some R -> R <> EmptyString ->
  rooms s !! R = Some r -> clients r = [sid] ->
  let result := handleJoinRoom (Payload := Payload) s sid R now in
  removeFromRoom (rooms s) R sid !! R = None
  /\ rooms result.1 !! R = Some (mkRoom [sid] now)
  /\ getRoomInfo result.1 R = Some (mkRoomInfo R [(sid, type c)] now)
  /\ result.2 = [ socket_leave sid R; socket_join sid R;
                  emit_to sid R (peer_joined sid (type c));
                  emit sid (room_joined R []) ].
Proof.
  intros Hc Hroom Hne Hr Hcl result.
  assert (Hrm : removeFromRoom (rooms s) R sid !! R = None).
  { apply (removeFromRoom_last _ _ _ _ Hr). rewrite Hcl. apply set_delete_singleton. }
  split; [done|].
  subst result. unfold getRoomInfo, handleJoinRoom.
  rewrite Hc, Hroom, (truthy_string_true _ Hne). simpl.
  rewrite Hrm. repeat (rewrite lookup_insert_eq; cbn [clients created]).
  rewrite set_add_nil. fold (set_delete sid [sid]). rewrite set_delete_singleton.
  cbn [map]. unfold type_of. rewrite lookup_insert_eq. done.
Qed.

Lemma C10_rejoin_recreates_room_witness :
  let s := run (Payload := string) [Connect "p1"; JoinRoom "p1" "R" 5] in
  clientMap s !! "p1" = Some (mkClient None (Some "R")) /\ "R" <> EmptyString
  /\ rooms s !! "R" = Some (mkRoom ["p1"] 5)
  /\ rooms (handleJoinRoom (Payload := string) s "p1" "R" 9).1 !! "R"
     = Some (mkRoom ["p1"] 9).
Proof.
  intros s.
  assert (H1 : clientMap s !! "p1" = Some (mkClient None (Some "R"))) by reflexivity.
  assert (H2 : "R" <> EmptyString) by discriminate.
  assert (H3 : rooms s !! "R" = Some (mkRoom ["p1"] 5)) by reflexivity.
  split; [exact H1|]. split; [exact H2|]. split; [exact H3|].
  exact (proj1 (proj2 (C10_rejoin_recreates_room (Payload := string) s "p1" "R" 9
           (mkClient None (Some "R")) (mkRoom ["p1"] 5) H1 eq_refl H2 H3 eq_refl))).
Defined.

Lemma C10_counterexample :
  let s := run (Payload := string) [Connect "p1"; JoinRoom "p1" EmptyString 5] in
  let result := handleJoinRoom (Payload := string) s "p1" EmptyString 9 in
  clientMap s !! "p1" = Some (mkClient None (Some EmptyString))
  /\ rooms s !! EmptyString = Some (mkRoom ["p1"] 5)
  /\ rooms result.1 !! EmptyString = Some (mkRoom ["p1"] 5)
  /\ rooms result.1 !! EmptyString <> Some (mkRoom ["p1"] 9)
  /\ result.2 = [ socket_join "p1" EmptyString; emit_to "p1" EmptyString (peer_joined "p1" None);
                  emit "p1" (room_joined EmptyString []) ].
Proof.
  intros s result. repeat split; try reflexivity. discriminate.
Qed.

End SignalingProofs.

(** ** The metrics collector over its calls *)

Section CollectorProofs.
Import JS Metrics Collector.
Local Open Scope Z_scope.

Lemma trim_series_length xs :
  (length xs <= 1001)%nat -> (length (trim_series xs) <= 1000)%nat.
Proof.
  intros H. unfold trim_series.
  destruct (Nat.ltb_spec 1000 (length xs)); [|lia].
  rewrite length_drop. lia.
Qed.

Lemma trim_series_same_length xs ys :
  length xs = length ys -> length (trim_series xs) = length (trim_series ys).
Proof.
  intros H. unfold trim_series. rewrite H.
  destruct (1000 <? length ys)%nat; [|done]. rewrite !length_drop. lia.
Qed.

Lemma keepIndex_bound cutoff ts i : (keepIndex cutoff ts i <= i + length ts)%nat.
Proof.
  revert i. induction ts as [|t ts IH]; intros i; simpl; [lia|].
  destruct (cutoff <? t); [lia|]. specialize (IH (S i)). lia.
Qed.

Lemma collector_inv_constructor t0 : Inv (constructor t0).
Proof. split; simpl; auto with lia. Qed.

Lemma history_length {A} (P : A -> Prop) `{!forall x, Decision (P x)} (k : nat) (l : list A) :
  (length (filter P (if (k <? length l)%nat then tail l else l)) <= length l)%nat
  /\ ((length l <= S k)%nat ->
      (length (filter P (if (k <? length l)%nat then tail l else l)) <= k)%nat).
Proof.
  pose proof (length_filter P (if (k <? length l)%nat then tail l else l)) as Hlen.
  destruct (Nat.ltb_spec k (length l)); rewrite ?length_tl in Hlen; lia.
Qed.

Lemma collector_inv_recordFrame m d now : Inv m -> Inv (recordFrame m d now).
Proof.
  intros [[Hh Hw] Hc [Hf1 Hf2] (Hl1 & Hl2 & Hl3 & Hl4) Hb Hs].
  split; simpl.
  - done.
  - lia.
  - match goal with |- context [filter ?P (if (?k <? length ?l)%nat then _ else _)] =>
      destruct (history_length P k l) as [H1 H2]; rewrite length_app in *; simpl in * end.
    rewrite Hh in *. lia.
  - repeat split.
    + apply trim_series_length. rewrite length_app. simpl. lia.
    + apply trim_series_same_length. rewrite !length_app. simpl. lia.
    + apply trim_series_same_length. rewrite !length_app. simpl. lia.
    + by rewrite Hl4.
  - done.
  - done.
Qed.

Lemma filter_fmap_eq {A B} (f : A -> B) (P : B -> Prop) `{!forall x, Decision (P x)}
    (l1 l2 : list A) :
  f <$> l1 = f <$> l2 ->
  f <$> filter (fun x => P (f x)) l1 = f <$> filter (fun x => P (f x)) l2.
Proof.
  revert l2. induction l1 as [|x l1 IH]; intros [|y l2] E; try done.
  simpl in E. injection E as Hxy E.
  rewrite !filter_cons, Hxy.
  destruct (decide (P (f y))); [|by apply IH].
  rewrite !fmap_cons, Hxy. f_equal. by apply IH.
Qed.

Lemma collector_inv_recordBandwidth m up down now now' :
  Inv m -> Inv (recordBandwidth m up down now now').
Proof.
  intros [Hcfg Hc Hf Hl Hb Hs]. split; simpl; try done.
  apply (filter_fmap_eq sample_timestamp (fun t => now' - metricsWindow m < t)).
  by rewrite !fmap_app, Hb.
Qed.

Lemma collector_inv_collectSystemMetrics m heapUsed user system now now' :
  Inv m -> Inv (collectSystemMetrics m heapUsed user system now now').
Proof.
  intros [Hcfg Hc Hf Hl Hb [Hs1 Hs2]]. split; simpl; try done.
  rewrite !length_drop, !length_app. simpl. lia.
Qed.

Lemma collector_inv_call m c : Inv m -> Inv (call m c).
Proof.
  intros H. destruct c; simpl.
  - by apply collector_inv_recordFrame.
  - destruct H as [Hcfg Hc Hf Hl Hb Hs]. split; simpl; try done; lia.
  - by apply collector_inv_recordBandwidth.
  - by apply collector_inv_collectSystemMetrics.
  - destruct H as [Hcfg Hc Hf Hl Hb Hs]. split; simpl; auto with lia.
Qed.

Lemma collector_inv_run t0 cs : Inv (run t0 cs).
Proof.
  unfold run. induction cs as [|c cs IH] using rev_ind; [apply collector_inv_constructor|].
  rewrite fold_left_app. simpl. by apply collector_inv_call.
Qed.


(** *** Order statistics *)

Lemma sorted_lookup_le (l : list Q) (i j : nat) (a b : Q) :
  StronglySorted Qle l -> (i <= j)%nat -> l !! i = Some a -> l !! j = Some b ->
  (a <= b)%Q.
Proof.
  intros Hs. revert i j a b.
  induction Hs as [|x l Hs IH Hx]; intros i j a b Hij Hi Hj; [done|].
  destruct i as [|i], j as [|j]; simpl in *; try lia.
  - injection Hi as <-. injection Hj as <-. apply Qle_refl.
  - injection Hi as <-. rewrite Forall_forall in Hx. apply Hx.
    by eapply list_elem_of_lookup_2.
  - eapply IH; [|done..]. lia.
Qed.

Lemma percentile_index_mono (p q : Q) (n : nat) :
  (p <= q)%Q -> percentile_index p n <= percentile_index q n.
Proof.
  intros Hpq. unfold percentile_index.
  assert (Qceiling (p / 100 * inject_Z (Z.of_nat n))
          <= Qceiling (q / 100 * inject_Z (Z.of_nat n))); [|lia].
  apply Qceiling_resp_le. apply Qmult_le_compat_r.
  - apply Qmult_le_compat_r; [done|]. discriminate.
  - change 0%Q with (inject_Z 0). rewrite <- Zle_Qle. lia.
Qed.

Lemma calculatePercentile_lookup (values : list Q) (p : Q) :
  values <> [] -> (0 < p)%Q -> (p <= 100)%Q ->
  exists v, sort_asc values !! Z.to_nat (percentile_index p (length values)) = Some v
            /\ calculatePercentile values p = Num v.
Proof.
  intros Hne Hp Hp'.
  assert (Hn : (0 < length values)%nat) by (destruct values; [done | simpl; lia]).
  pose proof (percentile_index_range p (length values) Hp Hp' Hn) as Hi.
  pose proof (sort_asc_length values) as Hlen.
  destruct (lookup_lt_is_Some_2 (sort_asc values)
              (Z.to_nat (percentile_index p (length values)))) as [v Hv]; [lia|].
  exists v. split; [done|].
  unfold calculatePercentile. destruct values; [done|].
  rewrite Hlen, Z.max_r by lia. unfold index. by rewrite Hv.
Qed.

Lemma fold_min_le r x : (fold_left Qmin r x <= x)%Q /\ Forall (Qle (fold_left Qmin r x)) r.
Proof.
  revert x. induction r as [|y r IH]; intros x; simpl; [split; [apply Qle_refl | done]|].
  destruct (IH (Qmin x y)) as [H1 H2]. split.
  - eapply Qle_trans; [exact H1 | apply Q.le_min_l].
  - constructor; [|done]. eapply Qle_trans; [exact H1 | apply Q.le_min_r].
Qed.

Lemma fold_max_ge r x : (x <= fold_left Qmax r x)%Q /\ Forall (fun y => (y <= fold_left Qmax r x)%Q) r.
Proof.
  revert x. induction r as [|y r IH]; intros x; simpl; [split; [apply Qle_refl | done]|].
  destruct (IH (Qmax x y)) as [H1 H2]. split.
  - eapply Qle_trans; [apply Q.le_max_l | exact H1].
  - constructor; [|done]. eapply Qle_trans; [apply Q.le_max_r | exact H1].
Qed.

Lemma Math_min_spec (values : list Q) :
  values <> [] -> exists lo, Math_min values = Num lo /\ Forall (Qle lo) values.
Proof.
  destruct values as [|x r]; [done|]. intros _. exists (fold_left Qmin r x).
  split; [done|]. destruct (fold_min_le r x). by constructor.
Qed.

Lemma Math_max_spec (values : list Q) :
  values <> [] ->
  exists hi, Math_max values = Num hi /\ Forall (fun y => (y <= hi)%Q) values.
Proof.
  destruct values as [|x r]; [done|]. intros _. exists (fold_left Qmax r x).
  split; [done|]. destruct (fold_max_ge r x). by constructor.
Qed.

Lemma sort_asc_elem (values : list Q) (i : nat) (v : Q) :
  sort_asc values !! i = Some v -> v ∈ values.
Proof.
  intros H. rewrite <- (sort_asc_perm values). by eapply list_elem_of_lookup_2.
Qed.

Lemma percentile_order (values : list Q) (p q : Q) :
  values <> [] -> (0 < p)%Q -> (p <= q)%Q -> (q <= 100)%Q ->
  exists lo a b hi,
    Math_min values = Num lo /\ calculatePercentile values p = Num a
    /\ calculatePercentile values q = Num b /\ Math_max values = Num hi
    /\ a ∈ values /\ b ∈ values
    /\ (lo <= a)%Q /\ (a <= b)%Q /\ (b <= hi)%Q.
Proof.
  intros Hne Hp Hpq Hq.
  assert (Hp' : (p <= 100)%Q) by (eapply Qle_trans; eauto).
  assert (Hq' : (0 < q)%Q) by (eapply Qlt_le_trans; eauto).
  destruct (calculatePercentile_lookup values p Hne Hp Hp') as (a & Ha & Ea).
  destruct (calculatePercentile_lookup values q Hne Hq' Hq) as (b & Hb & Eb).
  destruct (Math_min_spec values Hne) as (lo & Elo & Hlo).
  destruct (Math_max_spec values Hne) as (hi & Ehi & Hhi).
  exists lo, a, b, hi.
  pose proof (sort_asc_elem _ _ _ Ha) as Hina. pose proof (sort_asc_elem _ _ _ Hb) as Hinb.
  rewrite Forall_forall in Hlo, Hhi.
  repeat split; try done.
  - by apply Hlo.
  - eapply (sorted_lookup_le (sort_asc values)); [apply sort_asc_sorted| |exact Ha|exact Hb].
    assert (Hn : (0 < length values)%nat) by (destruct values; [done | simpl; lia]).
    pose proof (percentile_index_range p (length values) Hp Hp' Hn).
    pose proof (percentile_index_mono p q (length values) Hpq). lia.
  - by apply Hhi.
Qed.

Lemma or_zero_finite (q : Q) : finite (or_zero (Num q)) q.
Proof.
  unfold or_zero, truthy, finite. destruct (Qeq_bool q 0) eqn:E; simpl.
  - exists 0%Q. split; [done|]. symmetry. by apply Qeq_bool_iff.
  - exists q. split; [done|]. reflexivity.
Qed.

Lemma inject_nat_nonneg (n : nat) : (0 <= inject_Z (Z.of_nat n))%Q.
Proof. change 0%Q with (inject_Z 0). rewrite <- Zle_Qle. lia. Qed.

Lemma last_filter_snoc {A} (P : A -> Prop) `{!forall x, Decision (P x)} (l : list A) (x : A) :
  P x -> last (filter P (l ++ [x])) = Some x.
Proof. intros Hx. rewrite filter_app, filter_cons_True, filter_nil by done. apply last_snoc. Qed.

Lemma last_tail_snoc {A} (l : list A) (x : A) :
  l <> [] -> tail (l ++ [x]) = tail l ++ [x].
Proof. by destruct l. Qed.

Lemma keepIndex_stale cutoff ts i :
  Forall (fun t => t <= cutoff) ts -> keepIndex cutoff ts i = 0%nat.
Proof.
  revert i. induction ts as [|t ts IH]; intros i H; [done|].
  apply Forall_cons_1 in H as [Ht H]. simpl.
  destruct (Z.ltb_spec cutoff t); [lia|]. by apply IH.
Qed.

Lemma keepIndex_fresh cutoff ts i :
  Exists (fun t => cutoff < t) ts ->
  exists j t, keepIndex cutoff ts i = (i + j)%nat /\ ts !! j = Some t /\ cutoff < t
              /\ Forall (fun t => t <= cutoff) (take j ts).
Proof.
  revert i. induction ts as [|t ts IH]; intros i H; [by inversion H|].
  simpl. destruct (Z.ltb_spec cutoff t) as [Hlt|Hge].
  - exists 0%nat, t. rewrite Nat.add_0_r. by repeat split.
  - apply Exists_cons in H as [H|H]; [lia|].
    destruct (IH (S i) H) as (j & t' & E & Hj & Ht' & Hst).
    exists (S j), t'. rewrite E. repeat split; [lia|done..|].
    simpl. by constructor.
Qed.

(** X1. Counter balance of the metrics collector.  After any sequence of
    recordFrame, recordDroppedFrame, recordBandwidth, collectSystemMetrics
    and reset calls on a new collector, totalFrames is processedFrames plus
    droppedFrames, and the frame history holds no more frames than
    processedFrames counts. *)
Theorem collector_counters_balance (t0 : Z) (cs : list Call) :
  let m := run t0 cs in
  totalFrames m = (processedFrames m + droppedFrames m)%nat
  /\ (length (frames m) <= processedFrames m)%nat.
Proof.
  intros m. destruct (collector_inv_run t0 cs) as [_ Hc [_ Hf] _ _ _]. by split.
Qed.

(** X2. History bounds of the metrics collector.  After any sequence of calls
    on a new collector the frame history holds at most 1000 frames
    (maxFrameHistory) and the end-to-end latency series at most 1000
    samples; the network and inference series have the length of the
    end-to-end series, and the overlay series is never written. *)
Theorem collector_history_bounded (t0 : Z) (cs : list Call) :
  let m := run t0 cs in
  (length (frames m) <= 1000)%nat
  /\ (length (endToEnd (latencies m)) <= 1000)%nat
  /\ length (network (latencies m)) = length (endToEnd (latencies m))
  /\ length (inference (latencies m)) = length (endToEnd (latencies m))
  /\ overlay (latencies m) = [].
Proof.
  intros m. destruct (collector_inv_run t0 cs) as [_ _ [Hf _] Hl _ _]. by split.
Qed.

(** X3. Percentiles are monotone in the rank.  For a non-empty series and
    0 < p <= q <= 100, [calculatePercentile] returns two elements of the
    series with min <= P_p <= P_q <= max, min and max being what
    [Math.min] and [Math.max] return for the series. *)
Theorem percentile_monotone (values : list Q) (p q : Q) :
  values <> [] -> (0 < p)%Q -> (p <= q)%Q -> (q <= 100)%Q ->
  exists lo a b hi,
    Math_min values = Num lo /\ calculatePercentile values p = Num a
    /\ calculatePercentile values q = Num b /\ Math_max values = Num hi
    /\ a ∈ values /\ b ∈ values
    /\ (lo <= a)%Q /\ (a <= b)%Q /\ (b <= hi)%Q.
Proof. apply percentile_order. Qed.

Lemma percentile_monotone_witness :
  [30; 10; 20]%Q <> [] /\ (0 < 50)%Q /\ (50 <= 95)%Q /\ (95 <= 100)%Q
  /\ exists lo a b hi,
       Math_min [30; 10; 20]%Q = Num lo /\ calculatePercentile [30; 10; 20]%Q 50 = Num a
       /\ calculatePercentile [30; 10; 20]%Q 95 = Num b /\ Math_max [30; 10; 20]%Q = Num hi
       /\ a ∈ [30; 10; 20]%Q /\ b ∈ [30; 10; 20]%Q
       /\ (lo <= a)%Q /\ (a <= b)%Q /\ (b <= hi)%Q.
Proof.
  assert (H1 : [30; 10; 20]%Q <> []) by discriminate.
  assert (H2 : (0 < 50)%Q) by reflexivity.
  assert (H3 : (50 <= 95)%Q) by discriminate.
  assert (H4 : (95 <= 100)%Q) by discriminate.
  split; [exact H1|]. split; [exact H2|]. split; [exact H3|]. split; [exact H4|].
  exact (percentile_monotone [30; 10; 20]%Q 50 95 H1 H2 H3 H4).
Defined.

(** X4. The end-to-end latency block of a snapshot is ordered.  When the
    end-to-end series is not empty, [getMetrics] reports for min, median,
    p95, p99 and max finite numbers with min <= median <= p95 <= p99 <= max
    (the [|| 0] fallback leaves a finite min or max as it is).  Nothing is
    said of the average, which the code rounds. *)
Theorem snapshot_latency_ordered (m : MetricsCollector) (now : Z) :
  endToEnd (latencies m) <> [] ->
  let s := latency_endToEnd (getMetrics m now) in
  exists lo med q95 q99 hi,
    finite (min s) lo /\ median s = Num med /\ p95 s = Num q95 /\ p99 s = Num q99
    /\ finite (max s) hi
    /\ (lo <= med)%Q /\ (med <= q95)%Q /\ (q95 <= q99)%Q /\ (q99 <= hi)%Q.
Proof.
  intros Hne s. subst s. simpl.
  destruct (percentile_order _ 50 95 Hne) as (lo & med & q95 & hi & Elo & Emed & E95 & Ehi
    & _ & _ & H1 & H2 & _); [reflexivity | discriminate | discriminate |].
  destruct (percentile_order _ 95 99 Hne) as (lo' & q95' & q99 & hi' & Elo' & E95' & E99 & Ehi'
    & _ & _ & _ & H3 & H4); [reflexivity | discriminate | discriminate |].
  rewrite Elo, Emed, E95, E99, Ehi.
  assert (lo' = lo) by congruence.
  assert (hi' = hi) by congruence.
  assert (q95' = q95) by congruence. subst.
  exists lo, med, q95, q99, hi.
  repeat split; try done; apply or_zero_finite.
Qed.

Lemma snapshot_latency_ordered_witness :
  let m := run 0 [CallRecordFrame (mkFrameData "f1" 0 5 9 []) 10;
                  CallRecordFrame (mkFrameData "f2" 10 12 20 []) 40] in
  endToEnd (latencies m) <> []
  /\ exists lo med q95 q99 hi,
       finite (min (latency_endToEnd (getMetrics m 50))) lo
       /\ median (latency_endToEnd (getMetrics m 50)) = Num med
       /\ p95 (latency_endToEnd (getMetrics m 50)) = Num q95
       /\ p99 (latency_endToEnd (getMetrics m 50)) = Num q99
       /\ finite (max (latency_endToEnd (getMetrics m 50))) hi
       /\ (lo <= med)%Q /\ (med <= q95)%Q /\ (q95 <= q99)%Q /\ (q99 <= hi)%Q.
Proof.
  intros m.
  assert (H : endToEnd (latencies m) <> []) by (vm_compute; discriminate).
  split; [exact H|]. exact (snapshot_latency_ordered m 50 H).
Defined.

(** X5. The rates of a snapshot.  After any sequence of calls on a new
    collector, dropRate is a number between 0 and 100; fps is a finite
    non-negative number when the snapshot is taken after the last reset
    time; taken in the very millisecond of the construction or of the last
    reset, the division by a duration of 0 makes fps NaN when no frame was
    processed and Infinity otherwise. *)
Theorem snapshot_rates (t0 : Z) (cs : list Call) (now : Z) :
  let m := run t0 cs in
  let f := snap_frames (getMetrics m now) in
  (exists r, dropRate f = Num r /\ (0 <= r)%Q /\ (r <= 100)%Q)
  /\ (lastResetTime m < now -> exists v, fps f = Num v /\ (0 <= v)%Q)
  /\ (now = lastResetTime m ->
      fps f = if (processedFrames m =? 0)%nat then NaN else Infinity).
Proof.
  intros m f. subst f. simpl. split; [|split].
  - destruct (collector_inv_run t0 cs) as [_ Hc _ _ _ _]. fold m in Hc.
    destruct (Nat.ltb_spec 0 (totalFrames m)) as [Hpos|_].
    + eexists. split; [reflexivity|].
      assert (Ht : (0 < inject_Z (Z.of_nat (totalFrames m)))%Q).
      { change 0%Q with (inject_Z 0). rewrite <- Zlt_Qlt. lia. }
      assert (Hd : (inject_Z (Z.of_nat (droppedFrames m))
                    <= inject_Z (Z.of_nat (totalFrames m)))%Q).
      { rewrite <- Zle_Qle. lia. }
      pose proof (inject_nat_nonneg (droppedFrames m)) as Hd0.
      split.
      * apply Qmult_le_0_compat; [|discriminate].
        apply Qle_shift_div_l; [done|]. by rewrite Qmult_0_l.
      * rewrite <- (Qmult_1_l 100) at 2. apply Qmult_le_compat_r; [|discriminate].
        apply Qle_shift_div_r; [done|]. by rewrite Qmult_1_l.
    + exists 0%Q. repeat split; discriminate.
  - intros Hlt. unfold div.
    assert (Hdur : (0 < inject_Z (now - lastResetTime m) / 1000)%Q).
    { apply Qlt_shift_div_l; [reflexivity|]. rewrite Qmult_0_l.
      change 0%Q with (inject_Z 0). rewrite <- Zlt_Qlt. lia. }
    destruct (Qeq_bool _ 0) eqn:E.
    + apply Qeq_bool_iff in E. rewrite E in Hdur. by apply Qlt_irrefl in Hdur.
    + eexists. split; [reflexivity|].
      apply Qle_shift_div_l; [done|]. rewrite Qmult_0_l. apply inject_nat_nonneg.
  - intros ->. rewrite Z.sub_diag. unfold div.
    change (Qeq_bool (inject_Z 0 / 1000) 0) with true. cbn [negb].
    destruct (processedFrames m) as [|n]; [done|].
    replace (Qeq_bool (inject_Z (Z.of_nat (S n))) 0) with false.
    + by rewrite (proj2 (Qle_bool_iff _ _) (inject_nat_nonneg (S n))).
    + symmetry. apply not_true_is_false. intros E. apply Qeq_bool_iff in E.
      unfold Qeq in E. cbn [Qnum Qden inject_Z] in E. lia.
Qed.

Lemma snapshot_rates_witness :
  let m := run 0 [CallRecordFrame (mkFrameData "f1" 0 5 9 []) 10; CallRecordDroppedFrame] in
  lastResetTime m < 1000
  /\ exists v, fps (snap_frames (getMetrics m 1000)) = Num v /\ (0 <= v)%Q.
Proof.
  intros m.
  assert (H : lastResetTime m < 1000) by (vm_compute; reflexivity).
  split; [exact H|].
  exact (proj1 (proj2 (snapshot_rates 0
    [CallRecordFrame (mkFrameData "f1" 0 5 9 []) 10; CallRecordDroppedFrame] 1000)) H).
Defined.

(** X6. What [recordFrame] retains (the clock being read once per call, as
    [recordFrame] is modelled).  With a positive window and a history limit
    of at least 1, every frame kept is younger than the window and the last
    frame kept is the one just recorded, with end-to-end latency
    now - capture_ts.  The latency series are pruned by count, not by age:
    below 1000 samples the new sample is appended and nothing is removed;
    at exactly 1000 samples the push makes 1001 and [slice(-500)] keeps the
    newest 500. *)
Theorem recordFrame_retention (m : MetricsCollector) (d : FrameData) (now : Z) :
  0 < metricsWindow m -> (1 <= maxFrameHistory m)%nat ->
  let m' := recordFrame m d now in
  let sample := inject_Z (now - capture_ts d) in
  Forall (fun f => now - metricsWindow m < timestamp f) (frames m')
  /\ (exists f, last (frames m') = Some f /\ frameId f = frame_id d
                /\ timestamp f = now /\ endToEndLatency f = now - capture_ts d)
  /\ ((length (endToEnd (latencies m)) < 1000)%nat ->
      endToEnd (latencies m') = endToEnd (latencies m) ++ [sample])
  /\ (length (endToEnd (latencies m)) = 1000%nat ->
      endToEnd (latencies m') = drop 501 (endToEnd (latencies m) ++ [sample])
      /\ length (endToEnd (latencies m')) = 500%nat).
Proof.
  intros Hw Hh m' sample. subst m'. simpl. repeat split.
  - apply Forall_forall. intros f Hf. by apply list_elem_of_filter in Hf as [Hf _].
  - eexists. split; [|split; [|split]].
    + match goal with |- context [(?k <? length (?l ++ [?x]))%nat] =>
        destruct (Nat.ltb_spec k (length (l ++ [x]))) as [Hlt|Hge] end.
      * rewrite last_tail_snoc.
        -- apply last_filter_snoc. simpl. lia.
        -- intros E. rewrite E in Hlt. simpl in Hlt. lia.
      * apply last_filter_snoc. simpl. lia.
    + reflexivity.
    + reflexivity.
    + reflexivity.
  - intros Hlt. unfold trim_series. rewrite length_app. simpl.
    destruct (Nat.ltb_spec 1000 (length (endToEnd (latencies m)) + 1)); [lia|done].
  - unfold trim_series. rewrite length_app. simpl. rewrite H. simpl. done.
  - unfold trim_series. rewrite length_app. simpl. rewrite H. simpl.
    rewrite length_drop, length_app. simpl. lia.
Qed.

Lemma recordFrame_retention_witness :
  let m := constructor 0 in
  0 < metricsWindow m /\ (1 <= maxFrameHistory m)%nat
  /\ Forall (fun f => 50 - metricsWindow m < timestamp f)
            (frames (recordFrame m (mkFrameData "f1" 10 20 30 []) 50)).
Proof.
  intros m.
  assert (H1 : 0 < metricsWindow m) by reflexivity.
  assert (H2 : (1 <= maxFrameHistory m)%nat) by (vm_compute; lia).
  split; [exact H1|]. split; [exact H2|].
  exact (proj1 (recordFrame_retention m (mkFrameData "f1" 10 20 30 []) 50 H1 H2)).
Defined.

(** X7. [recordBandwidth] then [getMetrics].  If the clock reading of the
    cleanup is less than one window after the reading that stamps the
    sample, the sample just recorded survives the cleanup: a snapshot taken
    at any later time reports it as the current uplink and downlink value,
    and every bandwidth entry kept is younger than the window. *)
Theorem recordBandwidth_current (m : MetricsCollector) (up down : Q)
    (now now' later : Z) :
  now' - metricsWindow m < now ->
  let m' := recordBandwidth m up down now now' in
  current (bandwidth_uplink (getMetrics m' later)) = Num up
  /\ current (bandwidth_downlink (getMetrics m' later)) = Num down
  /\ Forall (fun e => now' - metricsWindow m < sample_timestamp e) (uplink (bandwidth m'))
  /\ Forall (fun e => now' - metricsWindow m < sample_timestamp e)
            (downlink (bandwidth m')).
Proof.
  intros Hw m'. subst m'. simpl. unfold last_or_zero.
  assert (Hlast : forall l v, last (map value
            (filter (fun e => now' - metricsWindow m < sample_timestamp e)
                    (l ++ [mkSample v now]))) = Some v).
  { intros l v. rewrite filter_app, filter_cons_True, filter_nil by (simpl; lia).
    rewrite map_app. simpl. apply last_snoc. }
  rewrite !Hlast. repeat split.
  - apply Forall_forall. intros e He. by apply list_elem_of_filter in He as [He _].
  - apply Forall_forall. intros e He. by apply list_elem_of_filter in He as [He _].
Qed.

Lemma recordBandwidth_current_witness :
  let m := constructor 0 in
  6 - metricsWindow m < 5
  /\ current (bandwidth_uplink (getMetrics (recordBandwidth m 512 2048 5 6) 7)) = Num 512.
Proof.
  intros m.
  assert (H : 6 - metricsWindow m < 5) by reflexivity.
  split; [exact H|].
  exact (proj1 (recordBandwidth_current m 512 2048 5 6 7 H)).
Defined.

(** X8. [cleanupSystemMetrics] drops a stale prefix only.  When every
    timestamp is at or before the cutoff, keepIndex stays 0 and nothing is
    removed (stale samples are all kept); otherwise the samples before the
    first timestamp newer than the cutoff are dropped from the three arrays
    alike, and the first timestamp kept is newer than the cutoff. *)
Theorem cleanupSystemMetrics_prefix (m : MetricsCollector) (now : Z) :
  let ts := system_timestamp (systemMetrics m) in
  let ts' := system_timestamp (systemMetrics (cleanupSystemMetrics m now)) in
  let cutoffTime := now - metricsWindow m in
  (Forall (fun t => t <= cutoffTime) ts -> ts' = ts)
  /\ (Exists (fun t => cutoffTime < t) ts ->
      exists stale t,
        ts = stale ++ ts' /\ Forall (fun t => t <= cutoffTime) stale
        /\ head ts' = Some t /\ cutoffTime < t
        /\ cpuUsage (systemMetrics (cleanupSystemMetrics m now))
           = drop (length stale) (cpuUsage (systemMetrics m))
        /\ memoryUsage (systemMetrics (cleanupSystemMetrics m now))
           = drop (length stale) (memoryUsage (systemMetrics m))).
Proof.
  intros ts ts' cutoffTime. subst ts ts' cutoffTime. simpl. split.
  - intros H. by rewrite (keepIndex_stale _ _ _ H).
  - intros H. destruct (keepIndex_fresh _ _ 0%nat H) as (j & t & E & Hj & Ht & Hst).
    rewrite E. simpl.
    exists (take j (system_timestamp (systemMetrics m))), t.
    assert (Hlen : length (take j (system_timestamp (systemMetrics m))) = j).
    { apply length_take_le. apply lookup_lt_Some in Hj. lia. }
    rewrite Hlen. repeat split; try done.
    + by rewrite take_drop.
    + by rewrite head_lookup, lookup_drop, Nat.add_0_r.
Qed.

Lemma cleanupSystemMetrics_prefix_witness :
  let m := Collector.run 0 [CallCollectSystemMetrics 1048576 0 0 5 5] in
  Forall (fun t => t <= 40000 - metricsWindow m) (system_timestamp (systemMetrics m))
  /\ system_timestamp (systemMetrics (cleanupSystemMetrics m 40000))
     = system_timestamp (systemMetrics m).
Proof.
  intros m.
  assert (H : Forall (fun t => t <= 40000 - metricsWindow m)
                     (system_timestamp (systemMetrics m))).
  { repeat constructor. vm_compute. discriminate. }
  split; [exact H|].
  exact (proj1 (cleanupSystemMetrics_prefix m 40000) H).
Defined.

(** X9. [collectSystemMetrics] then [getMetrics].  If the clock reading of
    the cleanup is less than one window after the reading that stamps the
    sample, and the three system arrays have equal lengths, the sample just
    taken is kept last: a snapshot reports (user + system) / 1000000 as the
    current cpu value and heapUsed / 1024 / 1024 as the current memory
    value, and the three arrays still have equal lengths. *)
Theorem collectSystemMetrics_current (m : MetricsCollector) (heapUsed user system : Q)
    (now now' later : Z) :
  now' - metricsWindow m < now ->
  length (cpuUsage (systemMetrics m)) = length (system_timestamp (systemMetrics m)) ->
  length (memoryUsage (systemMetrics m)) = length (system_timestamp (systemMetrics m)) ->
  let m' := collectSystemMetrics m heapUsed user system now now' in
  current (system_cpu (getMetrics m' later)) = Num ((user + system) / 1000000)
  /\ current (system_memory (getMetrics m' later)) = Num (heapUsed / 1024 / 1024)
  /\ last (system_timestamp (systemMetrics m')) = Some now
  /\ length (cpuUsage (systemMetrics m')) = length (system_timestamp (systemMetrics m'))
  /\ length (memoryUsage (systemMetrics m')) = length (system_timestamp (systemMetrics m')).
Proof.
  intros Hw Hc Hm m'. subst m'. simpl. unfold last_or_zero.
  set (ts := system_timestamp (systemMetrics m) ++ [now]).
  set (k := keepIndex (now' - metricsWindow m) ts 0).
  assert (Hk : (k <= length (system_timestamp (systemMetrics m)))%nat).
  { assert (Hex : Exists (fun t => now' - metricsWindow m < t) ts).
    { apply Exists_app. right. constructor. lia. }
    destruct (keepIndex_fresh _ _ 0%nat Hex) as (j & t & E & Hj & Ht & Hst).
    subst k. rewrite E. simpl. apply lookup_lt_Some in Hj.
    unfold ts in Hj. rewrite length_app in Hj. simpl in Hj. lia. }
  assert (Hlast : forall {A} (l : list A) (x : A),
                    (k <= length l)%nat -> last (drop k (l ++ [x])) = Some x).
  { intros A l x Hl. rewrite drop_app_le by done. apply last_snoc. }
  rewrite !Hlast by lia. unfold ts. rewrite Hlast by lia.
  repeat split; rewrite !length_drop, !length_app; simpl; lia.
Qed.

Lemma collectSystemMetrics_current_witness :
  let m := constructor 0 in
  6 - metricsWindow m < 5
  /\ length (cpuUsage (systemMetrics m)) = length (system_timestamp (systemMetrics m))
  /\ length (memoryUsage (systemMetrics m)) = length (system_timestamp (systemMetrics m))
  /\ current (system_cpu
               (getMetrics (collectSystemMetrics m 1048576 3000000 1000000 5 6) 7))
     = Num ((3000000 + 1000000) / 1000000).
Proof.
  intros m.
  assert (H1 : 6 - metricsWindow m < 5) by reflexivity.
  assert (H2 : length (cpuUsage (systemMetrics m))
               = length (system_timestamp (systemMetrics m))) by reflexivity.
  assert (H3 : length (memoryUsage (systemMetrics m))
               = length (system_timestamp (systemMetrics m))) by reflexivity.
  split; [exact H1|]. split; [exact H2|]. split; [exact H3|].
  exact (proj1 (collectSystemMetrics_current m 1048576 3000000 1000000 5 6 7 H1 H2 H3)).
Defined.

(** X10. [reset] does not clear the system series.  A snapshot taken after
    reset reports the cpu and memory statistics of before the reset, while
    the frame counters, the drop rate, the recent frames and the sample
    counts are zero or empty; the series are all empty after reset exactly
    when the cpu and memory series were empty before. *)
Theorem reset_keeps_system_statistics (m : MetricsCollector) (t now : Z) :
  let s := getMetrics (reset m t) now in
  system_cpu s = system_cpu (getMetrics m now)
  /\ system_memory s = system_memory (getMetrics m now)
  /\ total (snap_frames s) = 0%nat /\ processed (snap_frames s) = 0%nat
  /\ dropped (snap_frames s) = 0%nat /\ dropRate (snap_frames s) = Num 0
  /\ recentFrames s = [] /\ sampleCount s = mkSampleCount 0 0 0
  /\ (all_series_empty (reset m t)
      <-> cpuUsage (systemMetrics m) = [] /\ memoryUsage (systemMetrics m) = []).
Proof. intros s. subst s. unfold all_series_empty. simpl. tauto. Qed.

(** X27. The reported percentiles are nearest-rank percentiles.  For the
    percentiles the collector and the display report (50, 95 and 99; the
    display 50 and 95) and every series of at most 1001 values, which is
    more than either can hold, the index evaluated in doubles is the exact
    index ceil(p/100 * n) - 1: the functions in double arithmetic return
    what the exact ones return. *)
Theorem reported_percentiles_are_nearest_rank (values : list Q) :
  (length values <= 1001)%nat ->
  Double.calculatePercentile values (Double.number 50) = calculatePercentile values 50
  /\ Double.calculatePercentile values (Double.number 95) = calculatePercentile values 95
  /\ Double.calculatePercentile values (Double.number 99) = calculatePercentile values 99
  /\ Double.calculatePercentile_sorted values (Double.number 50)
     = MetricsDisplay.calculatePercentile values 50
  /\ Double.calculatePercentile_sorted values (Double.number 95)
     = MetricsDisplay.calculatePercentile values 95.
Proof.
  intros Hlen. destruct values as [|x r] eqn:E; [done|]. rewrite <- E in *.
  assert (Hn : (1 <= length values <= 1001)%nat) by (subst values; simpl in *; lia).
  destruct (double_index_exact (length values) Hn) as (H50 & H95 & H99).
  unfold Double.calculatePercentile, Double.calculatePercentile_sorted,
    calculatePercentile, MetricsDisplay.calculatePercentile.
  rewrite sort_asc_length, H50, H95, H99. subst values. done.
Qed.

Lemma reported_percentiles_are_nearest_rank_witness :
  let values := [30; 10; 50; 20; 40]%Q in
  (length values <= 1001)%nat
  /\ Double.calculatePercentile values (Double.number 50) = calculatePercentile values 50.
Proof.
  intros values.
  assert (H : (length values <= 1001)%nat) by (vm_compute; lia).
  split; [exact H|].
  exact (proj1 (reported_percentiles_are_nearest_rank values H)).
Defined.

End CollectorProofs.

(** ** The metrics display of the client *)

Section DisplayProofs.
Import JS Display.
Local Open Scope Z_scope.

(** What the display keeps true between calls. *)
Lemma shift_if_over_length {A} (limit : nat) (l : list A) :
  (length l <= S limit)%nat -> (length (shift_if_over limit l) <= limit)%nat.
Proof.
  intros H. unfold shift_if_over.
  destruct (Nat.ltb_spec limit (length l)); [rewrite length_tl|]; lia.
Qed.

Lemma shift_if_over_sublist {A} (limit : nat) (l : list A) :
  sublist (shift_if_over limit l) l.
Proof.
  unfold shift_if_over. destruct (limit <? length l)%nat; [|done].
  destruct l; [done|]. by apply sublist_cons.
Qed.

Lemma latency_sample_nonzero r : Forall (fun q => ~ (q == 0)%Q) (latency_sample r).
Proof.
  unfold latency_sample. destruct (endToEndLatency r) as [q|]; [|done].
  destruct (Qeq_bool q 0) eqn:E; [done|]. repeat constructor.
  intros H. apply Qeq_bool_iff in H. congruence.
Qed.

Lemma latency_sample_length r : (length (latency_sample r) <= 1)%nat.
Proof.
  unfold latency_sample. destruct (endToEndLatency r) as [q|]; [|simpl; lia].
  destruct (Qeq_bool q 0); simpl; lia.
Qed.

Lemma display_inv_updateFPS d now : display_inv d -> display_inv (updateFPS d now).
Proof.
  intros (Hm & Hf & Hl & Hfps & Hc1 & Hc2 & Hnz). unfold updateFPS.
  destruct (1000 <=? now - lastUpdateTime d); [|done].
  repeat split; simpl; try done.
  pose proof (length_filter (fun f => now - timestamp f <= 1000) (frames d)). lia.
Qed.

Lemma display_inv_recordFrame d r now now' :
  display_inv d -> display_inv (recordFrame d r now now').
Proof.
  intros (Hm & Hf & Hl & Hfps & Hc1 & Hc2 & Hnz). unfold recordFrame.
  apply display_inv_updateFPS. rewrite Hm.
  pose proof (latency_sample_length r) as Hs.
  repeat split; simpl; try done.
  - apply shift_if_over_length. rewrite length_app. simpl. lia.
  - apply shift_if_over_length. rewrite length_app. lia.
  - etrans; [apply sublist_length, shift_if_over_sublist|].
    rewrite length_app. simpl. lia.
  - etrans; [apply sublist_length, shift_if_over_sublist|].
    rewrite length_app. lia.
  - apply Forall_forall. intros q Hq.
    pose proof (elem_of_sublist _ _ _ Hq (shift_if_over_sublist _ _)) as Hq'.
    apply elem_of_app in Hq' as [Hq'|Hq'].
    + rewrite Forall_forall in Hnz. by apply Hnz.
    + pose proof (latency_sample_nonzero r) as Hr. rewrite Forall_forall in Hr. by apply Hr.
Qed.

Lemma display_inv_run t0 cs : display_inv (Display.run t0 cs).
Proof.
  unfold Display.run. induction cs as [|c cs IH] using rev_ind.
  - repeat split; simpl; auto with lia.
  - rewrite fold_left_app. simpl. destruct c; simpl.
    + by apply display_inv_recordFrame.
    + destruct IH as (Hm & _). repeat split; simpl; auto with lia.
Qed.

(** X11. Bounds of the client's metrics display.  After any sequence of
    recordFrame and reset calls on a new display, at most 100 frames and 100
    latencies are kept (maxHistorySize), the fps shown is at most 100, the
    frame history is no longer than frameCount, and no latency kept is 0
    (a frame whose endToEndLatency is absent or 0 adds no sample). *)
Theorem display_history_bounded (t0 : Z) (cs : list Display.Call) :
  let d := Display.run t0 cs in
  (length (frames d) <= 100)%nat
  /\ (length (latencies d) <= 100)%nat
  /\ (fps d <= 100)%nat
  /\ (length (frames d) <= frameCount d)%nat
  /\ Forall (fun q => ~ (q == 0)%Q) (latencies d).
Proof.
  intros d. destruct (display_inv_run t0 cs) as (_ & H1 & H2 & H3 & H4 & _ & H5).
  by repeat split.
Qed.

(** The client's percentile of the sorted series is the server's percentile
    of the series. *)
Lemma display_percentile_sorted (values : list Q) (p : Q) :
  MetricsDisplay.calculatePercentile (Metrics.sort_asc values) p
  = Metrics.calculatePercentile values p.
Proof.
  unfold MetricsDisplay.calculatePercentile, Metrics.calculatePercentile.
  destruct values as [|x r]; [done|].
  destruct (Metrics.sort_asc (x :: r)) eqn:E; [|done].
  pose proof (sort_asc_length (x :: r)) as H. rewrite E in H. done.
Qed.

(** X12. [getLatencyStats] of the client.  With no latency recorded every
    field is 0; otherwise min, median, p95 and max are numbers, median and
    p95 are recorded latencies, and min <= median <= p95 <= max.  Nothing is
    said of the average of a non-empty series, which the code rounds. *)
Theorem getLatencyStats_ordered (d : MetricsDisplay) :
  (latencies d = [] ->
   getLatencyStats d = mkLatencyStats (Num 0) (Num 0) (Num 0) (Num 0) (Num 0))
  /\ (latencies d <> [] ->
      exists lo med q95 hi,
        min (getLatencyStats d) = Num lo /\ median (getLatencyStats d) = Num med
        /\ p95 (getLatencyStats d) = Num q95 /\ max (getLatencyStats d) = Num hi
        /\ med ∈ latencies d /\ q95 ∈ latencies d
        /\ (lo <= med)%Q /\ (med <= q95)%Q /\ (q95 <= hi)%Q).
Proof.
  unfold getLatencyStats. split; [by intros ->|]. intros Hne.
  destruct (latencies d) as [|x r] eqn:E; [done|]. rewrite <- E in *.
  assert (Hs : Metrics.sort_asc (latencies d) <> []).
  { intros E'. pose proof (sort_asc_length (latencies d)) as H.
    rewrite E', E in H. done. }
  rewrite !display_percentile_sorted.
  destruct (percentile_order _ 50 95 Hne) as (lo0 & med & q95 & hi0 & _ & Emed & E95 & _
    & Hmed & H95 & _ & H2 & _); [reflexivity | discriminate | discriminate |].
  destruct (Math_min_spec _ Hs) as (lo & Elo & Hlo).
  destruct (Math_max_spec _ Hs) as (hi & Ehi & Hhi).
  exists lo, med, q95, hi. cbn [min median p95 max].
  rewrite Emed, E95, Elo, Ehi.
  rewrite Forall_forall in Hlo, Hhi.
  repeat split; try done.
  - apply Hlo. by rewrite sort_asc_perm.
  - apply Hhi. by rewrite sort_asc_perm.
Qed.

Lemma getLatencyStats_ordered_witness :
  let d := Display.run 0
             [Display.CallRecordFrame (mkFrameResult "f1" 0 1 2 (Some 12%Q) None None) 3 3;
              Display.CallRecordFrame (mkFrameResult "f2" 3 4 5 (Some 0%Q) None None) 6 6;
              Display.CallRecordFrame (mkFrameResult "f3" 6 7 8 (Some 7%Q) None None) 9 10] in
  latencies d <> []
  /\ exists lo med q95 hi,
       min (getLatencyStats d) = Num lo /\ median (getLatencyStats d) = Num med
       /\ p95 (getLatencyStats d) = Num q95 /\ max (getLatencyStats d) = Num hi
       /\ med ∈ latencies d /\ q95 ∈ latencies d
       /\ (lo <= med)%Q /\ (med <= q95)%Q /\ (q95 <= hi)%Q.
Proof.
  intros d.
  assert (H : latencies d <> []) by (vm_compute; discriminate).
  split; [exact H|]. exact (proj2 (getLatencyStats_ordered d) H).
Defined.

End DisplayProofs.

(** ** The admission queue and its promises *)

Section QueueProofs.
Import JS DetectionService Promises.
Local Open Scope nat_scope.

Lemma settled_app t1 t2 : settled (t1 ++ t2) = settled t1 ++ settled t2.
Proof. apply omap_app. Qed.

Lemma run_from_acc w evs acc :
  fold_left (fun acc ev => let '(w', obs) := step acc.1 ev in (w', acc.2 ++ obs))
            evs (w, acc)
  = ((run_from w evs).1, acc ++ (run_from w evs).2).
Proof.
  unfold run_from. revert w acc. induction evs as [|ev evs IH]; intros w acc; simpl.
  - by rewrite app_nil_r.
  - destruct (step w ev) as [w1 o1]. simpl. rewrite (IH w1 (acc ++ o1)), (IH w1 o1).
    simpl. by rewrite app_assoc.
Qed.

Lemma run_from_cons w ev evs :
  run_from w (ev :: evs)
  = ((run_from (step w ev).1 evs).1, (step w ev).2 ++ (run_from (step w ev).1 evs).2).
Proof.
  unfold run_from at 1. simpl. destruct (step w ev) as [w1 o1]. simpl.
  apply run_from_acc.
Qed.

Lemma run_from_app w evs1 evs2 :
  run_from w (evs1 ++ evs2)
  = ((run_from (run_from w evs1).1 evs2).1,
     (run_from w evs1).2 ++ (run_from (run_from w evs1).1 evs2).2).
Proof.
  unfold run_from at 1. rewrite fold_left_app.
  fold (run_from w evs1). destruct (run_from w evs1) as [w1 t1]. simpl.
  apply run_from_acc.
Qed.

(** The trace of [runInference]'s log followed by the settlement. *)
Lemma runInference_logged s c rnd :
  settled (runInference s c rnd).2 = [] /\ dispatched (runInference s c rnd).2 = []
  /\ enqueued (runInference s c rnd).2 = [].
Proof. unfold runInference. by destruct (session s), c. Qed.

(** One completion while an entry is in flight. *)
Lemma settle_busy w a c rnd :
  activations w = [a] ->
  let r := settle w 0 c rnd in
  activations r.1 = option_list (head (queue_of w))
  /\ queue_of r.1 = tail (queue_of w)
  /\ isProcessing (service r.1)
     = (if queue_of w is [] then false else isProcessing (service w))
  /\ nextPromise r.1 = nextPromise w
  /\ session (service r.1) = session (service w)
  /\ dispatched r.2 = option_list (head (queue_of w))
  /\ settled r.2 = [promise a]
  /\ enqueued r.2 = [].
Proof.
  intros Ha. unfold settle, loop, queue_of. rewrite Ha. simpl.
  destruct (runInference_logged (service w) c rnd) as (H1 & H2 & H3).
  destruct (runInference (service w) c rnd) as [r logged]. simpl in *.
  destruct (processingQueue (service w)) as [|e q] eqn:E; simpl;
    rewrite settled_app, dispatched_app, enqueued_app, H1, H2, H3, ?E; simpl;
    by repeat split.
Qed.

(** One call of [detectServerSide]. *)
Lemma detect_cases w img :
  let e := mkEntry img (nextPromise w) in
  let pushed := drop_oldest_if_full (service w) ++ [e] in
  let r := detectServerSide w img in
  nextPromise r.1 = S (nextPromise w)
  /\ enqueued r.2 = [e] /\ settled r.2 = []
  /\ isProcessing (service r.1) = true
  /\ if isProcessing (service w)
     then activations r.1 = activations w /\ queue_of r.1 = pushed /\ dispatched r.2 = []
     else activations r.1 = activations w ++ option_list (head pushed)
          /\ queue_of r.1 = tail pushed
          /\ dispatched r.2 = option_list (head pushed).
Proof.
  intros e pushed r. subst r. unfold detectServerSide, processQueue, loop, queue_of.
  fold e. fold pushed. simpl.
  assert (Hp : exists x l, pushed = x :: l).
  { unfold pushed. destruct (drop_oldest_if_full (service w)); simpl; eauto. }
  destruct Hp as (x & l & Hp). rewrite Hp. simpl.
  destruct (isProcessing (service w)) eqn:E; simpl; rewrite ?E; by repeat split.
Qed.

(** Results are delivered in dispatch order: the promises settled so far are
    those of the dispatched entries, but for the one in flight. *)
Lemma settled_step w tr ev :
  Inv w tr ->
  promise <$> dispatched tr = settled tr ++ (promise <$> activations w) ->
  promise <$> dispatched (tr ++ (step w ev).2)
  = settled (tr ++ (step w ev).2) ++ (promise <$> activations (step w ev).1).
Proof.
  intros HI H. pose proof (inv_flag _ _ HI) as Hflag.
  rewrite dispatched_app, settled_app, fmap_app, H.
  destruct ev as [img|k c rnd]; simpl.
  - destruct (detect_cases w img) as (_ & _ & Hs & _ & Hc). rewrite Hs.
    destruct (activations w) as [|a [|a' l]] eqn:Ha; [| |done].
    + destruct Hflag as [Hip _]. rewrite Hip in Hc. destruct Hc as (-> & _ & ->).
      simpl. by rewrite ?app_nil_r, <- ?app_assoc.
    + rewrite Hflag in Hc. destruct Hc as (-> & _ & ->).
      simpl. by rewrite ?app_nil_r, <- ?app_assoc.
  - destruct (activations w) as [|a [|a' l]] eqn:Ha; [| |done].
    + unfold settle. rewrite Ha. simpl. by rewrite Ha, ?app_nil_r.
    + destruct k as [|k].
      * destruct (settle_busy w a c rnd Ha) as (-> & _ & _ & _ & _ & -> & -> & _).
        simpl. by rewrite ?app_nil_r, <- ?app_assoc.
      * unfold settle. rewrite Ha. simpl. by rewrite Ha, ?app_nil_r.
Qed.

Lemma settled_run b evs :
  promise <$> dispatched (run b evs).2
  = settled (run b evs).2 ++ (promise <$> activations (run b evs).1).
Proof.
  unfold run. induction evs as [|ev evs IH] using rev_ind; [done|].
  rewrite run_from_snoc.
  pose proof (settled_step _ _ ev (inv_run b evs) IH) as H. unfold run in H.
  destruct (step (run_from (boot b) evs).1 ev). exact H.
Qed.

Lemma enqueued_promises_nodup w tr : Inv w tr -> NoDup (promise <$> enqueued tr).
Proof. intros HI. rewrite (inv_enq _ _ HI). apply NoDup_seq. Qed.

Lemma dispatched_promises_nodup w tr : Inv w tr -> NoDup (promise <$> dispatched tr).
Proof.
  intros HI. eapply sublist_NoDup; [by eapply enqueued_promises_nodup|].
  apply fmap_sublist. by eapply dispatched_sublist.
Qed.

(** X13. Promises settle in dispatch order.  In every run of the detection
    service, the promises settled so far followed by the promise of the
    inference in flight (if any) are exactly the promises of the dispatched
    entries, in order; no promise is settled twice, and there are never more
    settlements than dispatches nor more dispatches than admissions. *)
Theorem settled_in_dispatch_order (b : Boot) (evs : list Event) :
  let w := (run b evs).1 in
  let tr := (run b evs).2 in
  promise <$> dispatched tr = settled tr ++ (promise <$> activations w)
  /\ NoDup (settled tr)
  /\ (length (settled tr) <= length (dispatched tr) <= length (enqueued tr)).
Proof.
  intros w tr. pose proof (inv_run b evs) as HI. fold w tr in HI.
  pose proof (settled_run b evs) as H. fold w tr in H.
  split; [done|]. split.
  - pose proof (dispatched_promises_nodup _ _ HI) as Hnd. rewrite H in Hnd.
    by apply NoDup_app in Hnd as [Hnd _].
  - split.
    + rewrite <- (length_fmap promise (dispatched tr)), H, length_app. lia.
    + apply sublist_length. by eapply dispatched_sublist.
Qed.

(** With an entry in flight, as many completions as there are entries in
    flight and queued drain the pipeline. *)
Lemma drain_busy (q : list Entry) :
  forall w a outcomes,
    activations w = [a] -> queue_of w = q -> length outcomes = S (length q) ->
    let r := run_from w (completions outcomes) in
    activations r.1 = [] /\ queue_of r.1 = []
    /\ isProcessing (service r.1) = false
    /\ dispatched r.2 = q
    /\ settled r.2 = promise a :: (promise <$> q)
    /\ enqueued r.2 = [].
Proof.
  induction q as [|e q IH]; intros w a outcomes Ha Hq Hlen.
  - destruct outcomes as [|o [|o' os]]; try done. simpl.
    rewrite run_from_cons. simpl.
    destruct (settle_busy w a o.1 o.2 Ha) as (H1 & H2 & H3 & _ & _ & H4 & H5 & H6).
    rewrite Hq in *. simpl in *. rewrite ?app_nil_r. by repeat split.
  - destruct outcomes as [|o os]; [done|]. simpl in Hlen. injection Hlen as Hlen.
    cbn [completions map]. rewrite run_from_cons. cbn [step fst snd].
    destruct (settle_busy w a o.1 o.2 Ha) as (H1 & H2 & H3 & _ & _ & H4 & H5 & H6).
    rewrite Hq in *. simpl in H1, H2, H4.
    destruct (IH (settle w 0 o.1 o.2).1 e os H1 H2 Hlen) as (G1 & G2 & G3 & G4 & G5 & G6).
    fold (completions os). rewrite dispatched_app, settled_app, enqueued_app.
    rewrite G4, G5, G6, H4, H5, H6. by repeat split.
Qed.

(** X14. The drain loop empties the queue.  From any reachable state, once
    as many inferences have completed as there are entries in flight or
    queued, with no new frame admitted meanwhile, nothing is in flight, the
    queue is empty and isProcessing is false; the queued entries were
    dispatched in queue order, and the promise of the entry in flight and
    then those of the queued entries were settled in that order, whatever
    the outcome of each inference. *)
Theorem drain_empties_queue (b : Boot) (evs : list Event)
    (outcomes : list (Collaborator * (nat -> Q))) :
  let w := (run b evs).1 in
  length outcomes = length (activations w) + length (queue_of w) ->
  let r := run_from w (completions outcomes) in
  activations r.1 = [] /\ queue_of r.1 = []
  /\ isProcessing (service r.1) = false
  /\ dispatched r.2 = queue_of w
  /\ settled r.2 = (promise <$> activations w) ++ (promise <$> queue_of w)
  /\ enqueued r.2 = [].
Proof.
  intros w Hlen. pose proof (inv_flag _ _ (inv_run b evs)) as Hflag. fold w in Hflag.
  destruct (activations w) as [|a [|a' l]] eqn:Ha; [| |done].
  - destruct Hflag as [Hip Hq]. rewrite Hq in *. simpl in Hlen.
    destruct outcomes; [|done]. simpl. by rewrite Ha, Hq.
  - simpl in Hlen. exact (drain_busy (queue_of w) w a outcomes Ha eq_refl Hlen).
Qed.

Lemma drain_empties_queue_witness :
  let evs := [Detect "f0"; Detect "f1"; Detect "f2"] in
  let outcomes := [(Returns, fun _ => 0%Q); (Throws (Thrown "x"), fun _ => 0%Q);
                   (Returns, fun _ => 0%Q)] in
  let w := (run (Initialized server true) evs).1 in
  length outcomes = length (activations w) + length (queue_of w)
  /\ queue_of (run_from w (completions outcomes)).1 = []
  /\ isProcessing (service (run_from w (completions outcomes)).1) = false.
Proof.
  intros evs outcomes w.
  assert (H : length outcomes = length (activations w) + length (queue_of w))
    by reflexivity.
  split; [exact H|].
  destruct (drain_empties_queue (Initialized server true) evs outcomes H)
    as (_ & H1 & H2 & _).
  split; [exact H1 | exact H2].
Defined.

Lemma entries_snoc p imgs img :
  entries p (imgs ++ [img]) = entries p imgs ++ [mkEntry img (p + length imgs)].
Proof.
  revert p. induction imgs as [|x imgs IH]; intros p; simpl.
  - by rewrite Nat.add_0_r.
  - rewrite IH. by replace (S p + length imgs) with (p + S (length imgs)) by lia.
Qed.

Lemma entries_length p imgs : length (entries p imgs) = length imgs.
Proof. revert p. induction imgs as [|x imgs IH]; intros p; simpl; [done|]. by rewrite IH. Qed.

Lemma tail_drop {A} (k : nat) (l : list A) : tail (drop k l) = drop (S k) l.
Proof.
  revert k. induction l as [|x l IH]; intros k; [by destruct k|].
  destruct k; simpl; [by rewrite drop_0 | apply IH].
Qed.

(** Pushing on a queue that keeps the last [k] entries. *)
Lemma lastn_snoc {A} (k : nat) (l : list A) (x : A) :
  0 < k ->
  (if k <=? length (lastn k l) then tail (lastn k l) else lastn k l) ++ [x]
  = lastn k (l ++ [x]).
Proof.
  intros Hk. unfold lastn. rewrite length_drop, length_app. simpl.
  destruct (Nat.leb_spec k (length l - (length l - k))) as [H|H].
  - rewrite tail_drop. rewrite drop_app_le by lia. f_equal. f_equal. lia.
  - replace (length l - k) with 0 by lia. replace (length l + 1 - k) with 0 by lia.
    by rewrite !drop_0.
Qed.

Lemma run_snoc b evs ev :
  run b (evs ++ [ev])
  = ((step (run b evs).1 ev).1, (run b evs).2 ++ (step (run b evs).1 ev).2).
Proof.
  unfold run. rewrite run_from_snoc. by destruct (step (run_from (boot b) evs).1 ev).
Qed.

(** The state after a burst of detect calls with no completion in between. *)
Lemma burst_state b img imgs :
  let w := (run b (Detect <$> (img :: imgs))).1 in
  let tr := (run b (Detect <$> (img :: imgs))).2 in
  activations w = [mkEntry img 0]
  /\ queue_of w = lastn 10 (entries 1 imgs)
  /\ nextPromise w = S (length imgs)
  /\ isProcessing (service w) = true
  /\ maxQueueSize (service w) = 10
  /\ enqueued tr = entries 0 (img :: imgs)
  /\ dispatched tr = [mkEntry img 0]
  /\ settled tr = [].
Proof.
  induction imgs as [|x imgs IH] using rev_ind.
  - destruct b as [m|[] []]; by repeat split.
  - intros w tr. subst w tr. rewrite app_comm_cons, fmap_app.
    change (Detect <$> [x]) with [Detect x]. rewrite run_snoc. cbn [fst snd step].
    destruct IH as (I1 & I2 & I3 & I4 & I5 & I6 & I7 & I8).
    set (w := (run b (Detect <$> img :: imgs)).1) in *.
    set (tr := (run b (Detect <$> img :: imgs)).2) in *.
    destruct (detect_cases w x) as (H1 & He & Hs & H2 & H3).
    rewrite I4 in H3. destruct H3 as (H3 & H4 & H5).
    assert (Hm : maxQueueSize (service (detectServerSide w x).1) = 10).
    { unfold detectServerSide, processQueue. simpl. rewrite I4. simpl. exact I5. }
    rewrite enqueued_app, dispatched_app, settled_app.
    rewrite H3, H4, H5, H1, He, Hs, I1, I3, I6, I7, I8. repeat split; try done.
    + unfold drop_oldest_if_full. fold (queue_of w). rewrite I5, I2.
      rewrite entries_snoc.
      apply (lastn_snoc 10 (entries 1 imgs) (mkEntry x (S (length imgs)))). lia.
    + rewrite length_app. simpl. lia.
    + change (mkEntry img 0 :: entries 1 imgs) with (entries 0 (img :: imgs)).
      rewrite <- app_comm_cons. change (img :: imgs ++ [x]) with ((img :: imgs) ++ [x]).
      rewrite entries_snoc. simpl. done.
Qed.

(** X15. A burst keeps the newest frames.  When n + 1 frames are admitted
    with no inference completing in between, the first is dispatched at
    once and stays in flight, the queue holds the last min(10, n) of the
    others in arrival order, and no promise has been settled. *)
Theorem burst_keeps_newest (b : Boot) (img : Image) (imgs : list Image) :
  let w := (run b (Detect <$> (img :: imgs))).1 in
  let tr := (run b (Detect <$> (img :: imgs))).2 in
  activations w = [mkEntry img 0]
  /\ queue_of w = lastn 10 (entries 1 imgs)
  /\ length (queue_of w) = Nat.min 10 (length imgs)
  /\ dispatched tr = [mkEntry img 0]
  /\ settled tr = [].
Proof.
  intros w tr.
  destruct (burst_state b img imgs) as (H1 & H2 & _ & _ & _ & _ & H3 & H4).
  fold w in H1, H2. fold tr in H3, H4.
  repeat split; try done.
  rewrite H2. unfold lastn. rewrite length_drop, entries_length. lia.
Qed.

Lemma NoDup_fmap_inj {A B} (f : A -> B) (l : list A) (x y : A) :
  NoDup (f <$> l) -> x ∈ l -> y ∈ l -> f x = f y -> x = y.
Proof.
  induction l as [|z l IH]; intros Hnd Hx Hy Hf; [by apply elem_of_nil in Hx|].
  rewrite fmap_cons in Hnd. apply NoDup_cons in Hnd as [Hz Hnd].
  apply elem_of_cons in Hx as [->|Hx]; apply elem_of_cons in Hy as [->|Hy]; try done.
  - exfalso. apply Hz. rewrite Hf. by apply list_elem_of_fmap_2.
  - exfalso. apply Hz. rewrite <- Hf. by apply list_elem_of_fmap_2.
  - by apply IH.
Qed.

(** Whatever a step dispatches or leaves in the queue was in the queue before
    or is the entry the step has just built. *)
Lemma step_members w tr ev y :
  Inv w tr ->
  y ∈ dispatched (step w ev).2 ++ queue_of (step w ev).1 ->
  y ∈ queue_of w \/ promise y = nextPromise w.
Proof.
  intros HI Hy. pose proof (inv_flag _ _ HI) as Hflag.
  destruct ev as [img|k c rnd]; simpl in Hy.
  - destruct (detect_cases w img) as (_ & _ & _ & _ & Hc).
    assert (Hp : forall z, z ∈ drop_oldest_if_full (service w)
                            ++ [mkEntry img (nextPromise w)] ->
                           z ∈ queue_of w \/ promise z = nextPromise w).
    { intros z Hz. apply elem_of_app in Hz as [Hz|Hz].
      - left. eapply elem_of_sublist; [exact Hz | apply drop_oldest_sublist].
      - apply list_elem_of_singleton in Hz as ->. by right. }
    destruct (isProcessing (service w)).
    + destruct Hc as (_ & Hq & Hd). rewrite Hq, Hd in Hy. simpl in Hy. by apply Hp.
    + destruct Hc as (_ & Hq & Hd). rewrite Hq, Hd in Hy. apply Hp.
      destruct (drop_oldest_if_full (service w) ++ [mkEntry img (nextPromise w)]);
        simpl in *; done.
  - destruct (activations w) as [|a [|a' l]] eqn:Ha; [| |done].
    + unfold settle in Hy. rewrite Ha in Hy. simpl in Hy. by left.
    + destruct k as [|k].
      * destruct (settle_busy w a c rnd Ha) as (_ & Hq & _ & _ & _ & Hd & _).
        rewrite Hq, Hd in Hy. left. destruct (queue_of w); simpl in *; done.
      * unfold settle in Hy. rewrite Ha in Hy. simpl in Hy. by left.
Qed.

Lemma lost_step w tr ev e :
  Inv w tr -> e ∈ enqueued tr -> e ∉ dispatched tr -> e ∉ queue_of w ->
  (e ∉ dispatched (tr ++ (step w ev).2)) /\ (e ∉ queue_of (step w ev).1).
Proof.
  intros HI He Hd Hq.
  assert (Hlt : promise e < nextPromise w).
  { apply (list_elem_of_fmap_2 promise) in He. rewrite (inv_enq _ _ HI) in He.
    apply elem_of_seq in He. lia. }
  assert (Hn : e ∉ dispatched (step w ev).2 ++ queue_of (step w ev).1).
  { intros H. apply (step_members _ _ _ _ HI) in H as [H|H]; [done | lia]. }
  rewrite dispatched_app. split.
  - intros H. apply elem_of_app in H as [H|H]; [done|].
    apply Hn. apply elem_of_app. by left.
  - intros H. apply Hn. apply elem_of_app. by right.
Qed.

Lemma run_app b evs evs' :
  run b (evs ++ evs')
  = ((run_from (run b evs).1 evs').1, (run b evs).2 ++ (run_from (run b evs).1 evs').2).
Proof. unfold run. apply run_from_app. Qed.

(** X16. An evicted frame is never answered.  An entry that was admitted,
    was not dispatched and is no longer in the queue (it was shifted out of
    the full queue) is never dispatched or queued again, and its promise is
    never settled, whatever happens afterwards. *)
Theorem evicted_never_answered (b : Boot) (evs evs' : list Event) (e : Entry) :
  (e ∈ enqueued (run b evs).2) ->
  (e ∉ dispatched (run b evs).2) ->
  (e ∉ queue_of (run b evs).1) ->
  (e ∉ dispatched (run b (evs ++ evs')).2)
  /\ (e ∉ queue_of (run b (evs ++ evs')).1)
  /\ (promise e ∉ settled (run b (evs ++ evs')).2).
Proof.
  intros He Hd Hq.
  assert (Hen : forall evs', e ∈ enqueued (run b (evs ++ evs')).2).
  { intros l. rewrite run_app. simpl. rewrite enqueued_app. apply elem_of_app. by left. }
  assert (H : (e ∉ dispatched (run b (evs ++ evs')).2)
              /\ (e ∉ queue_of (run b (evs ++ evs')).1)).
  { induction evs' as [|ev evs' IH] using rev_ind; [by rewrite app_nil_r|].
    rewrite app_assoc, run_snoc. simpl. destruct IH as [IH1 IH2].
    apply (lost_step _ _ ev e (inv_run b (evs ++ evs')) (Hen evs') IH1 IH2). }
  destruct H as [H1 H2]. split; [done|]. split; [done|].
  intros Hs. pose proof (inv_run b (evs ++ evs')) as HI.
  assert (Hp : promise e ∈ promise <$> dispatched (run b (evs ++ evs')).2).
  { rewrite settled_run. apply elem_of_app. by left. }
  apply list_elem_of_fmap in Hp as (d & Hpd & Hdd).
  assert (d = e); [|by subst].
  eapply (NoDup_fmap_inj promise); [by eapply enqueued_promises_nodup| | |done].
  - eapply elem_of_sublist; [exact Hdd | by eapply dispatched_sublist].
  - apply Hen.
Qed.

Lemma evicted_never_answered_witness :
  let evs := Detect <$> replicate 12 "frame" in
  let evs' := [InferenceEnds 0 Returns (fun _ => 0%Q);
               InferenceEnds 0 Returns (fun _ => 0%Q)] in
  let e := mkEntry "frame" 1 in
  (e ∈ enqueued (run (Initialized server true) evs).2)
  /\ (e ∉ dispatched (run (Initialized server true) evs).2)
  /\ (e ∉ queue_of (run (Initialized server true) evs).1)
  /\ (promise e ∉ settled (run (Initialized server true) (evs ++ evs')).2).
Proof.
  intros evs evs' e.
  assert (H1 : e ∈ enqueued (run (Initialized server true) evs).2).
  { vm_compute. apply list_elem_of_In. simpl. tauto. }
  assert (H2 : e ∉ dispatched (run (Initialized server true) evs).2).
  { vm_compute. intros H. apply list_elem_of_In in H. simpl in H.
    intuition discriminate. }
  assert (H3 : e ∉ queue_of (run (Initialized server true) evs).1).
  { vm_compute. intros H. apply list_elem_of_In in H. simpl in H.
    intuition discriminate. }
  split; [exact H1|]. split; [exact H2|]. split; [exact H3|].
  exact (proj2 (proj2 (evicted_never_answered (Initialized server true) evs evs' e
                         H1 H2 H3))).
Defined.

End QueueProofs.

(** ** The replies of the server *)

Section ReplyProofs.
Import JS DetectionService Promises Server Replies.
Local Open Scope nat_scope.

Lemma results_app r1 r2 : results (r1 ++ r2) = results r1 ++ results r2.
Proof. apply omap_app. Qed.

Lemma resume_counts srv req r now :
  let s' := (resume srv req r now).1 in
  let n := length (results (resume srv req r now).2) in
  Metrics.processedFrames (metricsCollector s')
    = Metrics.processedFrames (metricsCollector srv) + n
  /\ Metrics.totalFrames (metricsCollector s')
    = Metrics.totalFrames (metricsCollector srv) + n
  /\ n = (if r is Resolved _ then 1 else 0)
  /\ detectionService s' = detectionService srv /\ awaiting s' = awaiting srv.
Proof. destruct r; simpl; repeat split; lia. Qed.

Lemma notify_counts now acc o :
  let acc' := notify now acc o in
  Metrics.processedFrames (metricsCollector acc'.1) + length (results acc.2)
    = Metrics.processedFrames (metricsCollector acc.1) + length (results acc'.2)
  /\ Metrics.totalFrames (metricsCollector acc'.1) + length (results acc.2)
    = Metrics.totalFrames (metricsCollector acc.1) + length (results acc'.2)
  /\ detectionService acc'.1 = detectionService acc.1.
Proof.
  unfold notify. destruct o; try (simpl; repeat split; lia).
  destruct (awaiting acc.1 !! p) as [req|]; [|simpl; repeat split; lia].
  match goal with |- context [resume ?s req r now] =>
    destruct (resume_counts s req r now) as (H1 & H2 & _ & H3 & _);
    destruct (resume s req r now) as [s' rs] end.
  simpl in *. rewrite results_app, length_app. repeat split; try lia. done.
Qed.

Lemma fold_notify_counts now obs acc :
  let acc' := fold_left (notify now) obs acc in
  Metrics.processedFrames (metricsCollector acc'.1) + length (results acc.2)
    = Metrics.processedFrames (metricsCollector acc.1) + length (results acc'.2)
  /\ Metrics.totalFrames (metricsCollector acc'.1) + length (results acc.2)
    = Metrics.totalFrames (metricsCollector acc.1) + length (results acc'.2)
  /\ detectionService acc'.1 = detectionService acc.1.
Proof.
  revert acc. induction obs as [|o obs IH]; intros acc; simpl; [repeat split; lia|].
  destruct (IH (notify now acc o)) as (H1 & H2 & H3).
  destruct (notify_counts now acc o) as (G1 & G2 & G3).
  repeat split; try lia. congruence.
Qed.

(** X17. Every result sent is recorded once.  A detect-frame request or an
    inference completion adds to processedFrames and to totalFrames exactly
    the number of detection results it sends, and leaves droppedFrames
    unchanged (an error reply records nothing). *)
Theorem results_are_recorded (srv : WebRTCVLMServer) (ev : Server.Event) :
  (forall now, ev <> MetricsReset now) ->
  let srv' := (Server.step srv ev).1 in
  let n := length (results (Server.step srv ev).2) in
  Metrics.processedFrames (metricsCollector srv')
    = Metrics.processedFrames (metricsCollector srv) + n
  /\ Metrics.totalFrames (metricsCollector srv')
    = Metrics.totalFrames (metricsCollector srv) + n
  /\ Metrics.droppedFrames (metricsCollector srv')
    = Metrics.droppedFrames (metricsCollector srv).
Proof.
  intros Hev srv' n. subst srv' n.
  split; [|split]; [| |rewrite step_dropped; destruct ev; try done; by destruct (Hev now)].
  - destruct ev as [img fid cts now rnd | k c rnd now | now]; simpl;
      [| |by destruct (Hev now)].
    + destruct (detectObjects (detectionService srv) img rnd) as [[w' obs] [r|p]].
      * match goal with |- context [resume ?s ?q r now] =>
          by destruct (resume_counts s q r now) as (H1 & _) end.
      * match goal with |- context [fold_left (notify now) obs ?a] =>
          destruct (fold_notify_counts now obs a) as (H1 & _) end.
        simpl in *. lia.
    + destruct (settle (detectionService srv) k c rnd) as [w' obs].
      match goal with |- context [fold_left (notify now) obs ?a] =>
        destruct (fold_notify_counts now obs a) as (H1 & _) end.
      simpl in *. lia.
  - destruct ev as [img fid cts now rnd | k c rnd now | now]; simpl;
      [| |by destruct (Hev now)].
    + destruct (detectObjects (detectionService srv) img rnd) as [[w' obs] [r|p]].
      * match goal with |- context [resume ?s ?q r now] =>
          by destruct (resume_counts s q r now) as (_ & H2 & _) end.
      * match goal with |- context [fold_left (notify now) obs ?a] =>
          destruct (fold_notify_counts now obs a) as (_ & H2 & _) end.
        simpl in *. lia.
    + destruct (settle (detectionService srv) k c rnd) as [w' obs].
      match goal with |- context [fold_left (notify now) obs ?a] =>
        destruct (fold_notify_counts now obs a) as (_ & H2 & _) end.
      simpl in *. lia.
Qed.

Lemma results_are_recorded_witness :
  let srv := Server.run (start wasm true 0) [] in
  let ev := DetectFrame "img" "f1" 3 5 (fun _ => 0.5%Q) in
  (forall now, ev <> MetricsReset now)
  /\ Metrics.processedFrames (metricsCollector (Server.step srv ev).1)
     = Metrics.processedFrames (metricsCollector srv)
       + length (results (Server.step srv ev).2).
Proof.
  intros srv ev.
  assert (H : forall now, ev <> MetricsReset now) by (intros now; discriminate).
  split; [exact H|]. exact (proj1 (results_are_recorded srv ev H)).
Defined.

Lemma requests_app e1 e2 : requests (e1 ++ e2) = requests e1 ++ requests e2.
Proof. apply omap_app. Qed.

Lemma run_replies_snoc srv evs ev :
  run_replies srv (evs ++ [ev])
  = ((Server.step (run_replies srv evs).1 ev).1,
     (run_replies srv evs).2 ++ (Server.step (run_replies srv evs).1 ev).2).
Proof.
  unfold run_replies. rewrite fold_left_app. simpl.
  by destruct (Server.step _ ev).
Qed.

Lemma request_of_result req dets now :
  request_of (Metrics.mkFrameData (frameId req) (captureTs req) (recvTs req) now dets)
  = req.
Proof. by destruct req. Qed.

Lemma pipeline_ok_detect w img :
  pipeline_ok w ->
  pipeline_ok (detectServerSide w img).1
  /\ exists kept,
       sublist kept (unsettled w)
       /\ unsettled (detectServerSide w img).1 = kept ++ [mkEntry img (nextPromise w)].
Proof.
  intros [Hflag Hsub]. unfold pipeline_ok, unsettled in *.
  destruct (detect_cases w img) as (Hn & _ & _ & Hip & Hc).
  assert (Hkept : exists kept,
            sublist kept (activations w ++ queue_of w)
            /\ activations (detectServerSide w img).1 ++ queue_of (detectServerSide w img).1
               = kept ++ [mkEntry img (nextPromise w)]
            /\ (exists a, activations (detectServerSide w img).1 = [a])).
  { destruct (activations w) as [|a [|a' l]] eqn:Ha; [| |done].
    - destruct Hflag as [Hf Hq]. rewrite Hf in Hc. destruct Hc as (-> & -> & _).
      assert (Hd : drop_oldest_if_full (service w) = []).
      { unfold drop_oldest_if_full. unfold queue_of in Hq. rewrite Hq.
        by destruct (maxQueueSize (service w) <=? length []). }
      rewrite Hd. simpl. exists []. repeat split; [apply sublist_nil_l | eauto].
    - rewrite Hflag in Hc. destruct Hc as (-> & -> & _).
      exists ([a] ++ drop_oldest_if_full (service w)). repeat split.
      + apply sublist_app; [done | apply drop_oldest_sublist].
      + eauto. }
  destruct Hkept as (kept & Hk1 & Hk2 & a & Ha). split.
  - split; [by rewrite Ha|].
    rewrite Hk2, Hn, fmap_app, seq_S. simpl.
    apply sublist_app; [|done]. etrans; [|exact Hsub]. by apply fmap_sublist.
  - by exists kept.
Qed.

Lemma pipeline_ok_settle w k c rnd :
  pipeline_ok w ->
  pipeline_ok (settle w k c rnd).1
  /\ (settle w k c rnd = (w, [])
      \/ exists a r,
           unsettled w = a :: unsettled (settle w k c rnd).1
           /\ r = (runInference (service w) c rnd).1
           /\ (settle w k c rnd).2
              = (runInference (service w) c rnd).2 ++ Settled (promise a) r
                :: option_list (Dispatched <$> head (queue_of w))).
Proof.
  intros [Hflag Hsub]. unfold pipeline_ok, unsettled in *.
  destruct (activations w) as [|a [|a' l]] eqn:Ha; [| |done].
  - unfold settle. rewrite Ha. simpl. rewrite Ha. split; [done | by left].
  - destruct k as [|k]; [|unfold settle; rewrite Ha; simpl; rewrite Ha; split; [done | by left]].
    destruct (settle_busy w a c rnd Ha) as (H1 & H2 & H3 & H4 & _).
    split.
    + rewrite H1, H2, H3, H4. split.
      * destruct (queue_of w); simpl; [done | exact Hflag].
      * etrans; [|exact Hsub]. simpl. apply sublist_cons.
        destruct (queue_of w); simpl; done.
    + right. exists a, (runInference (service w) c rnd).1.
      rewrite H1, H2. split; [by destruct (queue_of w)|]. split; [done|].
      unfold settle, loop, queue_of. rewrite Ha. simpl.
      destruct (runInference (service w) c rnd) as [r logged]. simpl.
      by destruct (processingQueue (service w)).
Qed.

Lemma Forall2_sublist_l {A B} (R : A -> B -> Prop) (l l' : list A) (k : list B) :
  Forall2 R l k -> sublist l' l ->
  exists k', sublist k' k /\ Forall2 R l' k'.
Proof.
  intros HF Hs. revert k HF. induction Hs as [|x l1 l2 Hs IH|x l1 l2 Hs IH]; intros k HF.
  - exists []. split; [apply sublist_nil_l | constructor].
  - apply Forall2_cons_inv_l in HF as (y & k0 & Hxy & HF & ->).
    destruct (IH _ HF) as (k' & Hk & HF'). exists (y :: k'). split; [by apply sublist_skip|].
    by constructor.
  - apply Forall2_cons_inv_l in HF as (y & k0 & Hxy & HF & ->).
    destruct (IH _ HF) as (k' & Hk & HF'). exists k'. split; [by apply sublist_cons|done].
Qed.

Lemma Forall2_impl_l {A B} (R R' : A -> B -> Prop) (P : A -> Prop) (l : list A) (k : list B) :
  Forall2 R l k -> Forall P l -> (forall x y, P x -> R x y -> R' x y) -> Forall2 R' l k.
Proof.
  intros HF HP Himp. induction HF as [|x y l k Hxy HF IH]; [constructor|].
  apply Forall_cons_1 in HP as [Hx HP]. constructor; auto.
Qed.

Lemma service_kept_detect w img :
  mode (service (detectServerSide w img).1) = mode (service w)
  /\ initialized (service (detectServerSide w img).1) = initialized (service w).
Proof.
  unfold detectServerSide, processQueue, loop. simpl.
  destruct (isProcessing (service w) || _); simpl; [done|].
  by destruct (_ ++ _).
Qed.

Lemma service_kept_settle w k c rnd :
  mode (service (settle w k c rnd).1) = mode (service w)
  /\ initialized (service (settle w k c rnd).1) = initialized (service w).
Proof.
  unfold settle, loop. destruct (activations w !! k); [|done].
  destruct (runInference (service w) c rnd). simpl.
  by destruct (processingQueue (service w)).
Qed.

Lemma runInference_unsettled s c rnd :
  Forall (fun o => match o with Settled _ _ => False | _ => True end)
         (runInference s c rnd).2.
Proof. unfold runInference. destruct (session s), c; simpl; by repeat constructor. Qed.

Lemma fold_notify_single now logged p r disp acc :
  Forall (fun o => match o with Settled _ _ => False | _ => True end) logged ->
  Forall (fun o => match o with Settled _ _ => False | _ => True end) disp ->
  fold_left (notify now) (logged ++ Settled p r :: disp) acc
  = notify now acc (Settled p r).
Proof.
  intros H1 H2. rewrite fold_left_app. simpl.
  rewrite (fold_notify_unsettled now logged acc H1).
  by rewrite (fold_notify_unsettled now disp _ H2).
Qed.

Lemma unsettled_promises w :
  pipeline_ok w ->
  NoDup (promise <$> unsettled w)
  /\ Forall (fun e => promise e < nextPromise w) (unsettled w).
Proof.
  intros [_ Hsub]. split.
  - eapply sublist_NoDup; [apply NoDup_seq | exact Hsub].
  - apply Forall_forall. intros e He.
    apply (list_elem_of_fmap_2 promise) in He.
    apply (elem_of_sublist _ _ _ He) in Hsub. apply elem_of_seq in Hsub. lia.
Qed.

Lemma server_ok_step srv replies reqs ev :
  server_ok srv replies reqs ->
  server_ok (Server.step srv ev).1 (replies ++ (Server.step srv ev).2)
            (reqs ++ requests [ev]).
Proof.
  intros (Hp & Hm & waiting & HF & Hsub).
  destruct (unsettled_promises _ Hp) as [Hnd Hlt].
  destruct ev as [img fid cts now rnd | k c rnd now | now].
  - (* detect-frame *)
    cbn [requests omap list_omap Server.step]. unfold detectObjects.
    destruct (initialized (service (detectionService srv))) eqn:Hini; cbn [negb].
    + destruct (mode (service (detectionService srv))) eqn:Hmode.
      * (* server mode: the frame is queued *)
        pose proof (detectServerSide_unsettled (detectionService srv) img) as Hobs.
        destruct (pipeline_ok_detect _ img Hp) as (Hp' & kept & Hk & Hu).
        destruct (service_kept_detect (detectionService srv) img) as [Hmo Hin].
        destruct (detectServerSide (detectionService srv) img) as [w' obs].
        cbn [fst snd] in *. rewrite fold_notify_unsettled by done. cbn [fst snd].
        rewrite app_nil_r.
        destruct (Forall2_sublist_l _ _ _ _ HF Hk) as (kw & Hkw & HF').
        split; [done|]. split.
        { cbn. rewrite Hmo, Hin, Hmode, Hini. by intros [|]. }
        exists (kw ++ [mkRequest fid cts now]). cbn [detectionService awaiting]. split.
        -- rewrite Hu. apply Forall2_app.
           ++ eapply (Forall2_impl_l _ _ (fun e => promise e < nextPromise (detectionService srv)));
                [exact HF'| |].
              ** apply Forall_forall. intros e He. rewrite Forall_forall in Hlt.
                 apply Hlt. by eapply elem_of_sublist.
              ** intros e q Hlt' Hq. cbn in Hq. rewrite lookup_insert_ne by lia. done.
           ++ repeat constructor. cbn. by rewrite lookup_insert_eq.
        -- rewrite app_assoc. apply sublist_app; [|done].
           etrans; [|exact Hsub]. by apply sublist_app.
      * (* WASM mode: answered at once *)
        cbn [resume fst snd]. unfold server_ok. cbn [detectionService awaiting].
        split; [done|]. split; [intros _; apply Hm; by left|].
        rewrite (Hm (or_introl eq_refl)) in HF. apply Forall2_nil_inv_l in HF as ->.
        exists []. cbn [detectionService awaiting]. rewrite (Hm (or_introl eq_refl)).
        split; [constructor|].
        rewrite !app_nil_r in *. rewrite results_app, fmap_app. cbn.
        apply sublist_app; [done|].
        change (mkRequest fid cts now) with
          (request_of (Metrics.mkFrameData (frameId (mkRequest fid cts now))
             (captureTs (mkRequest fid cts now)) (recvTs (mkRequest fid cts now)) now
             (getMockDetections rnd))).
        done.
    + (* not initialised: an error is sent *)
      cbn [resume fst snd]. unfold server_ok. cbn [detectionService awaiting].
      split; [done|]. split; [intros _; apply Hm; by right|].
      exists waiting. split; [done|].
      rewrite results_app. cbn. rewrite app_nil_r.
      by apply sublist_inserts_r.
  - (* an inference ends *)
    cbn [requests omap list_omap Server.step]. rewrite app_nil_r.
    destruct (pipeline_ok_settle _ k c rnd Hp) as [Hp' Hcase].
    destruct (service_kept_settle (detectionService srv) k c rnd) as [Hmo Hin].
    destruct Hcase as [Hsame | (a & r & Hu & Hr & Hobs)].
    + rewrite Hsame in *. cbn. rewrite app_nil_r. split; [done|]. split; [done|].
      by exists waiting.
    + pose proof (runInference_unsettled (service (detectionService srv)) c rnd) as Hlog.
      destruct (settle (detectionService srv) k c rnd) as [w' obs]. cbn [fst snd] in *.
      rewrite Hobs, fold_notify_single;
        [|done|by destruct (head (queue_of (detectionService srv))); repeat constructor].
      rewrite Hu in HF, Hnd, Hm.
      apply Forall2_cons_inv_l in HF as (qa & rest & Hqa & HF & ->).
      rewrite fmap_cons in Hnd. apply NoDup_cons in Hnd as [Hna Hnd].
      assert (HF' : Forall2 (fun e q => delete (promise a) (awaiting srv) !! promise e = Some q)
                            (unsettled w') rest).
      { eapply (Forall2_impl_l _ _ (fun e => promise e <> promise a)); [exact HF| |].
        - apply Forall_forall. intros e He Heq. apply Hna. rewrite <- Heq.
          by apply list_elem_of_fmap_2.
        - intros e q Hne Hq. by rewrite lookup_delete_ne. }
      unfold notify. cbn [fst snd detectionService metricsCollector awaiting].
      rewrite Hqa.
      destruct (runInference (service (detectionService srv)) c rnd).1 as [dets|err];
        subst r; cbn [resume fst snd detectionService metricsCollector awaiting];
        unfold server_ok; cbn [detectionService awaiting].
      * split; [done|]. split.
        { rewrite Hmo, Hin. intros H. by specialize (Hm H). }
        exists rest. split; [done|].
        cbn [app]. rewrite results_app, fmap_app. cbn. rewrite request_of_result.
        by rewrite <- app_assoc.
      * split; [done|]. split.
        { rewrite Hmo, Hin. intros H. by specialize (Hm H). }
        exists rest. split; [done|].
        cbn [app]. rewrite results_app. cbn. rewrite app_nil_r.
        etrans; [|exact Hsub]. apply sublist_app; [done|]. by apply sublist_cons.
  - (* metrics reset *)
    cbn. rewrite !app_nil_r. split; [done|]. split; [done|]. by exists waiting.
Qed.

Lemma server_ok_start m model_loads now : server_ok (start m model_loads now) [] [].
Proof.
  split; [|split].
  - by destruct m, model_loads.
  - by destruct m, model_loads.
  - exists []. split; [by destruct m, model_loads | done].
Qed.

Lemma server_ok_run m model_loads now evs :
  let r := run_replies (start m model_loads now) evs in
  server_ok r.1 r.2 (requests evs).
Proof.
  induction evs as [|ev evs IH] using rev_ind; [apply server_ok_start|].
  cbn zeta in *. rewrite run_replies_snoc, requests_app. cbn [fst snd].
  by apply server_ok_step.
Qed.

(** X18. Results follow the requests.  Whatever the mode and the events, the
    detection results sent by a started server carry the frame id, capture
    time and receive time of distinct detect-frame requests, in the order of
    the requests: they form a subsequence of the requests received. *)
Theorem results_follow_requests (m : Mode) (model_loads : bool) (now : Z)
    (evs : list Server.Event) :
  let r := run_replies (start m model_loads now) evs in
  sublist (request_of <$> results r.2) (requests evs)
  /\ (length (results r.2) <= length (requests evs)).
Proof.
  intros r. destruct (server_ok_run m model_loads now evs) as (_ & _ & waiting & _ & Hsub).
  fold r in Hsub.
  assert (H : sublist (request_of <$> results r.2) (requests evs)).
  { etrans; [|exact Hsub]. by apply sublist_inserts_r. }
  split; [done|]. apply sublist_length in H. by rewrite length_fmap in H.
Qed.

Lemma filter_random_sublist {A} (rnd : nat -> Q) (i : nat) (l : list A) :
  sublist (filter_random rnd i l) l.
Proof.
  revert i. induction l as [|x l IH]; intros i; simpl; [done|].
  destruct (negb (Qle_bool (rnd i) 0.3)); [by apply sublist_skip | by apply sublist_cons].
Qed.

(** A server whose detection service runs in WASM mode. *)
Lemma wasm_step m model_loads srv ev :
  m = wasm \/ model_loads = false ->
  detectionService srv = boot (Initialized m model_loads) ->
  awaiting srv = ∅ ->
  let r := Server.step srv ev in
  detectionService r.1 = boot (Initialized m model_loads)
  /\ awaiting r.1 = ∅
  /\ request_of <$> results r.2 = requests [ev]
  /\ length r.2 = length (requests [ev])
  /\ Forall (fun d => sublist (Metrics.detections d) mockDetections) (results r.2).
Proof.
  intros Hm Hw Ha.
  assert (Hmode : mode (service (boot (Initialized m model_loads))) = wasm
                  /\ initialized (service (boot (Initialized m model_loads))) = true
                  /\ activations (boot (Initialized m model_loads)) = []).
  { destruct Hm as [-> | ->]; [by destruct model_loads | by destruct m]. }
  destruct Hmode as (Hmo & Hin & Hact).
  destruct ev as [img fid cts now rnd | k c rnd now | now]; cbn [Server.step].
  - unfold detectObjects. rewrite Hw, Hin, Hmo.
    assert (Hd : sublist (getMockDetections rnd) mockDetections)
      by apply filter_random_sublist.
    generalize dependent (getMockDetections rnd). intros dets Hd.
    cbn. rewrite Ha. repeat split; try done.
    constructor; [exact Hd | constructor].
  - unfold settle. rewrite Hw, Hact. cbn. by rewrite Ha.
  - cbn. by rewrite Hw, Ha.
Qed.

(** X19. WASM mode answers at once.  When the server runs in WASM mode, or
    the model failed to load (initialize falls back to WASM mode), every
    detect-frame request is answered in the same step by one detection
    result for that request whose detections are a sub-list of the mock
    detections; the detection service never changes state, the queue is
    never used and no handler is left waiting. *)
Theorem wasm_mode_answers_at_once (m : Mode) (model_loads : bool) (now : Z)
    (evs : list Server.Event) :
  m = wasm \/ model_loads = false ->
  let r := run_replies (start m model_loads now) evs in
  detectionService r.1 = boot (Initialized m model_loads)
  /\ awaiting r.1 = ∅
  /\ request_of <$> results r.2 = requests evs
  /\ length r.2 = length (requests evs)
  /\ Forall (fun d => sublist (Metrics.detections d) mockDetections) (results r.2).
Proof.
  intros Hm. induction evs as [|ev evs IH] using rev_ind; [by repeat split|].
  cbn zeta in *. rewrite run_replies_snoc, requests_app. cbn [fst snd].
  destruct IH as (I1 & I2 & I3 & I4 & I5).
  destruct (wasm_step m model_loads _ ev Hm I1 I2) as (H1 & H2 & H3 & H4 & H5).
  rewrite results_app, fmap_app, !length_app, I3, I4, H3, H4.
  repeat split; try done. by apply Forall_app.
Qed.

Lemma wasm_mode_answers_at_once_witness :
  let evs := [DetectFrame "img" "f1" 3 5 (fun _ => 0.5%Q);
              DetectFrame "img" "f2" 8 9 (fun _ => 0%Q)] in
  (server = wasm \/ false = false)
  /\ request_of <$> results (run_replies (start server false 0) evs).2 = requests evs.
Proof.
  intros evs.
  assert (H : server = wasm \/ false = false) by (right; reflexivity).
  split; [exact H|].
  exact (proj1 (proj2 (proj2 (wasm_mode_answers_at_once server false 0 evs H)))).
Defined.

Lemma session_kept_detect w img :
  session (service (detectServerSide w img).1) = session (service w).
Proof.
  unfold detectServerSide, processQueue, loop. simpl.
  destruct (isProcessing (service w) || _); simpl; [done|].
  by destruct (_ ++ _).
Qed.

Lemma session_kept_settle w k c rnd :
  session (service (settle w k c rnd).1) = session (service w).
Proof.
  unfold settle, loop. destruct (activations w !! k); [|done].
  destruct (runInference (service w) c rnd). simpl.
  by destruct (processingQueue (service w)).
Qed.

Lemma notify_service now acc o :
  detectionService (notify now acc o).1 = detectionService acc.1.
Proof.
  unfold notify. destruct o; try done.
  destruct (awaiting acc.1 !! p); [|done]. by destruct r.
Qed.

Lemma fold_notify_service now obs acc :
  detectionService (fold_left (notify now) obs acc).1 = detectionService acc.1.
Proof.
  revert acc. induction obs as [|o obs IH]; intros acc; [done|].
  simpl. rewrite IH. apply notify_service.
Qed.

Lemma session_ready_start m model_loads :
  session_ready (boot (Initialized m model_loads)).
Proof. by destruct m, model_loads. Qed.

(** With the session available, a failing inference resolves the promise. *)
Lemma runInference_resolves s c rnd :
  session s <> None -> exists dets, (runInference s c rnd).1 = Resolved dets.
Proof.
  intros H. unfold runInference. destruct (session s); [|done].
  destruct c; simpl; eauto.
Qed.

Lemma session_ready_step srv ev :
  session_ready (detectionService srv) ->
  session_ready (detectionService (Server.step srv ev).1)
  /\ Forall (fun reply => exists d, reply = DetectionResult d) (Server.step srv ev).2.
Proof.
  intros [Hini Hs].
  destruct ev as [img fid cts now rnd | k c rnd now | now]; cbn [Server.step].
  - unfold detectObjects. rewrite Hini. cbn [negb].
    destruct (mode (service (detectionService srv))) eqn:Hmode.
    + assert (Hse : session (service (detectionService srv)) <> None).
      { intros E. destruct (Hs E) as [Hm _]. congruence. }
      pose proof (detectServerSide_unsettled (detectionService srv) img) as Hobs.
      pose proof (session_kept_detect (detectionService srv) img) as Hk.
      destruct (service_kept_detect (detectionService srv) img) as [_ Hin].
      destruct (detectServerSide (detectionService srv) img) as [w' obs].
      cbn [fst snd] in *. rewrite fold_notify_unsettled by done. cbn [fst snd].
      split; [|constructor]. split; cbn [detectionService]; [by rewrite Hin|].
      intros E. rewrite Hk in E. done.
    + cbn [resume fst snd detectionService]. split; [split; [done | by rewrite Hmode]|].
      repeat constructor. eauto.
  - pose proof (session_kept_settle (detectionService srv) k c rnd) as Hk.
    destruct (service_kept_settle (detectionService srv) k c rnd) as [Hmo Hin].
    pose proof (runInference_unsettled (service (detectionService srv)) c rnd) as Hlog.
    unfold settle in *.
    destruct (activations (detectionService srv) !! k) as [e|] eqn:He.
    + assert (Hse : session (service (detectionService srv)) <> None).
      { intros E. destruct (Hs E) as [_ Ha]. rewrite Ha in He. done. }
      destruct (runInference_resolves _ c rnd Hse) as [dets Hr].
      destruct (runInference (service (detectionService srv)) c rnd) as [r logged].
      cbn [fst snd] in *. subst r.
      destruct (loop _) as [w' obs] eqn:El. cbn [fst snd] in *.
      assert (Hd : Forall (fun o => match o with Settled _ _ => False | _ => True end) obs).
      { unfold loop in El. destruct (processingQueue _); injection El as <- <-;
          by repeat constructor. }
      rewrite fold_notify_single by done.
      split.
      * rewrite notify_service. cbn [fst detectionService].
        split; [by rewrite Hin|]. intros E. rewrite Hk in E. done.
      * unfold notify. cbn [fst snd awaiting].
        destruct (awaiting srv !! promise e) as [req|]; [|constructor].
        cbn. repeat constructor. eauto.
    + cbn. by split.
  - cbn. by split.
Qed.

Lemma session_ready_run m model_loads now evs :
  let r := run_replies (start m model_loads now) evs in
  session_ready (detectionService r.1)
  /\ Forall (fun reply => exists d, reply = DetectionResult d) r.2.
Proof.
  induction evs as [|ev evs IH] using rev_ind.
  - split; [apply session_ready_start | constructor].
  - cbn zeta in *. rewrite run_replies_snoc. cbn [fst snd].
    destruct IH as [IH1 IH2].
    destruct (session_ready_step _ ev IH1) as [H1 H2].
    split; [done|]. by apply Forall_app.
Qed.

(** C2 (as amended).  When the inference of the frame in flight fails because
    the collaborator throws, the error is logged with [console.error] and the
    promise of the frame is resolved, not rejected, with the mock detections
    kept by the random filter, a sub-list of the two mock detections that
    need not be empty.  The raw error does not reach the caller: in every
    run of a started server each reply to a detect-frame request is a
    detection result, never an error, and a frame is in flight only while
    the model session exists (when the model cannot be loaded the service
    falls back to WASM mode and nothing is dispatched). *)
Theorem C2_inference_failure_outcomes :
  (forall (w : World) (a : Entry) (e : Error) (rnd : nat -> Q),
     activations w !! 0 = Some a -> session (service w) <> None ->
     (settle w 0 (Throws e) rnd).2
     = ConsoleError e :: Settled (promise a) (Resolved (getMockDetections rnd))
         :: next_dispatch w
     /\ sublist (getMockDetections rnd) mockDetections)
  /\ (forall (m : Mode) (model_loads : bool) (now : Z) (evs : list Server.Event),
        let r := run_replies (start m model_loads now) evs in
        (activations (detectionService r.1) <> [] ->
         session (service (detectionService r.1)) <> None)
        /\ Forall (fun reply => exists d, reply = DetectionResult d) r.2).
Proof.
  split.
  - intros w a e rnd Ha Hs. split; [|apply filter_random_sublist].
    unfold settle, runInference, next_dispatch, loop, queue_of.
    rewrite Ha. destruct (session (service w)); [|done]. simpl.
    by destruct (processingQueue (service w)).
  - intros m model_loads now evs r.
    destruct (session_ready_run m model_loads now evs) as [[_ Hs] Hr].
    split; [|done]. intros Ha E. by destruct (Hs E).
Qed.

Lemma C2_inference_failure_outcomes_witness :
  let w := (DetectionService.run (Initialized server true) [Detect "frame"]).1 in
  let a := mkEntry "frame" 0 in
  let e := Thrown "session.run failed" in
  activations w !! 0 = Some a /\ session (service w) <> None
  /\ (settle w 0 (Throws e) (fun _ => 0.5%Q)).2
     = [ConsoleError e; Settled 0 (Resolved (getMockDetections (fun _ => 0.5%Q)))].
Proof.
  intros w a e.
  assert (Ha : activations w !! 0 = Some a) by reflexivity.
  assert (Hs : session (service w) <> None) by (vm_compute; discriminate).
  split; [exact Ha|]. split; [exact Hs|].
  exact (proj1 (proj1 C2_inference_failure_outcomes w a e (fun _ => 0.5%Q) Ha Hs)).
Defined.

Lemma C2_counterexample :
  let e := Thrown "session.run failed" in
  let r := run_replies (start server true 0)
             [DetectFrame "frame" "f1" 1 2 (fun _ => 0%Q);
              Server.InferenceEnds 0 (Throws e) (fun _ => 0.5%Q) 3] in
  let thrown := (DetectionService.run (Initialized server true)
                   [Detect "frame";
                    DetectionService.InferenceEnds 0 (Throws e) (fun _ => 0.5%Q)]).2 in
  thrown = [ Enqueued (mkEntry "frame" 0); Dispatched (mkEntry "frame" 0);
             ConsoleError e; Settled 0 (Resolved mockDetections) ]
  /\ r.2 = [DetectionResult (Metrics.mkFrameData "f1" 1 2 3 mockDetections)]
  /\ mockDetections <> []
  /\ ~ In (Settled 0 (Resolved [])) thrown.
Proof.
  intros e r thrown.
  assert (H1 : thrown = [ Enqueued (mkEntry "frame" 0); Dispatched (mkEntry "frame" 0);
             ConsoleError e; Settled 0 (Resolved mockDetections) ]) by reflexivity.
  split; [exact H1|]. split; [reflexivity|]. split; [discriminate|].
  rewrite H1. simpl. intros H; intuition discriminate.
Qed.

End ReplyProofs.

(** ** The signaling broker *)

Section BrokerProofs.
Import JS Signaling Broker.
Local Open Scope Z_scope.

Lemma elem_of_set_delete (x id : string) (l : list string) :
  x ∈ set_delete id l <-> x ∈ l /\ x <> id.
Proof. unfold set_delete. rewrite list_elem_of_filter. tauto. Qed.

Lemma elem_of_set_add (x id : string) (l : list string) :
  x ∈ set_add id l <-> x = id \/ x ∈ l.
Proof.
  unfold set_add. case_bool_decide as H.
  - split; [by right | intros [->|]; done].
  - rewrite elem_of_app, list_elem_of_singleton. tauto.
Qed.

(** Membership after [removeFromRoom]. *)
Lemma removeFromRoom_member (rs : gmap string Room) (roomId clientId x r : string)
    (cm : gmap string Client) :
  member_of (mkSignaling (removeFromRoom rs roomId clientId) cm) x r
  <-> member_of (mkSignaling rs cm) x r /\ ~ (r = roomId /\ x = clientId).
Proof.
  unfold member_of, removeFromRoom. simpl.
  destruct (rs !! roomId) as [room|] eqn:Hr.
  - destruct (Nat.eqb_spec (length (set_delete clientId (clients room))) 0) as [E|E].
    + apply nil_length_inv in E. split.
      * intros (r0 & Hl & Hx). apply lookup_delete_Some in Hl as [Hne Hl].
        split; [eauto|]. intros [-> _]. done.
      * intros [(r0 & Hl & Hx) Hn]. exists r0. split; [|done].
        apply lookup_delete_Some. split; [|done]. intros <-.
        rewrite Hr in Hl. injection Hl as <-.
        assert (x ∈ set_delete clientId (clients room)).
        { apply elem_of_set_delete. split; [done|]. intros ->. by apply Hn. }
        rewrite E in H. by apply elem_of_nil in H.
    + split.
      * intros (r0 & Hl & Hx). apply lookup_insert_Some in Hl as [[<- <-]|[Hne Hl]].
        -- simpl in Hx. apply elem_of_set_delete in Hx as [Hx Hne]. split; [eauto|].
           intros [_ ->]. done.
        -- split; [eauto|]. intros [-> _]. done.
      * intros [(r0 & Hl & Hx) Hn]. destruct (decide (roomId = r)) as [<-|Hne].
        -- rewrite Hr in Hl. injection Hl as <-. eexists. rewrite lookup_insert_eq.
           split; [done|]. simpl. apply elem_of_set_delete. split; [done|].
           intros ->. by apply Hn.
        -- exists r0. by rewrite lookup_insert_ne.
  - split; [|tauto]. intros (r0 & Hl & Hx). split; [eauto|]. intros [-> _]. congruence.
Qed.

Section BrokerHandlers.
Context {Payload : Type}.
Implicit Types (s : WebRTCSignaling) (ev : Event (Payload := Payload)).

(** The rooms a peer leaves when it joins or disconnects: the recorded room,
    when it is truthy. *)
Lemma left_rooms_member (rs : gmap string Room) (cm cm' : gmap string Client)
    (c : Client) (sid x r : string) (A : list (Action (Payload := Payload)))
    (B : list (Action (Payload := Payload))) :
  let left := match room c with
              | Some old => if truthy_string old
                            then (removeFromRoom rs old sid, A)
                            else (rs, B)
              | None => (rs, B)
              end in
  member_of (mkSignaling left.1 cm') x r
  <-> member_of (mkSignaling rs cm) x r
      /\ ~ (has_room c = true /\ room c = Some r /\ x = sid).
Proof.
  unfold has_room. destruct (room c) as [old|]; simpl.
  - destruct (truthy_string old) eqn:Ht; simpl.
    + rewrite (removeFromRoom_member rs old sid x r cm'). unfold member_of. simpl.
      split; intros [H1 H2]; (split; [done|]).
      * intros (_ & [= ->] & ->). by apply H2.
      * intros [-> ->]. by apply H2.
    + unfold member_of. simpl. split; [|tauto]. intros H. split; [done|].
      by intros [? _].
  - unfold member_of. simpl. split; [|tauto]. intros H. split; [done|].
    by intros [? _].
Qed.

Lemma handleJoinRoom_member s sid roomId now c x r :
  clientMap s !! sid = Some c ->
  member_of (handleJoinRoom (Payload := Payload) s sid roomId now).1 x r
  <-> (r = roomId /\ x = sid)
      \/ (member_of s x r /\ ~ (has_room c = true /\ room c = Some r /\ x = sid)).
Proof.
  intros Hc. destruct s as [rs cm]. simpl in Hc.
  pose proof (left_rooms_member rs cm cm c sid x r
                [socket_leave sid (default EmptyString (room c))] []) as Hleft.
  unfold handleJoinRoom. simpl. rewrite Hc.
  assert (match room c with
          | Some old => if truthy_string old
                        then (removeFromRoom rs old sid,
                              [socket_leave (Payload := Payload) sid old])
                        else (rs, [])
          | None => (rs, [])
          end
          = ((match room c with
              | Some old => if truthy_string old
                            then (removeFromRoom rs old sid,
                                  [socket_leave (Payload := Payload) sid
                                     (default EmptyString (room c))])
                            else (rs, [])
              | None => (rs, [])
              end).1,
             match room c with
             | Some old => if truthy_string old then [socket_leave sid old] else []
             | None => []
             end)) as ->.
  { destruct (room c) as [old|]; [destruct (truthy_string old)|]; done. }
  simpl in Hleft. rewrite <- Hleft. clear Hleft.
  generalize ((match room c with
               | Some old => if truthy_string old
                             then (removeFromRoom rs old sid,
                                   [socket_leave (Payload := Payload) sid
                                      (default EmptyString (room c))])
                             else (rs, [])
               | None => (rs, [])
               end).1).
  intros rooms1. unfold member_of. simpl.
  destruct (rooms1 !! roomId) as [r0|] eqn:Hr; simpl.
  - rewrite Hr. simpl. split.
    + intros (r1 & Hl & Hx). apply lookup_insert_Some in Hl as [[<- <-]|[Hne Hl]].
      * simpl in Hx. apply elem_of_set_add in Hx as [->|Hx]; [by left|].
        right. eauto.
      * right. eauto.
    + intros [[-> ->]|(r1 & Hl & Hx)].
      * eexists. rewrite lookup_insert_eq. split; [done|]. simpl.
        apply elem_of_set_add. by left.
      * destruct (decide (roomId = r)) as [<-|Hne].
        -- rewrite Hr in Hl. injection Hl as <-. eexists. rewrite lookup_insert_eq.
           split; [done|]. simpl. apply elem_of_set_add. by right.
        -- exists r1. by rewrite lookup_insert_ne.
  - rewrite lookup_insert_eq. simpl. split.
    + intros (r1 & Hl & Hx). apply lookup_insert_Some in Hl as [[<- <-]|[Hne Hl]].
      * simpl in Hx. apply elem_of_set_add in Hx as [->|Hx]; [by left|].
        by apply elem_of_nil in Hx.
      * rewrite lookup_insert_ne in Hl by done. right. eauto.
    + intros [[-> ->]|(r1 & Hl & Hx)].
      * eexists. rewrite lookup_insert_eq. split; [done|]. simpl.
        apply elem_of_set_add. by left.
      * assert (roomId <> r) by (intros ->; congruence).
        exists r1. by rewrite !lookup_insert_ne.
Qed.

Lemma handleJoinRoom_clients s sid roomId now c :
  clientMap s !! sid = Some c ->
  clientMap (handleJoinRoom (Payload := Payload) s sid roomId now).1
  = <[sid := mkClient (type c) (Some roomId)]> (clientMap s).
Proof.
  intros Hc. unfold handleJoinRoom. rewrite Hc.
  destruct (room c) as [old|]; [destruct (truthy_string old)|]; done.
Qed.

Lemma handleDisconnect_member s sid c x r :
  clientMap s !! sid = Some c ->
  member_of (handleDisconnect (Payload := Payload) s sid).1 x r
  <-> member_of s x r /\ ~ (has_room c = true /\ room c = Some r /\ x = sid).
Proof.
  intros Hc. destruct s as [rs cm]. simpl in Hc.
  pose proof (left_rooms_member rs cm (delete sid cm) c sid x r
                [emit_to sid (default EmptyString (room c)) (peer_left sid)] [])
    as Hleft.
  simpl in Hleft. rewrite <- Hleft. unfold handleDisconnect. simpl. rewrite Hc.
  destruct (room c) as [old|]; [destruct (truthy_string old)|]; done.
Qed.

Lemma handleDisconnect_clients s sid :
  clientMap (handleDisconnect (Payload := Payload) s sid).1 = delete sid (clientMap s).
Proof.
  unfold handleDisconnect. destruct (clientMap s !! sid) as [c|] eqn:Hc.
  - destruct (room c) as [old|]; [destruct (truthy_string old)|]; done.
  - simpl. symmetry. by apply delete_id.
Qed.

End BrokerHandlers.

Section BrokerInvariants.
Context {Payload : Type}.
Implicit Types (s : WebRTCSignaling) (ev : Event (Payload := Payload)).

Lemma member_of_rooms s s' x r :
  rooms s' = rooms s -> member_of s' x r <-> member_of s x r.
Proof. unfold member_of. by intros ->. Qed.

Lemma handleRegister_rooms s sid t :
  rooms (handleRegister (Payload := Payload) s sid t).1 = rooms s.
Proof. unfold handleRegister. by destruct (clientMap s !! sid). Qed.

Lemma clients_in_rooms_step s ev :
  clients_in_rooms s -> clients_in_rooms (step s ev).1.
Proof.
  intros H. destruct ev as [sid|sid t|sid rid now|k sid tid p|sid]; simpl; try done.
  - intros x c r Hl Hr. simpl in Hl.
    apply lookup_insert_Some in Hl as [[<- <-]|[Hne Hl]]; [done|].
    by apply (H x c r).
  - intros x c r Hl Hr. apply (member_of_rooms s); [apply handleRegister_rooms|].
    unfold handleRegister in Hl. destruct (clientMap s !! sid) as [c0|] eqn:Hc.
    + simpl in Hl. apply lookup_insert_Some in Hl as [[<- <-]|[Hne Hl]].
      * by apply (H sid c0 r).
      * by apply (H x c r).
    + by apply (H x c r).
  - destruct (clientMap s !! sid) as [c0|] eqn:Hc.
    + intros x c r Hl Hr. rewrite (handleJoinRoom_clients s sid rid now c0 Hc) in Hl.
      apply (handleJoinRoom_member s sid rid now c0 x r Hc).
      apply lookup_insert_Some in Hl as [[<- <-]|[Hne Hl]].
      * simpl in Hr. injection Hr as <-. by left.
      * right. split; [by apply (H x c r)|]. by intros (_ & _ & ->).
    + unfold handleJoinRoom. by rewrite Hc.
  - destruct (clientMap s !! sid) as [c0|] eqn:Hc.
    + intros x c r Hl Hr. rewrite handleDisconnect_clients in Hl.
      apply lookup_delete_Some in Hl as [Hne Hl].
      apply (handleDisconnect_member s sid c0 x r Hc).
      split; [by apply (H x c r)|]. by intros (_ & _ & ->).
    + unfold handleDisconnect. by rewrite Hc.
Qed.

Lemma clients_in_rooms_run (evs : list (Event (Payload := Payload))) :
  clients_in_rooms (run evs).
Proof.
  unfold run. induction evs as [|ev evs IH] using rev_ind.
  - intros x c r Hl. simpl in Hl. by rewrite lookup_empty in Hl.
  - rewrite fold_left_app. simpl. by apply clients_in_rooms_step.
Qed.

Lemma rooms_truthy_step s ev :
  acceptable s ev -> rooms_truthy s -> rooms_truthy (step s ev).1.
Proof.
  intros Ha H. destruct ev as [sid|sid t|sid rid now|k sid tid p|sid]; simpl; try done.
  - intros x c r Hl Hr. simpl in Hl.
    apply lookup_insert_Some in Hl as [[<- <-]|[Hne Hl]]; [done|].
    by apply (H x c r).
  - intros x c r Hl Hr.
    unfold handleRegister in Hl. destruct (clientMap s !! sid) as [c0|] eqn:Hc.
    + simpl in Hl. apply lookup_insert_Some in Hl as [[<- <-]|[Hne Hl]].
      * by apply (H sid c0 r).
      * by apply (H x c r).
    + by apply (H x c r).
  - destruct (clientMap s !! sid) as [c0|] eqn:Hc.
    + intros x c r Hl Hr. rewrite (handleJoinRoom_clients s sid rid now c0 Hc) in Hl.
      apply lookup_insert_Some in Hl as [[<- <-]|[Hne Hl]].
      * simpl in Hr. injection Hr as <-. exact Ha.
      * by apply (H x c r).
    + unfold handleJoinRoom. by rewrite Hc.
  - intros x c r Hl Hr. rewrite handleDisconnect_clients in Hl.
    apply lookup_delete_Some in Hl as [Hne Hl]. by apply (H x c r).
Qed.

Lemma members_are_clients_step s ev :
  acceptable s ev -> rooms_truthy s -> members_are_clients s ->
  members_are_clients (step s ev).1.
Proof.
  intros Ha Ht H. destruct ev as [sid|sid t|sid rid now|k sid tid p|sid]; simpl; try done.
  - intros x r Hm. destruct (H x r Hm) as (c & Hl & Hr). exists c. split; [|done].
    simpl. rewrite lookup_insert_ne; [done|]. intros <-. simpl in Ha. congruence.
  - intros x r Hm. apply (member_of_rooms s) in Hm; [|apply handleRegister_rooms].
    destruct (H x r Hm) as (c & Hl & Hr).
    unfold handleRegister. destruct (clientMap s !! sid) as [c0|] eqn:Hc; [|eauto].
    simpl. destruct (decide (sid = x)) as [->|Hne].
    + rewrite lookup_insert_eq. eexists. split; [done|]. simpl. congruence.
    + rewrite lookup_insert_ne by done. eauto.
  - destruct (clientMap s !! sid) as [c0|] eqn:Hc.
    + intros x r Hm. rewrite (handleJoinRoom_clients s sid rid now c0 Hc).
      apply (handleJoinRoom_member s sid rid now c0 x r Hc) in Hm
        as [[-> ->]|[Hm Hn]].
      * rewrite lookup_insert_eq. eauto.
      * destruct (H x r Hm) as (c & Hl & Hr). destruct (decide (sid = x)) as [->|Hne].
        -- exfalso. apply Hn. rewrite Hc in Hl. injection Hl as ->.
           split; [|done]. unfold has_room. rewrite Hr.
           apply truthy_string_true. by apply (Ht x c r).
        -- rewrite lookup_insert_ne by done. eauto.
    + unfold handleJoinRoom. by rewrite Hc.
  - destruct (clientMap s !! sid) as [c0|] eqn:Hc.
    + intros x r Hm. rewrite handleDisconnect_clients.
      apply (handleDisconnect_member s sid c0 x r Hc) in Hm as [Hm Hn].
      destruct (H x r Hm) as (c & Hl & Hr). destruct (decide (sid = x)) as [->|Hne].
      * exfalso. apply Hn. rewrite Hc in Hl. injection Hl as ->.
        split; [|done]. unfold has_room. rewrite Hr.
        apply truthy_string_true. by apply (Ht x c r).
      * rewrite lookup_delete_ne by done. eauto.
    + unfold handleDisconnect. by rewrite Hc.
Qed.

Lemma well_formed_run (evs : list (Event (Payload := Payload))) s :
  well_formed s evs -> rooms_truthy s -> members_are_clients s ->
  rooms_truthy (run_from s evs) /\ members_are_clients (run_from s evs).
Proof.
  revert s. induction evs as [|ev evs IH]; intros s Hw Ht Hm; [done|].
  destruct Hw as [Ha Hw]. simpl. apply IH; [done| |].
  - by apply rooms_truthy_step.
  - by apply members_are_clients_step.
Qed.

Lemma run_from_constructor (evs : list (Event (Payload := Payload))) :
  run_from constructor evs = run evs.
Proof. done. Qed.

(** One member per room and distinct rooms have distinct members: the map of
    rooms is no larger than the map of clients. *)
Lemma room_count_le s :
  rooms_nonempty (rooms s) -> members_are_clients s ->
  (getRoomCount s <= getClientCount s)%nat.
Proof.
  intros Hne Hm. unfold getRoomCount, getClientCount.
  rewrite <- (length_map_to_list (rooms s)), <- (length_map_to_list (clientMap s)).
  set (f := fun kr : string * Room => hd EmptyString (clients kr.2)).
  assert (Hf : forall kr, kr ∈ map_to_list (rooms s) ->
                          exists c, clientMap s !! f kr = Some c /\ room c = Some kr.1).
  { intros [k r] Hin. apply elem_of_map_to_list in Hin. apply Hm.
    exists r. split; [done|]. unfold f. simpl.
    pose proof (Hne k r Hin) as Hn. destruct (clients r); [done|]. simpl. by left. }
  rewrite <- (length_fmap f (map_to_list (rooms s))).
  rewrite <- (length_fmap fst (map_to_list (clientMap s))).
  apply submseteq_length, NoDup_submseteq.
  - apply NoDup_fmap_2_strong; [|apply NoDup_map_to_list].
    intros [k1 r1] [k2 r2] H1 H2 Heq.
    destruct (Hf _ H1) as (c1 & Hl1 & Hr1). destruct (Hf _ H2) as (c2 & Hl2 & Hr2).
    rewrite Heq in Hl1. rewrite Hl1 in Hl2. injection Hl2 as ->.
    simpl in Hr1, Hr2. rewrite Hr1 in Hr2. injection Hr2 as ->.
    apply elem_of_map_to_list in H1, H2. rewrite H1 in H2. by injection H2 as ->.
  - intros x Hx. apply list_elem_of_fmap in Hx as (kr & -> & Hin).
    destruct (Hf _ Hin) as (c & Hl & _).
    apply list_elem_of_fmap. exists (f kr, c). split; [done|].
    by apply elem_of_map_to_list.
Qed.

Lemma unknown_sender_noop s ev :
  clientMap s !! sender ev = None -> (forall sid, ev <> Connect sid) ->
  step s ev = (s, []).
Proof.
  intros Hc Hn. destruct ev as [sid|sid t|sid rid now|k sid tid p|sid]; simpl in *.
  - by destruct (Hn sid).
  - unfold handleRegister. by rewrite Hc.
  - unfold handleJoinRoom. by rewrite Hc.
  - destruct k; unfold handleOffer, handleAnswer, handleIceCandidate,
      handleDataChannelMessage, forward; by rewrite Hc.
  - unfold handleDisconnect. by rewrite Hc.
Qed.

End BrokerInvariants.

Lemma removeFromRoom_lookup_ne (rs : gmap string Room) (roomId clientId r : string) :
  r <> roomId -> removeFromRoom rs roomId clientId !! r = rs !! r.
Proof.
  intros Hne. unfold removeFromRoom. destruct (rs !! roomId) as [room|]; [|done].
  destruct (length (set_delete clientId (clients room)) =? 0)%nat.
  - by rewrite lookup_delete_ne.
  - by rewrite lookup_insert_ne.
Qed.

Lemma map_filter_fst (cm : gmap string Client) (sid : string) (l : list string) :
  map (fun id => (id, type_of cm id)) (filter (fun id => id ≠ sid) l)
  = filter (fun p : string * ClientType => p.1 ≠ sid)
           (map (fun id => (id, type_of cm id)) l).
Proof.
  induction l as [|a l IH]; [done|]. simpl.
  destruct (decide (a = sid)) as [->|Hne].
  - rewrite filter_cons_False by (intros H; by apply H).
    rewrite filter_cons_False by (simpl; intros H; by apply H). done.
  - rewrite filter_cons_True by done. rewrite filter_cons_True by done.
    simpl. by rewrite IH.
Qed.

(** X20. A peer is a member of the room it records.  After every sequence of
    connect, register, join-room, relay and disconnect events, each client
    whose room field is set is in the member set of that room, and
    [getRoomInfo] of that room lists the client with its registered type. *)
Theorem recorded_room_lists_peer {Payload : Type}
    (evs : list (Event (Payload := Payload))) :
  let s := run evs in
  clients_in_rooms s
  /\ (forall sid c r, clientMap s !! sid = Some c -> room c = Some r ->
        exists info, getRoomInfo s r = Some info
                     /\ (sid, type c) ∈ info_clients info).
Proof.
  intros s. pose proof (clients_in_rooms_run evs) as H. fold s in H.
  split; [done|]. intros sid c r Hc Hr.
  destruct (H sid c r Hc Hr) as (room & Hl & Hin).
  unfold getRoomInfo. rewrite Hl. eexists. split; [done|]. simpl.
  apply list_elem_of_In, in_map_iff. exists sid. split; [|by apply list_elem_of_In].
  unfold type_of. by rewrite Hc.
Qed.

(** X21. join-room moves a peer.  When a known peer whose room is A (a
    non-empty id) joins another room B, it is no longer a member of A, it
    is a member of B and records B; the memberships and the records of all
    other peers and the rooms other than A and B are unchanged; B keeps its
    creation time when it existed and is created at the current time
    otherwise. *)
Theorem join_room_moves_peer {Payload : Type} (s : WebRTCSignaling)
    (sid A B : string) (now : Z) (c : Client) :
  clientMap s !! sid = Some c -> room c = Some A -> A <> EmptyString -> A <> B ->
  let s' := (handleJoinRoom (Payload := Payload) s sid B now).1 in
  ~ member_of s' sid A
  /\ member_of s' sid B
  /\ clientMap s' !! sid = Some (mkClient (type c) (Some B))
  /\ (forall x r, x <> sid -> (member_of s' x r <-> member_of s x r))
  /\ (forall x, x <> sid -> clientMap s' !! x = clientMap s !! x)
  /\ (forall r, r <> A -> r <> B -> rooms s' !! r = rooms s !! r)
  /\ (exists room, rooms s' !! B = Some room
        /\ created room = match rooms s !! B with
                          | Some old => created old
                          | None => now
                          end).
Proof.
  intros Hc Hr HA HAB s'.
  assert (Hh : has_room c = true).
  { unfold has_room. rewrite Hr. by apply truthy_string_true. }
  pose proof (fun x r => handleJoinRoom_member (Payload := Payload) s sid B now c x r Hc)
    as Hm. fold s' in Hm.
  pose proof (handleJoinRoom_clients (Payload := Payload) s sid B now c Hc) as Hcm.
  fold s' in Hcm.
  split; [|split; [|split; [|split; [|split; [|split]]]]].
  - intros H. apply Hm in H as [[? _]|[_ H]]; [done|]. by apply H.
  - apply Hm. by left.
  - rewrite Hcm. apply lookup_insert_eq.
  - intros x r Hx. rewrite Hm. split.
    + intros [[_ ?]|[? _]]; done.
    + intros H. right. split; [done|]. by intros (_ & _ & ?).
  - intros x Hx. rewrite Hcm. by apply lookup_insert_ne.
  - intros r HrA HrB. unfold s', handleJoinRoom.
    rewrite Hc, Hr, (truthy_string_true _ HA). simpl.
    destruct (removeFromRoom (rooms s) A sid !! B) as [r0|] eqn:E; simpl.
    + rewrite E. simpl. rewrite lookup_insert_ne by done.
      by apply removeFromRoom_lookup_ne.
    + rewrite lookup_insert_eq. simpl. rewrite !lookup_insert_ne by done.
      by apply removeFromRoom_lookup_ne.
  - unfold s', handleJoinRoom.
    rewrite Hc, Hr, (truthy_string_true _ HA). simpl.
    rewrite (removeFromRoom_lookup_ne (rooms s) A sid B) by done.
    destruct (rooms s !! B) as [r0|] eqn:E; simpl.
    + rewrite (removeFromRoom_lookup_ne (rooms s) A sid B) by done. rewrite E. simpl.
      rewrite lookup_insert_eq. eauto.
    + rewrite lookup_insert_eq. simpl. rewrite lookup_insert_eq. eauto.
Qed.

Lemma join_room_moves_peer_witness :
  let s := run (Payload := string)
             [Connect "p1"; Connect "p2"; JoinRoom "p1" "A" 1; JoinRoom "p2" "A" 2] in
  let s' := (handleJoinRoom (Payload := string) s "p1" "B" 3).1 in
  clientMap s !! "p1" = Some (mkClient None (Some "A"))
  /\ ~ member_of s' "p1" "A"
  /\ member_of s' "p1" "B"
  /\ clientMap s' !! "p1" = Some (mkClient None (Some "B"))
  /\ (forall x r, x <> "p1" -> (member_of s' x r <-> member_of s x r))
  /\ (forall x, x <> "p1" -> clientMap s' !! x = clientMap s !! x)
  /\ (forall r, r <> "A" -> r <> "B" -> rooms s' !! r = rooms s !! r)
  /\ (exists room, rooms s' !! "B" = Some room
        /\ created room = match rooms s !! "B" with
                          | Some old => created old
                          | None => 3
                          end).
Proof.
  intros s s'.
  assert (H1 : clientMap s !! "p1" = Some (mkClient None (Some "A"))) by reflexivity.
  split; [exact H1|].
  exact (join_room_moves_peer (Payload := string) s "p1" "A" "B" 3
           (mkClient None (Some "A")) H1 eq_refl
           ltac:(discriminate) ltac:(discriminate)).
Defined.

(** X22. The room-joined reply agrees with [getRoomInfo].  For a known peer,
    join-room ends with socket.join, peer-joined to the room and room-joined
    to the peer, preceded by socket.leave of the old room when there is one
    with a non-empty id.  The members listed in room-joined are those
    [getRoomInfo] lists for the room after the join, the peer itself left
    out; [getRoomInfo] lists the peer with its type. *)
Theorem room_joined_reply_matches_room_info {Payload : Type} (s : WebRTCSignaling)
    (sid roomId : string) (now : Z) (c : Client) :
  clientMap s !! sid = Some c ->
  let r := handleJoinRoom (Payload := Payload) s sid roomId now in
  exists info,
    getRoomInfo r.1 roomId = Some info
    /\ (sid, type c) ∈ info_clients info
    /\ r.2 = (if has_room c
              then [socket_leave sid (default EmptyString (room c))] else [])
             ++ [socket_join sid roomId;
                 emit_to sid roomId (peer_joined sid (type c));
                 emit sid (room_joined roomId
                             (filter (fun p : string * ClientType => p.1 ≠ sid)
                                     (info_clients info)))].
Proof.
  intros Hc r. unfold r, handleJoinRoom, getRoomInfo, has_room. rewrite Hc.
  assert (Hty : forall l, sid ∈ l ->
            (sid, type c) ∈ map (fun id => (id,
               type_of (<[sid := mkClient (type c) (Some roomId)]> (clientMap s)) id)) l).
  { intros l Hin. apply list_elem_of_In, in_map_iff. exists sid.
    split; [|by apply list_elem_of_In]. unfold type_of. by rewrite lookup_insert_eq. }
  assert (Hadd : forall l, sid ∈ set_add sid l).
  { intros l. apply elem_of_set_add. by left. }
  destruct (room c) as [old|]; [destruct (truthy_string old)|]; simpl.
  1: generalize (removeFromRoom (rooms s) old sid).
  2, 3: generalize (rooms s).
  all: intros rooms1; destruct (rooms1 !! roomId) as [r0|] eqn:E; simpl.
  all: rewrite ?E; simpl; rewrite ?lookup_insert_eq; simpl;
    rewrite ?lookup_insert_eq; eexists; (split; [done|]); simpl;
    (split; [first [apply Hty, Hadd | apply (Hty [sid]); constructor]|]);
    first [by rewrite map_filter_fst | by rewrite (map_filter_fst _ sid [sid])].
Qed.

Lemma room_joined_reply_matches_room_info_witness :
  let s := run (Payload := string)
             [Connect "p1"; Connect "p2"; Register "p2" (Some "phone");
              JoinRoom "p2" "A" 2] in
  let r := handleJoinRoom (Payload := string) s "p1" "A" 3 in
  clientMap s !! "p1" = Some (mkClient None None)
  /\ exists info,
      getRoomInfo r.1 "A" = Some info
      /\ ("p1", None) ∈ info_clients info
      /\ r.2 = [socket_join "p1" "A";
                emit_to "p1" "A" (peer_joined "p1" None);
                emit "p1" (room_joined "A"
                            (filter (fun p : string * ClientType => p.1 ≠ "p1")
                                    (info_clients info)))].
Proof.
  intros s r.
  assert (H1 : clientMap s !! "p1" = Some (mkClient None None)) by reflexivity.
  split; [exact H1|].
  exact (room_joined_reply_matches_room_info (Payload := string) s "p1" "A" 3
           (mkClient None None) H1).
Defined.

(** X23. A disconnected peer is ignored.  After [handleDisconnect] the peer is
    unknown, and every later event of that socket other than a connection
    (register, join-room, a relay, a second disconnect) changes nothing and
    sends nothing. *)
Theorem disconnected_peer_is_ignored {Payload : Type} (s : WebRTCSignaling)
    (sid : string) (ev : Event (Payload := Payload)) :
  sender ev = sid -> (forall x, ev <> Connect x) ->
  let s' := (handleDisconnect (Payload := Payload) s sid).1 in
  clientMap s' !! sid = None /\ step s' ev = (s', []).
Proof.
  intros Hs Hn s'.
  assert (H : clientMap s' !! sid = None).
  { unfold s'. rewrite handleDisconnect_clients. apply lookup_delete_eq. }
  split; [done|]. apply unknown_sender_noop; [by rewrite Hs|done].
Qed.

Lemma disconnected_peer_is_ignored_witness :
  let s := run (Payload := string) [Connect "p1"; JoinRoom "p1" "A" 1] in
  let s' := (handleDisconnect (Payload := string) s "p1").1 in
  sender (Disconnect (Payload := string) "p1") = "p1"
  /\ clientMap s' !! "p1" = None
  /\ step s' (Disconnect (Payload := string) "p1") = (s', []).
Proof.
  intros s s'. split; [reflexivity|].
  exact (disconnected_peer_is_ignored (Payload := string) s "p1" (Disconnect "p1")
           eq_refl ltac:(discriminate)).
Defined.

(** X24. A peer without a truthy room disconnects silently.  When a known
    peer whose room is null or the empty string disconnects, no peer-left is
    sent and the rooms are unchanged, while the peer is deleted from the
    clients: a room that held it (the room whose id is the empty string)
    still lists it afterwards, with type 'unknown'. *)
Theorem falsy_room_disconnect_leaves_member {Payload : Type} (s : WebRTCSignaling)
    (sid : string) (c : Client) :
  clientMap s !! sid = Some c -> has_room c = false ->
  let r := handleDisconnect (Payload := Payload) s sid in
  r.2 = []
  /\ rooms r.1 = rooms s
  /\ clientMap r.1 !! sid = None
  /\ (forall roomId, member_of s sid roomId ->
        exists info, getRoomInfo r.1 roomId = Some info
                     /\ (sid, Some "unknown") ∈ info_clients info).
Proof.
  intros Hc Hh r.
  assert (Hr : r = (mkSignaling (rooms s) (delete sid (clientMap s)), [])).
  { unfold r, handleDisconnect. rewrite Hc. unfold has_room in Hh.
    destruct (room c) as [old|]; [|done]. by rewrite Hh. }
  rewrite Hr. simpl. split; [done|]. split; [done|].
  split; [apply lookup_delete_eq|].
  intros roomId (room & Hl & Hin). unfold getRoomInfo. simpl. rewrite Hl.
  eexists. split; [done|]. simpl.
  apply list_elem_of_In, in_map_iff. exists sid. split; [|by apply list_elem_of_In].
  unfold type_of. by rewrite lookup_delete_eq.
Qed.

Lemma falsy_room_disconnect_leaves_member_witness :
  let s := run (Payload := string) [Connect "p1"; JoinRoom "p1" EmptyString 1] in
  let r := handleDisconnect (Payload := string) s "p1" in
  clientMap s !! "p1" = Some (mkClient None (Some EmptyString))
  /\ member_of s "p1" EmptyString
  /\ r.2 = []
  /\ rooms r.1 = rooms s
  /\ clientMap r.1 !! "p1" = None
  /\ (forall roomId, member_of s "p1" roomId ->
        exists info, getRoomInfo r.1 roomId = Some info
                     /\ ("p1", Some "unknown") ∈ info_clients info).
Proof.
  intros s r.
  assert (H1 : clientMap s !! "p1" = Some (mkClient None (Some EmptyString)))
    by reflexivity.
  split; [exact H1|]. split.
  { exists (mkRoom ["p1"] 1). split; [reflexivity|]. by left. }
  exact (falsy_room_disconnect_leaves_member (Payload := string) s "p1"
           (mkClient None (Some EmptyString)) H1 eq_refl).
Defined.

(** X25. Membership under socket.io traffic.  When every connection carries a
    socket id not in use and no join-room names the empty room id, every
    member of a room is a connected client that records that room; a peer
    is in at most one room; [getRoomInfo] lists each member with its own
    type; and [getRoomCount] is at most [getClientCount]. *)
Theorem well_formed_traffic_membership {Payload : Type}
    (evs : list (Event (Payload := Payload))) :
  well_formed constructor evs ->
  let s := run evs in
  members_are_clients s
  /\ (forall sid r1 r2, member_of s sid r1 -> member_of s sid r2 -> r1 = r2)
  /\ (forall roomId info p,
        getRoomInfo s roomId = Some info -> p ∈ info_clients info ->
        exists c, clientMap s !! p.1 = Some c /\ p.2 = type c
                  /\ room c = Some roomId)
  /\ (getRoomCount s <= getClientCount s)%nat.
Proof.
  intros Hw s.
  destruct (well_formed_run evs constructor Hw) as [Ht Hm].
  { intros x c r Hl. simpl in Hl. by rewrite lookup_empty in Hl. }
  { intros x r (room & Hl & _). simpl in Hl. by rewrite lookup_empty in Hl. }
  rewrite run_from_constructor in Ht, Hm. fold s in Ht, Hm.
  split; [done|]. split; [|split].
  - intros sid r1 r2 H1 H2.
    destruct (Hm _ _ H1) as (c1 & Hl1 & Hr1). destruct (Hm _ _ H2) as (c2 & Hl2 & Hr2).
    congruence.
  - intros roomId info p Hi Hp. unfold getRoomInfo in Hi.
    destruct (rooms s !! roomId) as [room|] eqn:Hl; [|done].
    injection Hi as <-. simpl in Hp.
    apply list_elem_of_In, in_map_iff in Hp as (id & <- & Hin).
    apply list_elem_of_In in Hin.
    destruct (Hm id roomId) as (c & Hc & Hr); [by exists room|].
    exists c. simpl. unfold type_of. by rewrite Hc.
  - apply room_count_le; [apply run_nonempty|done].
Qed.

Lemma well_formed_traffic_membership_witness :
  let evs := [Connect "p1"; Connect "p2"; JoinRoom "p1" "A" 1; JoinRoom "p2" "A" 2;
              JoinRoom "p1" "B" 3; Disconnect "p2"]
             : list (Event (Payload := string)) in
  let s := run evs in
  well_formed constructor evs
  /\ members_are_clients s
  /\ (forall sid r1 r2, member_of s sid r1 -> member_of s sid r2 -> r1 = r2)
  /\ (forall roomId info p,
        getRoomInfo s roomId = Some info -> p ∈ info_clients info ->
        exists c, clientMap s !! p.1 = Some c /\ p.2 = type c
                  /\ room c = Some roomId)
  /\ (getRoomCount s <= getClientCount s)%nat.
Proof.
  intros evs s.
  assert (Hw : well_formed constructor evs).
  { repeat split; try reflexivity; discriminate. }
  split; [exact Hw|].
  exact (well_formed_traffic_membership (Payload := string) evs Hw).
Defined.

(** X26. Disconnect removes the peer.  Under such traffic, when a known peer
    disconnects it is deleted from the clients and is a member of no room;
    the memberships and records of the other peers are unchanged; peer-left
    is sent to the room the peer was in, and nothing is sent when it was in
    no room. *)
Theorem disconnect_removes_peer {Payload : Type}
    (evs : list (Event (Payload := Payload))) (sid : string) (c : Client) :
  well_formed constructor evs ->
  clientMap (run evs) !! sid = Some c ->
  let s := run evs in
  let r := handleDisconnect (Payload := Payload) s sid in
  clientMap r.1 !! sid = None
  /\ (forall roomId, ~ member_of r.1 sid roomId)
  /\ (forall x roomId, x <> sid -> (member_of r.1 x roomId <-> member_of s x roomId))
  /\ (forall x, x <> sid -> clientMap r.1 !! x = clientMap s !! x)
  /\ r.2 = match room c with
           | Some roomId => [emit_to sid roomId (peer_left sid)]
           | None => []
           end.
Proof.
  intros Hw Hc s r.
  destruct (well_formed_run evs constructor Hw) as [Ht Hm].
  { intros x c0 r0 Hl. simpl in Hl. by rewrite lookup_empty in Hl. }
  { intros x r0 (room & Hl & _). simpl in Hl. by rewrite lookup_empty in Hl. }
  rewrite run_from_constructor in Ht, Hm. fold s in Ht, Hm, Hc.
  pose proof (fun x r0 => handleDisconnect_member (Payload := Payload) s sid c x r0 Hc)
    as Hd. fold r in Hd.
  split; [|split; [|split; [|split]]].
  - unfold r. rewrite handleDisconnect_clients. apply lookup_delete_eq.
  - intros roomId H. apply Hd in H as [H Hn]. apply Hn.
    destruct (Hm _ _ H) as (c' & Hc' & Hr'). rewrite Hc in Hc'. injection Hc' as <-.
    split; [|done]. unfold has_room. rewrite Hr'.
    apply truthy_string_true. by apply (Ht sid c roomId).
  - intros x roomId Hx. rewrite Hd. split; [by intros [? _]|].
    intros H. split; [done|]. by intros (_ & _ & ?).
  - intros x Hx. unfold r. rewrite handleDisconnect_clients. by apply lookup_delete_ne.
  - unfold r, handleDisconnect. rewrite Hc.
    destruct (room c) as [roomId|] eqn:Hr; [|done].
    by rewrite (truthy_string_true _ (Ht sid c roomId Hc Hr)).
Qed.

Lemma disconnect_removes_peer_witness :
  let evs := [Connect "p1"; Connect "p2"; JoinRoom "p1" "A" 1; JoinRoom "p2" "A" 2]
             : list (Event (Payload := string)) in
  let s := run evs in
  let r := handleDisconnect (Payload := string) s "p1" in
  well_formed constructor evs
  /\ clientMap s !! "p1" = Some (mkClient None (Some "A"))
  /\ clientMap r.1 !! "p1" = None
  /\ (forall roomId, ~ member_of r.1 "p1" roomId)
  /\ (forall x roomId, x <> "p1" -> (member_of r.1 x roomId <-> member_of s x roomId))
  /\ (forall x, x <> "p1" -> clientMap r.1 !! x = clientMap s !! x)
  /\ r.2 = [emit_to "p1" "A" (peer_left "p1")].
Proof.
  intros evs s r.
  assert (Hw : well_formed constructor evs).
  { repeat split; try reflexivity; discriminate. }
  assert (H1 : clientMap s !! "p1" = Some (mkClient None (Some "A"))) by reflexivity.
  split; [exact Hw|]. split; [exact H1|].
  exact (disconnect_removes_peer (Payload := string) evs "p1"
           (mkClient None (Some "A")) Hw H1).
Defined.

End BrokerProofs.
